(** * Classifier native linear algebra: vectors, matrices, Jacobi SVD and
      Brand's incremental SVD update

    A shallow embedding of [ext/classifier/*.c].  A C [double] is a primitive
    binary64 float, a [size_t] count is a [nat], a heap array is a [list float]
    read and written by index, and [rb_raise] is the [Raise] result of a small
    error monad, whose third outcome [Undefined] marks a read past the end of
    an allocation.  The libm functions [atan], [cos] and [sin], which live
    outside the repository, are section variables. *)

From Stdlib Require Import ZArith Lia Floats Reals Lra.
From stdpp Require Import base list.

Local Open Scope nat_scope.
Set Warnings "-inexact-float".

(** ** Constants of [linalg.h], [svd.c] and [math.h] *)

Definition CLASSIFIER_EPSILON : float := 1e-10%float.
Definition SVD_MAX_SWEEPS : nat := 20.
Definition SVD_CONVERGENCE_THRESHOLD : float := 0.001%float.
Definition M_PI : float := 3.14159265358979323846%float.

(** ** Ruby exceptions and the error monad *)

Inductive rb_error : Type :=
  | rb_eArgError
  | rb_eTypeError
  | rb_eIndexError.

(** What a call does: it returns, it leaves through [rb_raise], or it reads
    memory outside an allocation, which is undefined behaviour in C: nothing
    is known of the program from there on. *)
Inductive result (A : Type) : Type :=
  | Ok (a : A)
  | Raise (e : rb_error)
  | Undefined.
Arguments Ok {A} a.
Arguments Raise {A} e.
Arguments Undefined {A}.

Definition bind {A B : Type} (r : result A) (k : A -> result B) : result B :=
  match r with
  | Ok a => k a
  | Raise e => Raise e
  | Undefined => Undefined
  end.

Notation "'do' x <- r ; k" := (bind r (fun x => k))
  (at level 10, x name, r at level 100, k at level 200).

Definition is_Raise {A : Type} (r : result A) : bool :=
  match r with
  | Ok _ => false
  | Raise _ => true
  | Undefined => false
  end.

(** ** Arrays and loops *)

(** [a[i]] for a [double *a] and an [i] inside the allocation.  The functions
    of the library check their sizes before they read, so that [i] is inside
    for the structures the library builds; [incremental_update], which does
    not, guards its reads with [reading] below.  Outside the storage [rd] is
    [0.0]. *)
Definition rd (a : list float) (i : nat) : float := default 0%float (a !! i).

(** [for (size_t i = lo; i < hi; i++) body]: the state after the loop. *)
Fixpoint for_count {S : Type} (n lo : nat) (body : nat -> S -> S) (s : S) : S :=
  match n with
  | O => s
  | Datatypes.S n' => for_count n' (Datatypes.S lo) body (body lo s)
  end.

Definition for_range {S : Type} (lo hi : nat) (body : nat -> S -> S) (s : S) : S :=
  for_count (hi - lo) lo body s.

(** The same loop with a body that may raise: the first raise leaves the loop. *)
Fixpoint for_countM {S : Type} (n lo : nat) (body : nat -> S -> result S) (s : S)
  : result S :=
  match n with
  | O => Ok s
  | Datatypes.S n' => do s' <- body lo s; for_countM n' (Datatypes.S lo) body s'
  end.

(** [memcpy(dst + doff, src + soff, n * sizeof(double))] *)
Definition memcpy (dst : list float) (doff : nat) (src : list float) (soff n : nat)
  : list float :=
  for_range 0 n (fun i d => <[doff + i := rd src (soff + i)]> d) dst.

(** ** [linalg.h]: the two structures *)

Record CVector : Type := mkCVector {
  v_size : nat;
  v_data : list float;
  v_is_col : Z (* 0 = row vector, 1 = column vector *)
}.

Record CMatrix : Type := mkCMatrix {
  m_rows : nat;
  m_cols : nat;
  m_data : list float (* row-major storage *)
}.

(** [MAT_AT(m, i, j)] as an rvalue and as the target of an assignment. *)
Definition MAT_AT (m : CMatrix) (i j : nat) : float :=
  rd (m_data m) (i * m_cols m + j).

Definition MAT_SET (m : CMatrix) (i j : nat) (x : float) : CMatrix :=
  mkCMatrix (m_rows m) (m_cols m) (<[i * m_cols m + j := x]> (m_data m)).

Definition vec_set (v : CVector) (i : nat) (x : float) : CVector :=
  mkCVector (v_size v) (<[i := x]> (v_data v)) (v_is_col v).

Definition set_is_col (v : CVector) (c : Z) : CVector :=
  mkCVector (v_size v) (v_data v) c.

(** The data-model invariant: the storage holds exactly the declared cells. *)
Definition vec_wf (v : CVector) : Prop := length (v_data v) = v_size v.
Definition mat_wf (m : CMatrix) : Prop := length (m_data m) = m_rows m * m_cols m.

(** A loop that reads [v->data[i]] for every [i < n] stays inside the [size]
    cells of the allocation of [v] when [n <= v->size].  Otherwise it reads
    past the end: undefined behaviour. *)
Definition reading (n : nat) (v : CVector) : result unit :=
  if n <=? v_size v then Ok tt else Undefined.

(** ** [vector.c] *)

Definition cvector_alloc (size : nat) : CVector :=
  mkCVector size (replicate size 0%float) 0%Z.

Definition cvector_magnitude (v : CVector) : float :=
  let sum := for_range 0 (v_size v)
               (fun i sum => (sum + rd (v_data v) i * rd (v_data v) i)%float) 0%float in
  PrimFloat.sqrt sum.

Definition cvector_normalize (v : CVector) : CVector :=
  let result := cvector_alloc (v_size v) in
  let result := set_is_col result (v_is_col v) in
  let mag := cvector_magnitude v in
  if (mag <=? CLASSIFIER_EPSILON)%float then
    (* Return zero vector if magnitude is too small *)
    result
  else
    for_range 0 (v_size v)
      (fun i result => vec_set result i (rd (v_data v) i / mag)%float) result.

Definition cvector_sum (v : CVector) : float :=
  for_range 0 (v_size v) (fun i sum => (sum + rd (v_data v) i)%float) 0%float.

Definition cvector_dot (a b : CVector) : result float :=
  if negb (v_size a =? v_size b) then Raise rb_eArgError
  else Ok (for_range 0 (v_size a)
             (fun i sum => (sum + rd (v_data a) i * rd (v_data b) i)%float) 0%float).

(** ** [matrix.c] *)

Definition cmatrix_alloc (rows cols : nat) : CMatrix :=
  mkCMatrix rows cols (replicate (rows * cols) 0%float).

Definition cmatrix_transpose (m : CMatrix) : CMatrix :=
  let result := cmatrix_alloc (m_cols m) (m_rows m) in
  for_range 0 (m_rows m) (fun i result =>
    for_range 0 (m_cols m) (fun j result =>
      MAT_SET result j i (MAT_AT m i j)) result) result.

Definition cmatrix_multiply (a b : CMatrix) : result CMatrix :=
  if negb (m_cols a =? m_rows b) then Raise rb_eArgError
  else
    let result := cmatrix_alloc (m_rows a) (m_cols b) in
    Ok (for_range 0 (m_rows a) (fun i result =>
          for_range 0 (m_cols b) (fun j result =>
            let sum := for_range 0 (m_cols a)
                         (fun k sum => (sum + MAT_AT a i k * MAT_AT b k j)%float)
                         0%float in
            MAT_SET result i j sum) result) result).

Definition cmatrix_multiply_vector (m : CMatrix) (v : CVector) : result CVector :=
  if negb (m_cols m =? v_size v) then Raise rb_eArgError
  else
    let result := cvector_alloc (m_rows m) in
    Ok (for_range 0 (m_rows m) (fun i result =>
          let sum := for_range 0 (m_cols m)
                       (fun j sum => (sum + MAT_AT m i j * rd (v_data v) j)%float)
                       0%float in
          vec_set result i sum) result).

Definition cmatrix_diagonal (v : CVector) : CMatrix :=
  let result := cmatrix_alloc (v_size v) (v_size v) in
  for_range 0 (v_size v) (fun i result => MAT_SET result i i (rd (v_data v) i)) result.

(** ** [svd.c] *)

(** Arithmetic on [size_t], 64 bits wide, wraps around: [(size_t)z]. *)
Definition to_size_t (z : Z) : Z := (z mod 2 ^ 64)%Z.

Definition mat_memcpy (dst : CMatrix) (doff : nat) (src : list float) (soff n : nat)
  : CMatrix :=
  mkCMatrix (m_rows dst) (m_cols dst) (memcpy (m_data dst) doff src soff n).

Definition vec_memcpy (dst : CVector) (doff : nat) (src : list float) (soff n : nat)
  : CVector :=
  mkCVector (v_size dst) (memcpy (v_data dst) doff src soff n) (v_is_col dst).

Definition cmatrix_identity (n : nat) : CMatrix :=
  let m := cmatrix_alloc n n in
  for_range 0 n (fun i m => MAT_SET m i i 1%float) m.

Definition cmatrix_clone (m : CMatrix) : CMatrix :=
  let result := cmatrix_alloc (m_rows m) (m_cols m) in
  mat_memcpy result 0 (m_data m) 0 (m_rows m * m_cols m).

Definition apply_jacobi_rotation (q v : CMatrix) (p r : nat) (cosine sine : float)
  : CMatrix * CMatrix :=
  let n := m_rows q in
  (* First: Q = Q * R (affects columns p and r) *)
  let q := for_range 0 n (fun i q =>
             let qip := MAT_AT q i p in
             let qir := MAT_AT q i r in
             let q := MAT_SET q i p (cosine * qip - sine * qir)%float in
             MAT_SET q i r (sine * qip + cosine * qir)%float) q in
  (* Second: Q = R^T * Q (affects rows p and r) *)
  let q := for_range 0 n (fun j q =>
             let qpj := MAT_AT q p j in
             let qrj := MAT_AT q r j in
             let q := MAT_SET q p j (cosine * qpj - sine * qrj)%float in
             MAT_SET q r j (sine * qpj + cosine * qrj)%float) q in
  (* Accumulate rotation in V: V = V * R *)
  let v := for_range 0 (m_rows v) (fun i v =>
             let vip := MAT_AT v i p in
             let vir := MAT_AT v i r in
             let v := MAT_SET v i p (cosine * vip - sine * vir)%float in
             MAT_SET v i r (sine * vip + cosine * vir)%float) v in
  (q, v).

(** The two arms of the angle computation of [jacobi_svd]. *)
Inductive angle_branch : Type :=
  | quarter_pi   (* angle = (numerator >= 0) ? M_PI / 4.0 : -M_PI / 4.0 *)
  | half_atan.   (* angle = atan(numerator / denominator) / 2.0 *)

Definition rotation_branch (denominator : float) : angle_branch :=
  if (abs denominator <? CLASSIFIER_EPSILON)%float then quarter_pi else half_atan.

(** Extract singular values (sqrt of diagonal elements of Q), over a given
    square-root function; the program uses [sqrt] of libm, which on binary64
    is the correctly rounded [PrimFloat.sqrt]. *)
Definition singular_values_with (fsqrt : float -> float) (q : CMatrix) (size : nat)
  : CVector :=
  let s := cvector_alloc size in
  for_range 0 size (fun i s =>
    let val := MAT_AT q i i in
    vec_set s i (if (0 <? val)%float then fsqrt val else 0%float)) s.

Definition singular_values : CMatrix -> nat -> CVector :=
  singular_values_with PrimFloat.sqrt.

(** Create S^(-1) diagonal matrix *)
Definition inverse_diagonal (s : CVector) (size : nat) : CMatrix :=
  let s_inv := cmatrix_alloc size size in
  for_range 0 size (fun i s_inv =>
    let sv := rd (v_data s) i in
    MAT_SET s_inv i i
      (if (CLASSIFIER_EPSILON <? sv)%float then (1 / sv)%float else 0%float)) s_inv.

(** The Gram matrix the solver iterates on, and the [transposed] flag. *)
Definition gram_matrix (a : CMatrix) : result (CMatrix * bool) :=
  let m := m_rows a in
  let n := m_cols a in
  if n <=? m then
    let at_ := cmatrix_transpose a in
    do work_matrix <- cmatrix_multiply at_ a;
    Ok (work_matrix, false)
  else
    let at_ := cmatrix_transpose a in
    do work_matrix <- cmatrix_multiply a at_;
    Ok (work_matrix, true).

(** The sum of the diagonal changes larger than 0.001 since the last sweep. *)
Definition diagonal_change (size : nat) (q prev_q : CMatrix) : float :=
  for_range 0 size (fun i sum_diff =>
    let diff := abs (MAT_AT q i i - MAT_AT prev_q i i)%float in
    if (0.001 <? diff)%float then (sum_diff + diff)%float else sum_diff) 0%float.

Section Libm.

Variables atan cos sin : float -> float.

Definition rotation_angle (numerator denominator : float) : float :=
  match rotation_branch denominator with
  | quarter_pi =>
      if (0 <=? numerator)%float then (M_PI / 4)%float
      else (PrimFloat.opp M_PI / 4)%float
  | half_atan => (atan (numerator / denominator) / 2)%float
  end.

(** The body of the loop over the pairs [(p, r)]. *)
Definition jacobi_rotate_pair (p r : nat) (qv : CMatrix * CMatrix)
  : CMatrix * CMatrix :=
  let '(q, v) := qv in
  let qpr := MAT_AT q p r in
  let qpp := MAT_AT q p p in
  let qrr := MAT_AT q r r in
  let numerator := (2 * qpr)%float in
  let denominator := (qpp - qrr)%float in
  let angle := rotation_angle numerator denominator in
  let cosine := cos angle in
  let sine := sin angle in
  apply_jacobi_rotation q v p r cosine sine.

(** One sweep: [for (p = 0; p < size - 1; p++) for (r = p + 1; r < size; r++)].
    The bound [size - 1] is computed in [size_t]: for [size = 0] it wraps
    around to [2^64 - 1], and the outer loop runs that many times over an
    empty inner loop. *)
Definition jacobi_sweep (size : nat) (qv : CMatrix * CMatrix) : CMatrix * CMatrix :=
  for_range 0 (Z.to_nat (to_size_t (Z.of_nat size - 1))) (fun p qv =>
    for_range (p + 1) size (fun r qv => jacobi_rotate_pair p r qv) qv) qv.

(** The sweep loop, [n] sweeps before [SVD_MAX_SWEEPS] is reached. *)
Fixpoint jacobi_sweeps (n sweep size : nat) (q v : CMatrix) (prev_q : option CMatrix)
  : CMatrix * CMatrix :=
  match n with
  | O => (q, v)
  | S n' =>
      let '(q, v) := jacobi_sweep size (q, v) in
      if sweep =? 0 then
        jacobi_sweeps n' (S sweep) size q v (Some (cmatrix_clone q))
      else
        match prev_q with
        | None => (q, v) (* prev_q is set in sweep 0: not reached *)
        | Some prev_q =>
            let sum_diff := diagonal_change size q prev_q in
            let prev_q := mat_memcpy prev_q 0 (m_data q) 0 (size * size) in
            if (sum_diff <=? SVD_CONVERGENCE_THRESHOLD)%float then (q, v)
            else jacobi_sweeps n' (S sweep) size q v (Some prev_q)
        end
  end.

Definition jacobi_iterate (work_matrix : CMatrix) : CMatrix * CMatrix :=
  let size := m_rows work_matrix in
  let q := cmatrix_clone work_matrix in
  let v := cmatrix_identity size in
  jacobi_sweeps SVD_MAX_SWEEPS 0 size q v None.

Definition jacobi_svd (a : CMatrix) : result (CMatrix * CMatrix * CVector) :=
  do wt <- gram_matrix a;
  let '(work_matrix, transposed) := wt in
  let size := m_rows work_matrix in
  let '(q, v) := jacobi_iterate work_matrix in
  let s := singular_values q size in
  let s_inv := inverse_diagonal s size in
  let source := if transposed : bool then cmatrix_transpose a else cmatrix_clone a in
  (* U = source * V * S^(-1) *)
  do temp <- cmatrix_multiply source v;
  do u <- cmatrix_multiply temp s_inv;
  Ok (u, v, s).

(** ** [incremental_svd.c] *)

Definition cmatrix_extend_column (m : CMatrix) (col : CVector) : result CMatrix :=
  if negb (m_rows m =? v_size col) then Raise rb_eArgError
  else
    let result := cmatrix_alloc (m_rows m) (m_cols m + 1) in
    Ok (for_range 0 (m_rows m) (fun i result =>
          (* Copy existing columns *)
          let result := mat_memcpy result (i * m_cols result + 0)
                          (m_data m) (i * m_cols m + 0) (m_cols m) in
          (* Add new column *)
          MAT_SET result i (m_cols m) (rd (v_data col) i)) result).

Definition cmatrix_vstack (top bottom : CMatrix) : result CMatrix :=
  if negb (m_cols top =? m_cols bottom) then Raise rb_eArgError
  else
    let new_rows := m_rows top + m_rows bottom in
    let result := cmatrix_alloc new_rows (m_cols top) in
    let result := mat_memcpy result 0 (m_data top) 0 (m_rows top * m_cols top) in
    let result := mat_memcpy result (m_rows top * m_cols top)
                    (m_data bottom) 0 (m_rows bottom * m_cols bottom) in
    Ok result.

Definition cvector_subtract (a b : CVector) : result CVector :=
  if negb (v_size a =? v_size b) then Raise rb_eArgError
  else
    let result := cvector_alloc (v_size a) in
    Ok (for_range 0 (v_size a) (fun i result =>
          vec_set result i (rd (v_data a) i - rd (v_data b) i)%float) result).

(** [raw_vectors[v]] for [v < num_vectors]. *)
Definition vec_at (vs : list CVector) (v : nat) : CVector :=
  default (cvector_alloc 0) (vs !! v).

(** [lsi_vectors_out] is written at [v = 0, 1, ...] in turn: the state of the
    loop is the list of the entries written so far. *)
Definition cbatch_project (u : CMatrix) (raw_vectors : list CVector)
    (num_vectors : nat) : result (list CVector) :=
  let m := m_rows u in
  let k := m_cols u in
  for_countM num_vectors 0 (fun v lsi_vectors_out =>
    let raw := vec_at raw_vectors v in
    if negb (v_size raw =? m) then Raise rb_eArgError
    else
      let lsi := cvector_alloc k in
      (* Compute U^T * raw (project onto k-dimensional space) *)
      let lsi := for_range 0 k (fun j lsi =>
                   let sum := for_range 0 m
                                (fun i sum => (sum + MAT_AT u i j * rd (v_data raw) i)%float)
                                0%float in
                   vec_set lsi j sum) lsi in
      Ok (lsi_vectors_out ++ [lsi])) [].

Definition build_k_matrix_with_growth (s m_vec : CVector) (p_norm : float) : CMatrix :=
  let k := v_size s in
  let result := cmatrix_alloc (k + 1) (k + 1) in
  (* First k rows: diagonal s values and m_vec in last column *)
  let result := for_range 0 k (fun i result =>
                  let result := MAT_SET result i i (rd (v_data s) i) in
                  MAT_SET result i k (rd (v_data m_vec) i)) result in
  (* Last row: zeros except p_norm in last position *)
  MAT_SET result k k p_norm.

(** Step 1 of [incremental_update]: m_vec = U^T * c *)
Definition project_step (u : CMatrix) (c : CVector) : CVector :=
  let m := m_rows u in
  let k := m_cols u in
  let m_vec := cvector_alloc k in
  for_range 0 k (fun j m_vec =>
    let sum := for_range 0 m
                 (fun i sum => (sum + MAT_AT u i j * rd (v_data c) i)%float)
                 0%float in
    vec_set m_vec j sum) m_vec.

(** Step 2 of [incremental_update]: p = c - U * m_vec *)
Definition residual_step (u : CMatrix) (c m_vec : CVector) : result CVector :=
  do u_times_m <- cmatrix_multiply_vector u m_vec;
  cvector_subtract c u_times_m.

Definition incremental_update (u : CMatrix) (s c : CVector) (max_rank : Z)
    (epsilon : float) : result (CMatrix * CVector) :=
  let m := m_rows u in
  let k := m_cols u in
  (* Step 1 reads c->data[0 .. m-1], once for each of the k columns of U *)
  do _ <- reading (if k =? 0 then 0 else m) c;
  let m_vec := project_step u c in
  do p <- residual_step u c m_vec;
  let p_norm := cvector_magnitude p in
  if (epsilon <? p_norm)%float then
    (* New direction found - rank may increase *)
    let p_hat := cvector_alloc m in
    let inv_p_norm := (1 / p_norm)%float in
    let p_hat := for_range 0 m (fun i p_hat =>
                   vec_set p_hat i (rd (v_data p) i * inv_p_norm)%float) p_hat in
    (* Step 4 reads s->data[i] and m_vec->data[i] for i < s->size *)
    do _ <- reading (v_size s) m_vec;
    let k_mat := build_k_matrix_with_growth s m_vec p_norm in
    do usv <- jacobi_svd k_mat;
    let '(u_prime, v_prime, s_prime) := usv in
    do u_extended <- cmatrix_extend_column u p_hat;
    do u_new <- cmatrix_multiply u_extended u_prime;
    (* Truncate if needed *)
    if (Z.of_nat (v_size s_prime) >? to_size_t max_rank)%Z then
      let max_rank' := Z.to_nat (to_size_t max_rank) in
      let u_trunc := cmatrix_alloc (m_rows u_new) max_rank' in
      let u_trunc := for_range 0 (m_rows u_new) (fun i u_trunc =>
                       mat_memcpy u_trunc (i * m_cols u_trunc + 0)
                         (m_data u_new) (i * m_cols u_new + 0) max_rank') u_trunc in
      let s_trunc := cvector_alloc max_rank' in
      let s_trunc := vec_memcpy s_trunc 0 (v_data s_prime) 0 max_rank' in
      Ok (u_trunc, s_trunc)
    else
      Ok (u_new, s_prime)
  else
    (* Vector in span - just return unchanged *)
    let u_out := cmatrix_alloc (m_rows u) (m_cols u) in
    let u_out := mat_memcpy u_out 0 (m_data u) 0 (m_rows u * m_cols u) in
    let s_out := cvector_alloc (v_size s) in
    let s_out := vec_memcpy s_out 0 (v_data s) 0 (v_size s) in
    Ok (u_out, s_out).

End Libm.

(** [Matrix#batch_project(vectors_array)]: the elements of the Ruby array are
    Vectors by the type of [rb_vectors], so the TypeError arm is not reached. *)
Definition rb_cmatrix_batch_project (u : CMatrix) (rb_vectors : list CVector)
  : result (list CVector) :=
  let num_vectors := length rb_vectors in
  if num_vectors =? 0 then Ok []
  else
    let raw_vectors := rb_vectors in
    do lsi_vectors <- cbatch_project u raw_vectors num_vectors;
    Ok lsi_vectors.

(** ** The Ruby methods of [Vector] and [Matrix]

    A Ruby [VALUE] an operator receives is one of the cases of [rb_value];
    the Float elements of a Ruby Array are a [list float]. *)

Inductive rb_value : Type :=
  | RbVector (v : CVector)
  | RbMatrix (m : CMatrix)
  | RbFloat (f : float)
  | RbFixnum (n : Z)
  | RbOther.

(** [NUM2DBL] on a Float or a Fixnum (an integer is rounded to the nearest
    binary64 number). *)
Definition NUM2DBL (x : rb_value) : float :=
  match x with
  | RbFloat f => f
  | RbFixnum n => SF2Prim (binary_normalize prec emax n 0 false)
  | _ => nan
  end.

(** A [size_t] stored back into a [long], on 64 bits. *)
Definition to_long (z : Z) : Z := ((z + 2 ^ 63) mod 2 ^ 64 - 2 ^ 63)%Z.

(** [if (i < 0) i += size;] for a [long i] and a [size_t size]: the sum is
    made in [size_t] and stored back into [i]. *)
Definition wrap_index (i : Z) (size : nat) : Z :=
  if (i <? 0)%Z then to_long (to_size_t (to_size_t i + Z.of_nat size)) else i.

(** [i < 0 || (size_t)i >= size] *)
Definition index_out_of_bounds (i : Z) (size : nat) : bool :=
  (i <? 0)%Z || (to_size_t i >=? Z.of_nat size)%Z.

(** [Vector.alloc(size_or_array)] *)
Inductive alloc_arg : Type :=
  | ArrayArg (ary : list float)
  | SizeArg (size : nat).

Definition rb_cvector_s_alloc (arg : alloc_arg) : CVector :=
  match arg with
  | ArrayArg ary =>
      let len := length ary in
      let v := cvector_alloc len in
      for_range 0 len (fun i v => vec_set v i (rd ary i)) v
  | SizeArg size => cvector_alloc size
  end.

(** [Vector#size] *)
Definition rb_cvector_size (v : CVector) : nat := v_size v.

(** [Vector#[]] *)
Definition rb_cvector_aref (v : CVector) (idx : Z) : result float :=
  let i := wrap_index idx (v_size v) in
  if index_out_of_bounds i (v_size v) then Raise rb_eIndexError
  else Ok (rd (v_data v) (Z.to_nat i)).

(** [Vector#[]=]: the vector after the assignment, and the value returned. *)
Definition rb_cvector_aset (v : CVector) (idx : Z) (val : float)
  : result (CVector * float) :=
  let i := wrap_index idx (v_size v) in
  if index_out_of_bounds i (v_size v) then Raise rb_eIndexError
  else Ok (vec_set v (Z.to_nat i) val, val).

(** [Vector#to_a] *)
Definition rb_cvector_to_a (v : CVector) : list float :=
  for_range 0 (v_size v) (fun i ary => ary ++ [rd (v_data v) i]) [].

(** [Vector#row] and [Vector#col] *)
Definition rb_cvector_row (v : CVector) : CVector :=
  let result := cvector_alloc (v_size v) in
  let result := vec_memcpy result 0 (v_data v) 0 (v_size v) in
  set_is_col result 0.

Definition rb_cvector_col (v : CVector) : CVector :=
  let result := cvector_alloc (v_size v) in
  let result := vec_memcpy result 0 (v_data v) 0 (v_size v) in
  set_is_col result 1.

(** [Vector#*] *)
Definition rb_cvector_mul (v : CVector) (other : rb_value) : result rb_value :=
  match other with
  | RbVector w => do x <- cvector_dot v w; Ok (RbFloat x)
  | RbFloat _ | RbFixnum _ =>
      let scalar := NUM2DBL other in
      let result := cvector_alloc (v_size v) in
      let result := set_is_col result (v_is_col v) in
      Ok (RbVector (for_range 0 (v_size v) (fun i result =>
                      vec_set result i (rd (v_data v) i * scalar)%float) result))
  | _ => Raise rb_eTypeError
  end.

(** [Vector#-] *)
Definition rb_cvector_subtract (a : CVector) (other : rb_value) : result CVector :=
  match other with
  | RbVector b => cvector_subtract a b
  | _ => Raise rb_eTypeError
  end.

(** [Matrix#[]] *)
Definition rb_cmatrix_aref (m : CMatrix) (row col : Z) : result float :=
  let i := wrap_index row (m_rows m) in
  let j := wrap_index col (m_cols m) in
  if index_out_of_bounds i (m_rows m) || index_out_of_bounds j (m_cols m)
  then Raise rb_eIndexError
  else Ok (MAT_AT m (Z.to_nat i) (Z.to_nat j)).

(** [Matrix#[]=]: the matrix after the assignment, and the value returned. *)
Definition rb_cmatrix_aset (m : CMatrix) (row col : Z) (val : float)
  : result (CMatrix * float) :=
  let i := wrap_index row (m_rows m) in
  let j := wrap_index col (m_cols m) in
  if index_out_of_bounds i (m_rows m) || index_out_of_bounds j (m_cols m)
  then Raise rb_eIndexError
  else Ok (MAT_SET m (Z.to_nat i) (Z.to_nat j) val, val).

(** [Matrix#column(n)] *)
Definition rb_cmatrix_column (m : CMatrix) (col_idx : Z) : result CVector :=
  let j := wrap_index col_idx (m_cols m) in
  if index_out_of_bounds j (m_cols m) then Raise rb_eIndexError
  else
    let v := cvector_alloc (m_rows m) in
    let v := set_is_col v 1 in
    Ok (for_range 0 (m_rows m) (fun i v =>
          vec_set v i (MAT_AT m i (Z.to_nat j))) v).

(** [Matrix#row(n)] *)
Definition rb_cmatrix_row (m : CMatrix) (row_idx : Z) : result CVector :=
  let i := wrap_index row_idx (m_rows m) in
  if index_out_of_bounds i (m_rows m) then Raise rb_eIndexError
  else
    let v := cvector_alloc (m_cols m) in
    let v := set_is_col v 0 in
    Ok (vec_memcpy v 0 (m_data m) (Z.to_nat i * m_cols m + 0) (m_cols m)).

(** [Matrix#to_a] *)
Definition rb_cmatrix_to_a (m : CMatrix) : list (list float) :=
  for_range 0 (m_rows m) (fun i ary =>
    let row := for_range 0 (m_cols m) (fun j row => row ++ [MAT_AT m i j]) [] in
    ary ++ [row]) [].

(** [Matrix#*] *)
Definition rb_cmatrix_mul (m : CMatrix) (other : rb_value) : result rb_value :=
  match other with
  | RbMatrix b => do result <- cmatrix_multiply m b; Ok (RbMatrix result)
  | RbVector v => do result <- cmatrix_multiply_vector m v; Ok (RbVector result)
  | RbFloat _ | RbFixnum _ =>
      let scalar := NUM2DBL other in
      let result := cmatrix_alloc (m_rows m) (m_cols m) in
      Ok (RbMatrix
            (mkCMatrix (m_rows result) (m_cols result)
               (for_range 0 (m_rows m * m_cols m) (fun i d =>
                  <[i := (rd (m_data m) i * scalar)%float]> d) (m_data result))))
  | RbOther => Raise rb_eTypeError
  end.

(** ** Vocabulary of the statements *)

Definition dims (m : CMatrix) : nat * nat := (m_rows m, m_cols m).

Definition pair_dims (qv : CMatrix * CMatrix) : (nat * nat) * (nat * nat) :=
  (dims (fst qv), dims (snd qv)).

(** The size of the Gram matrix [jacobi_svd] iterates on, and its
    [transposed] flag. *)
Definition gram_size (a : CMatrix) : nat :=
  if m_cols a <=? m_rows a then m_cols a else m_rows a.

Definition gram_transposed (a : CMatrix) : bool := negb (m_cols a <=? m_rows a).

(** The denominator of the first rotation of [jacobi_svd] on a matrix. *)
Definition first_denominator (a : CMatrix) : result float :=
  do wt <- gram_matrix a;
  let q := cmatrix_clone (fst wt) in
  Ok (MAT_AT q 0 0 - MAT_AT q 1 1)%float.

(** The residual norm [p_norm] of [incremental_update], when its step 2 does
    not raise. *)
Definition residual_norm (u : CMatrix) (c : CVector) : float :=
  match residual_step u c (project_step u c) with
  | Ok p => cvector_magnitude p
  | _ => nan
  end.

(** The rank [incremental_update] returns when a new direction is found. *)
Definition updated_rank (k : nat) (max_rank : Z) : nat :=
  if (Z.of_nat (k + 1) >? to_size_t max_rank)%Z then Z.to_nat (to_size_t max_rank)
  else k + 1.

(** The new vector is exactly [U * (U^T * c)]: step 2 subtracts from [c]
    a vector with the same elements. *)
Definition exactly_in_span (u : CMatrix) (c : CVector) : Prop :=
  exists u_times_m,
    cmatrix_multiply_vector u (project_step u c) = Ok u_times_m /\
    v_data u_times_m = v_data c.

(** What [x - x] can be in binary64: [+0], or a NaN when [x] is not finite. *)
Definition zero_or_nan (x : float) : Prop :=
  Prim2SF x = S754_zero false \/ Prim2SF x = S754_nan.

(** The update returned [(U, S)]: the same dimensions and the same entries. *)
Definition returns_unchanged (r : result (CMatrix * CVector)) (u : CMatrix)
    (s : CVector) : Prop :=
  exists u' s',
    r = Ok (u', s') /\
    m_rows u' = m_rows u /\ m_cols u' = m_cols u /\ m_data u' = m_data u /\
    v_size s' = v_size s /\ v_data s' = v_data s.

(** The sum [cmatrix_multiply] stores at row [i], column [j]. *)
Definition dot_row_col (a b : CMatrix) (i j : nat) : float :=
  for_range 0 (m_cols a)
    (fun k sum => (sum + MAT_AT a i k * MAT_AT b k j)%float) 0%float.

(** The sum [cmatrix_multiply_vector] stores at index [i]. *)
Definition dot_row_vec (m : CMatrix) (v : CVector) (i : nat) : float :=
  for_range 0 (m_cols m)
    (fun j sum => (sum + MAT_AT m i j * rd (v_data v) j)%float) 0%float.

(** The truncation step of [incremental_update]: keep the first
    [max_rank'] columns of [u_new] and entries of [s_prime]. *)
Definition truncate_columns (u_new : CMatrix) (max_rank' : nat) : CMatrix :=
  let u_trunc := cmatrix_alloc (m_rows u_new) max_rank' in
  for_range 0 (m_rows u_new) (fun i u_trunc =>
    mat_memcpy u_trunc (i * m_cols u_trunc + 0)
      (m_data u_new) (i * m_cols u_new + 0) max_rank') u_trunc.

Definition truncate_values (s_prime : CVector) (max_rank' : nat) : CVector :=
  let s_trunc := cvector_alloc max_rank' in
  vec_memcpy s_trunc 0 (v_data s_prime) 0 max_rank'.

Definition pair_wf (qv : CMatrix * CMatrix) : Prop :=
  mat_wf (fst qv) /\ mat_wf (snd qv).

(** ** The real value of a binary64 number *)

(** [2^e] for an integer exponent. *)
Definition pow2 (e : Z) : R := powerRZ 2 e.

(** The real number a finite binary64 number stands for (0 for the others). *)
Definition SF2R (x : spec_float) : R :=
  match x with
  | S754_finite s m e =>
      if s then (- (IZR (Zpos m) * pow2 e))%R else (IZR (Zpos m) * pow2 e)%R
  | _ => 0%R
  end.

Definition B2R (x : float) : R := SF2R (Prim2SF x).

(** The non-negative real [x] lies at [m * 2^e] ([loc_Exact]) or between it
    and [(m + 1) * 2^e], below, at or above the midpoint. *)
Definition located (x : R) (m e : Z) (l : location) : Prop :=
  match l with
  | loc_Exact => x = (IZR m * pow2 e)%R
  | loc_Inexact Lt => (IZR m * pow2 e <= x <= (IZR m + / 2) * pow2 e)%R
  | loc_Inexact Eq => x = ((IZR m + / 2) * pow2 e)%R
  | loc_Inexact Gt => ((IZR m + / 2) * pow2 e <= x <= (IZR m + 1) * pow2 e)%R
  end.

(** A finite binary64 number that is not negative. *)
Definition SFnonneg (z : spec_float) : Prop :=
  match z with
  | S754_zero false | S754_finite false _ _ => True
  | _ => False
  end.

(** What an operation that overflows or is applied to a non-finite operand
    returns here: [+inf] or a NaN. *)
Definition SFbad (z : spec_float) : Prop :=
  z = S754_infinity false \/ z = S754_nan.

(** A finite binary64 number of either sign. *)
Definition SFfin (z : spec_float) : Prop :=
  match z with
  | S754_zero _ | S754_finite _ _ _ => True
  | _ => False
  end.

(** [z] is the binary64 number the non-negative real [x] rounds to: [+inf]
    only for [x >= 2^1023], and otherwise a finite number within
    [2^-53 * x + 2^-1075] of [x]. *)
Definition rounds_to (z : spec_float) (x : R) : Prop :=
  (z = S754_infinity false /\ (pow2 1023 <= x)%R) \/
  (SFnonneg z /\
   (Rabs (SF2R z - x) <= pow2 (-53) * x + pow2 (-1075))%R).

(** The sum of the squares of [x 0 .. x (k-1)]. *)
Fixpoint sum_sq (x : nat -> R) (k : nat) : R :=
  match k with
  | O => 0%R
  | S k' => (sum_sq x k' + x k' * x k')%R
  end.

(** Bounds of the binary64 sum of [k] squares, computed as [cvector_magnitude]
    does, in terms of the exact sum: every operation rounds with relative
    error [2^-53] and absolute error [2^-1075]. *)
Definition sum_hi (x : nat -> R) (k : nat) : R :=
  ((1 + pow2 (-53)) ^ k
   * ((1 + pow2 (-53)) * sum_sq x k + 2 * INR k * pow2 (-1075)))%R.

Definition sum_lo (x : nat -> R) (k : nat) : R :=
  ((1 - pow2 (-53)) ^ k * (1 - pow2 (-53)) * sum_sq x k
   - 2 * INR k * pow2 (-1075))%R.

(** The positive binary64 number of mantissa [m] and exponent [e]. *)
Definition float_of (m e : Z) : float := SF2Prim (S754_finite false (Z.to_pos m) e).

(** ** Inputs of the worked examples *)

Definition tiny_vector : CVector := mkCVector 1 [1e-11%float] 0.
Definition huge_vector : CVector := mkCVector 1 [1e200%float] 0.
Definition vector_3_4 : CVector := mkCVector 2 [3%float; 4%float] 1.

(** A long vector: one element near 1 followed by thirty million equal small
    elements, each of a square just above half a unit in the last place of
    the running sum of squares. *)
Definition long_count : nat := Z.to_nat 30000000.
Definition long_head : float := 1.0000499987500624%float.
Definition long_tail : float := 1.0536712232654815e-08%float.
Definition long_vector : CVector :=
  mkCVector (S long_count) (long_head :: replicate long_count long_tail) 0.

(** Its magnitude, as [cvector_magnitude] computes it. *)
Definition long_magnitude : float := PrimFloat.sqrt (float_of 4504050017333232 (-52)).
Definition vector_5_6 : CVector := mkCVector 2 [5%float; 6%float] 0.

Definition identity_2x2 : CMatrix :=
  mkCMatrix 2 2 [1%float; 0%float; 0%float; 1%float].
Definition matrix_1234 : CMatrix :=
  mkCMatrix 2 2 [1%float; 2%float; 3%float; 4%float].
Definition wide_1x2 : CMatrix := mkCMatrix 1 2 [1%float; 2%float].

(** A matrix whose Gram matrix overflows: its diagonal is [+inf, +inf]. *)
Definition overflow_2x2 : CMatrix :=
  mkCMatrix 2 2 [1e200%float; 0%float; 0%float; 1e200%float].

(** The factorization and the vectors of the rank-growth tests. *)
Definition U0 : CMatrix := mkCMatrix 3 1 [1%float; 0%float; 0%float].
Definition S0 : CVector := mkCVector 1 [1%float] 0.
Definition c_orthogonal : CVector := mkCVector 3 [0%float; 1%float; 0%float] 1.
Definition c_in_span : CVector := mkCVector 3 [2%float; 0%float; 0%float] 1.
Definition S_too_long : CVector := mkCVector 2 [1%float; 2%float] 0.
Definition c_short : CVector := mkCVector 2 [0%float; 1%float] 1.
Definition c_long : CVector := mkCVector 4 [0%float; 1%float; 0%float; 0%float] 1.

(** A factorization of rank 0: three rows, no column. *)
Definition U_empty : CMatrix := cmatrix_alloc 3 0.
Definition S_empty : CVector := cvector_alloc 0.

(** Stands for a libm function in the examples in which no rotation takes
    place (the vector is in the span, or the Gram matrix has size 1), so that
    libm is never called. *)
Definition no_libm : float -> float := fun _ => nan.

(** * Properties *)

(** ** Worked examples *)

Example cmatrix_extend_column_example :
  cmatrix_extend_column matrix_1234 vector_5_6
  = Ok (mkCMatrix 2 3 [1%float; 2%float; 5%float; 3%float; 4%float; 6%float]).
Proof. vm_compute. reflexivity. Qed.

Example batch_project_identity :
  rb_cmatrix_batch_project identity_2x2 [vector_3_4; vector_5_6]
  = Ok [mkCVector 2 [3%float; 4%float] 0; mkCVector 2 [5%float; 6%float] 0].
Proof. vm_compute. reflexivity. Qed.

Example cvector_dot_sizes_3_4 :
  cvector_dot (cvector_alloc 3) (cvector_alloc 4) = Raise rb_eArgError.
Proof. reflexivity. Qed.

Example transpose_transpose_example :
  cmatrix_transpose (cmatrix_transpose wide_1x2) = wide_1x2.
Proof. vm_compute. reflexivity. Qed.

Example jacobi_svd_wide_example :
  jacobi_svd no_libm no_libm no_libm wide_1x2
  = Ok (mkCMatrix 2 1 [(1 / PrimFloat.sqrt 5)%float; (2 / PrimFloat.sqrt 5)%float],
        mkCMatrix 1 1 [1%float],
        mkCVector 1 [PrimFloat.sqrt 5] 0).
Proof. vm_compute. reflexivity. Qed.

Example incremental_update_rank_0 :
  incremental_update no_libm no_libm no_libm U_empty S_empty c_orthogonal 5 1e-6
  = Ok (mkCMatrix 3 1 [0%float; 1%float; 0%float], mkCVector 1 [1%float] 0).
Proof. vm_compute. reflexivity. Qed.

(** [incremental_update] on sizes that do not match: a [c] of 2 elements for
    a [U] of 3 rows is read past its end, a [c] of 4 elements is refused by
    [cvector_subtract], and with an [S] of 2 elements for a [U] of 1 column
    a new direction makes the K matrix read past the end of [m_vec]. *)
Example incremental_update_short_c :
  incremental_update no_libm no_libm no_libm U0 S0 c_short 5 1e-6 = Undefined.
Proof. vm_compute. reflexivity. Qed.

Example incremental_update_long_c :
  incremental_update no_libm no_libm no_libm U0 S0 c_long 5 1e-6
  = Raise rb_eArgError.
Proof. vm_compute. reflexivity. Qed.

Example incremental_update_long_S :
  incremental_update no_libm no_libm no_libm U0 S_too_long c_orthogonal 5 1e-6
  = Undefined.
Proof. vm_compute. reflexivity. Qed.

(** ** Loops *)

Section Loops.

Context {St : Type}.
Implicit Types (body : nat -> St -> St) (s : St).

Lemma for_count_S n lo body s :
  for_count (S n) lo body s = for_count n (S lo) body (body lo s).
Proof. reflexivity. Qed.

(** A loop invariant that may mention the loop counter. *)
Lemma for_count_ind (P : nat -> St -> Prop) n lo body s :
  P lo s ->
  (forall i t, lo <= i < lo + n -> P i t -> P (S i) (body i t)) ->
  P (lo + n) (for_count n lo body s).
Proof.
  revert lo s. induction n as [|n IH]; intros lo s H0 Hstep; simpl.
  - replace (lo + 0) with lo by lia. exact H0.
  - replace (lo + S n) with (S lo + n) by lia. apply IH.
    + apply Hstep; [lia | exact H0].
    + intros i t Hi. apply Hstep. lia.
Qed.

(** A loop invariant that does not. *)
Lemma for_count_inv (P : St -> Prop) n lo body s :
  P s -> (forall i t, P t -> P (body i t)) -> P (for_count n lo body s).
Proof.
  intros H0 Hstep.
  apply (for_count_ind (fun _ => P) n lo body s H0). intros i t _. apply Hstep.
Qed.

Lemma for_range_inv (P : St -> Prop) lo hi body s :
  P s -> (forall i t, P t -> P (body i t)) -> P (for_range lo hi body s).
Proof. apply for_count_inv. Qed.

(** Two bodies that agree on the range of the counter give the same loop. *)
Lemma for_count_ext n lo body body' s :
  (forall i t, lo <= i < lo + n -> body i t = body' i t) ->
  for_count n lo body s = for_count n lo body' s.
Proof.
  revert lo s. induction n as [|n IH]; intros lo s Hext; simpl; [reflexivity|].
  rewrite Hext by lia. apply IH. intros i t Hi. apply Hext. lia.
Qed.

End Loops.

(** A loop on a structure that only touches one field is a loop on the field. *)
Lemma for_count_proj {A B : Type} (f : A -> B) (body : nat -> A -> A)
    (body' : nat -> B -> B) n lo (a : A) :
  (forall i t, f (body i t) = body' i (f t)) ->
  f (for_count n lo body a) = for_count n lo body' (f a).
Proof.
  intros Hf. revert lo a. induction n as [|n IH]; intros lo a; simpl; [reflexivity|].
  rewrite IH, Hf. reflexivity.
Qed.

(** ** Arrays *)

Lemma rd_lookup (a : list float) i x : a !! i = Some x -> rd a i = x.
Proof. unfold rd. intros ->. reflexivity. Qed.

Lemma rd_insert_eq (a : list float) i x : i < length a -> rd (<[i := x]> a) i = x.
Proof. intros H. apply rd_lookup, list_lookup_insert_eq, H. Qed.

Lemma rd_insert_ne (a : list float) i j x : i <> j -> rd (<[i := x]> a) j = rd a j.
Proof. intros H. unfold rd. rewrite list_lookup_insert_ne by exact H. reflexivity. Qed.

Lemma rd_map_seq (f : nat -> float) n i :
  i < n -> rd (map f (seq 0 n)) i = f i.
Proof.
  intros Hi. apply rd_lookup.
  rewrite list_lookup_fmap, lookup_seq_lt by exact Hi. reflexivity.
Qed.

(** The loop [for (i = lo; i < lo + n; i++) a[off + i] = f(i)], in closed form. *)
Lemma store_loop (f : nat -> float) off n lo (a : list float) :
  off + lo + n <= length a ->
  for_count n lo (fun i d => <[off + i := f i]> d) a
  = take (off + lo) a ++ map f (seq lo n) ++ drop (off + lo + n) a.
Proof.
  revert lo a. induction n as [|n IH]; intros lo a Hlen; simpl.
  - replace (off + lo + 0) with (off + lo) by lia. symmetry. apply take_drop.
  - rewrite IH by (rewrite length_insert; lia).
    replace (off + S lo) with (S (off + lo)) by lia.
    rewrite (take_S_r _ _ (f lo)) by (apply list_lookup_insert_eq; lia).
    rewrite take_insert_ge by lia.
    rewrite drop_insert_lt by lia.
    replace (S (off + lo) + n) with (off + lo + S n) by lia.
    rewrite <- app_assoc. reflexivity.
Qed.

Lemma map_rd_seq (a : list float) off n :
  off + n <= length a ->
  map (fun i => rd a (off + i)) (seq 0 n) = take n (drop off a).
Proof.
  intros Hlen. apply list_eq. intros i.
  destruct (decide (i < n)) as [Hi|Hi].
  - rewrite list_lookup_fmap, lookup_seq_lt by exact Hi. simpl.
    rewrite lookup_take_lt, lookup_drop by exact Hi.
    destruct (lookup_lt_is_Some_2 a (off + i)) as [x Hx]; [lia|].
    rewrite Hx. f_equal. apply rd_lookup, Hx.
  - rewrite lookup_take_ge by lia. apply lookup_ge_None_2.
    rewrite length_map, length_seq. lia.
Qed.

Lemma memcpy_length dst doff src soff n :
  length (memcpy dst doff src soff n) = length dst.
Proof.
  unfold memcpy, for_range.
  apply (for_count_inv (fun d => length d = length dst)); [reflexivity|].
  intros i t Ht. rewrite length_insert. exact Ht.
Qed.

(** [memcpy] within the bounds of both arrays. *)
Lemma memcpy_spec dst doff src soff n :
  doff + n <= length dst -> soff + n <= length src ->
  memcpy dst doff src soff n
  = take doff dst ++ take n (drop soff src) ++ drop (doff + n) dst.
Proof.
  intros Hd Hs. unfold memcpy, for_range.
  rewrite Nat.sub_0_r.
  rewrite (store_loop (fun i => rd src (soff + i)) doff n 0 dst) by lia.
  rewrite map_rd_seq by exact Hs.
  replace (doff + 0) with doff by lia. reflexivity.
Qed.

(** Copying a whole array over a fresh one of the same size gives the array. *)
Lemma memcpy_whole dst src :
  length dst = length src -> memcpy dst 0 src 0 (length src) = src.
Proof.
  intros Hlen. rewrite memcpy_spec by lia.
  rewrite drop_0, firstn_all. simpl.
  rewrite drop_ge by lia. apply app_nil_r.
Qed.

(** ** Binary64 comparisons and square root *)

Lemma SFcompare_swap (x y : spec_float) :
  SFcompare y x = option_map CompOpp (SFcompare x y).
Proof.
  destruct x as [sx|sx| |sx mx ex], y as [sy|sy| |sy my ey];
    try destruct sx; try destruct sy; try reflexivity; simpl;
    rewrite (Z.compare_antisym ey ex);
    destruct (ey ?= ex)%Z; simpl; try reflexivity;
    replace (Pos.compare_cont Eq mx my) with (CompOpp (Pos.compare_cont Eq my mx))
      by apply (Pos.compare_cont_antisym my mx Eq);
    destruct (Pos.compare_cont Eq my mx); reflexivity.
Qed.

(** [x <= y] excludes [y < x]; both fail when an operand is NaN. *)
Lemma leb_ltb_false (x y : float) :
  (x <=? y)%float = true -> (y <? x)%float = false.
Proof.
  rewrite leb_spec, ltb_spec. unfold SFleb, SFltb.
  rewrite (SFcompare_swap (Prim2SF x) (Prim2SF y)).
  destruct (SFcompare (Prim2SF x) (Prim2SF y)) as [[]|]; simpl; congruence.
Qed.

Lemma ltb_leb_false (x y : float) :
  (x <? y)%float = true -> (y <=? x)%float = false.
Proof.
  rewrite leb_spec, ltb_spec. unfold SFleb, SFltb.
  rewrite (SFcompare_swap (Prim2SF x) (Prim2SF y)).
  destruct (SFcompare (Prim2SF x) (Prim2SF y)) as [[]|]; simpl; congruence.
Qed.

Lemma shr_1_nonneg (mrs : shr_record) :
  (0 <= shr_m mrs)%Z -> (0 <= shr_m (shr_1 mrs))%Z.
Proof.
  destruct mrs as [m r s]. destruct m as [|p|p]; simpl; try lia;
    destruct p; simpl; lia.
Qed.

Lemma iter_pos_inv {A : Type} (P : A -> Prop) (f : A -> A) :
  (forall x, P x -> P (f x)) -> forall n x, P x -> P (SpecFloat.iter_pos f n x).
Proof.
  intros Hf. induction n as [n IH|n IH|]; intros x Hx; simpl; auto.
Qed.

Lemma shr_fexp_nonneg (m e : Z) (l : location) :
  (0 <= m)%Z -> (0 <= shr_m (fst (shr_fexp prec emax m e l)))%Z.
Proof.
  intros Hm. unfold shr_fexp, shr.
  assert (H0 : (0 <= shr_m (shr_record_of_loc m l))%Z)
    by (destruct l as [|[]]; exact Hm).
  destruct (fexp prec emax (Zdigits2 m + e) - e)%Z; simpl; try exact H0.
  apply (iter_pos_inv (fun r => (0 <= shr_m r)%Z)); [apply shr_1_nonneg | exact H0].
Qed.

Lemma round_nearest_even_nonneg (m : Z) (l : location) :
  (0 <= m)%Z -> (0 <= round_nearest_even m l)%Z.
Proof.
  intros Hm. destruct l as [|[]]; simpl; try lia. destruct (Z.even m); lia.
Qed.

(** Rounding a non-negative mantissa with a positive sign gives a
    non-negative number (never a NaN). *)
Lemma binary_round_aux_nonneg (m e : Z) (l : location) :
  (0 <= m)%Z ->
  SFleb (S754_zero false) (binary_round_aux prec emax false m e l) = true.
Proof.
  intros Hm. unfold binary_round_aux.
  pose proof (shr_fexp_nonneg m e l Hm) as H1.
  destruct (shr_fexp prec emax m e l) as [mrs' e']. simpl in H1.
  pose proof (shr_fexp_nonneg _ e' loc_Exact
                (round_nearest_even_nonneg _ (loc_of_shr_record mrs') H1)) as H2.
  destruct (shr_fexp prec emax _ e' loc_Exact) as [mrs'' e'']. simpl in H2.
  destruct (shr_m mrs'') as [|p|p]; [reflexivity| |lia].
  destruct (e'' <=? emax - prec)%Z; reflexivity.
Qed.

(** The square root of a positive binary64 number is non-negative. *)
Lemma sqrt_nonneg (x : float) :
  (0 <? x)%float = true -> (0 <=? PrimFloat.sqrt x)%float = true.
Proof.
  rewrite ltb_spec, leb_spec, sqrt_spec.
  change (Prim2SF 0) with (S754_zero false).
  unfold SF64sqrt, SFsqrt.
  destruct (Prim2SF x) as [s|s| |s m e]; try destruct s; try discriminate;
    intros _; try reflexivity.
  unfold SFsqrt_core_binary.
  match goal with |- context [Z.sqrtrem ?a] =>
    pose proof (Z.sqrt_nonneg a) as Hq; rewrite <- Z.sqrtrem_sqrt in Hq;
    destruct (Z.sqrtrem a) as [q r] end.
  simpl in Hq. apply binary_round_aux_nonneg, Hq.
Qed.

Lemma zero_nonneg : (0 <=? 0)%float = true.
Proof. reflexivity. Qed.

Lemma SFcompare_None (x y : spec_float) :
  SFcompare x y = None -> x = S754_nan \/ y = S754_nan.
Proof.
  destruct x as [sx|sx| |sx mx ex], y as [sy|sy| |sy my ey]; simpl;
    try discriminate; auto.
Qed.

Lemma SFeqb_refl_false (x : spec_float) : SFeqb x x = false <-> x = S754_nan.
Proof.
  split.
  - destruct x as [sx|sx| |sx mx ex]; unfold SFeqb; simpl; try discriminate;
      try reflexivity.
    + destruct sx; discriminate.
    + rewrite Z.compare_refl, Pos.compare_cont_refl. destruct sx; discriminate.
  - intros ->. reflexivity.
Qed.

(** The test [|d| < 1e-10] fails exactly when [|d| >= 1e-10] or [d] is a NaN
    ([d == d] is false for a NaN only). *)
Lemma abs_below_iff (d : float) :
  (abs d <? CLASSIFIER_EPSILON)%float = false <->
  (CLASSIFIER_EPSILON <=? abs d)%float = true \/ (d =? d)%float = false.
Proof.
  rewrite ltb_spec, leb_spec, FloatAxioms.eqb_spec, abs_spec, SFeqb_refl_false.
  assert (HE : Prim2SF CLASSIFIER_EPSILON <> S754_nan)
    by (vm_compute; discriminate).
  unfold SFltb, SFleb.
  rewrite (SFcompare_swap (SFabs (Prim2SF d)) (Prim2SF CLASSIFIER_EPSILON)).
  destruct (SFcompare (SFabs (Prim2SF d)) (Prim2SF CLASSIFIER_EPSILON))
    as [[]|] eqn:Hc; simpl.
  - split; auto.
  - split; [discriminate|]. intros [H|H]; [discriminate|].
    rewrite H in Hc. discriminate Hc.
  - split; auto.
  - split; [|reflexivity]. intros _. right.
    destruct (SFcompare_None _ _ Hc) as [H|H]; [|contradiction].
    destruct (Prim2SF d); simpl in H; try discriminate. reflexivity.
Qed.

Lemma sub_self_zero_or_nan (x : float) : zero_or_nan (x - x)%float.
Proof.
  unfold zero_or_nan. rewrite sub_spec. unfold SF64sub, SFsub.
  destruct (Prim2SF x) as [sx|sx| |sx mx ex]; try (destruct sx; auto; fail); auto.
  left. rewrite Z.min_id. unfold shl_align. rewrite !Z.sub_diag. reflexivity.
Qed.

(** One step of the sum of squares on such elements. *)
Lemma add_square_zero_or_nan (a b : float) :
  zero_or_nan a -> zero_or_nan b -> zero_or_nan (a + b * b)%float.
Proof.
  unfold zero_or_nan. rewrite add_spec, mul_spec. unfold SF64add, SF64mul.
  intros [-> | ->] [-> | ->]; simpl; auto.
Qed.

Lemma sqrt_zero_or_nan (a : float) : zero_or_nan a -> zero_or_nan (PrimFloat.sqrt a).
Proof.
  unfold zero_or_nan. rewrite sqrt_spec. unfold SF64sqrt.
  intros [-> | ->]; simpl; auto.
Qed.

(** Neither [+0] nor a NaN is above a non-negative threshold. *)
Lemma zero_or_nan_not_above (epsilon x : float) :
  zero_or_nan x -> (0 <=? epsilon)%float = true -> (epsilon <? x)%float = false.
Proof.
  intros [Hx | Hx] Heps.
  - assert (x = 0%float) as -> by (apply Prim2SF_inj; rewrite Hx; reflexivity).
    apply leb_ltb_false, Heps.
  - rewrite ltb_spec, Hx. unfold SFltb.
    destruct (Prim2SF epsilon); reflexivity.
Qed.

(** ** Shapes *)

Lemma dims_eq (m m' : CMatrix) :
  dims m' = dims m -> m_rows m' = m_rows m /\ m_cols m' = m_cols m.
Proof. unfold dims. intros H. injection H. auto. Qed.

Lemma dims_MAT_SET m i j x : dims (MAT_SET m i j x) = dims m.
Proof. reflexivity. Qed.

Lemma dims_mat_memcpy m doff src soff n : dims (mat_memcpy m doff src soff n) = dims m.
Proof. reflexivity. Qed.

Lemma dims_loop n lo (body : nat -> CMatrix -> CMatrix) (m : CMatrix) :
  (forall i t, dims (body i t) = dims t) ->
  dims (for_count n lo body m) = dims m.
Proof.
  intros Hb. apply (for_count_inv (fun t => dims t = dims m)); [reflexivity|].
  intros i t Ht. rewrite Hb. exact Ht.
Qed.

Lemma dims_cmatrix_alloc rows cols : dims (cmatrix_alloc rows cols) = (rows, cols).
Proof. reflexivity. Qed.

Lemma dims_cmatrix_transpose m : dims (cmatrix_transpose m) = (m_cols m, m_rows m).
Proof.
  unfold cmatrix_transpose, for_range. rewrite dims_loop; [reflexivity|].
  intros i t. apply dims_loop. intros j t'. apply dims_MAT_SET.
Qed.

Lemma dims_cmatrix_clone m : dims (cmatrix_clone m) = dims m.
Proof. reflexivity. Qed.

Lemma dims_cmatrix_identity n : dims (cmatrix_identity n) = (n, n).
Proof.
  unfold cmatrix_identity, for_range. rewrite dims_loop; [reflexivity|].
  intros i t. apply dims_MAT_SET.
Qed.

Lemma dims_inverse_diagonal s size : dims (inverse_diagonal s size) = (size, size).
Proof.
  unfold inverse_diagonal, for_range. rewrite dims_loop; [reflexivity|].
  intros i t. apply dims_MAT_SET.
Qed.

(** [cmatrix_multiply] raises exactly on an inner-dimension mismatch, and
    otherwise returns a matrix of the outer dimensions. *)
Lemma cmatrix_multiply_ok a b :
  m_cols a = m_rows b ->
  exists r, cmatrix_multiply a b = Ok r /\ dims r = (m_rows a, m_cols b).
Proof.
  intros H. unfold cmatrix_multiply.
  rewrite (proj2 (Nat.eqb_eq _ _) H). simpl. eexists. split; [reflexivity|].
  unfold for_range. rewrite dims_loop; [reflexivity|].
  intros i t. apply dims_loop. intros j t'. apply dims_MAT_SET.
Qed.

Lemma cmatrix_multiply_raise a b :
  m_cols a <> m_rows b -> cmatrix_multiply a b = Raise rb_eArgError.
Proof.
  intros H. unfold cmatrix_multiply.
  rewrite (proj2 (Nat.eqb_neq _ _) H). reflexivity.
Qed.

(** Loops over a vector that only store elements keep its size and tag. *)
Lemma vec_loop_size n lo (body : nat -> CVector -> CVector) (v : CVector) :
  (forall i t, v_size (body i t) = v_size t) ->
  v_size (for_count n lo body v) = v_size v.
Proof.
  intros Hb. apply (for_count_inv (fun t => v_size t = v_size v)); [reflexivity|].
  intros i t Ht. rewrite Hb. exact Ht.
Qed.

Lemma vec_loop_is_col n lo (body : nat -> CVector -> CVector) (v : CVector) :
  (forall i t, v_is_col (body i t) = v_is_col t) ->
  v_is_col (for_count n lo body v) = v_is_col v.
Proof.
  intros Hb. apply (for_count_inv (fun t => v_is_col t = v_is_col v)); [reflexivity|].
  intros i t Ht. rewrite Hb. exact Ht.
Qed.

(** The loop [for (i = 0; i < n; i++) v->data[i] = f(i)] on a fresh vector. *)
Lemma vec_fill (f : nat -> float) (n : nat) (c : Z) :
  for_range 0 n (fun i v => vec_set v i (f i)) (mkCVector n (replicate n 0%float) c)
  = mkCVector n (map f (seq 0 n)) c.
Proof.
  unfold for_range. rewrite Nat.sub_0_r.
  set (v0 := mkCVector n _ c).
  assert (Hs : v_size (for_count n 0 (fun i v => vec_set v i (f i)) v0) = n)
    by (rewrite vec_loop_size; reflexivity).
  assert (Hc : v_is_col (for_count n 0 (fun i v => vec_set v i (f i)) v0) = c)
    by (rewrite vec_loop_is_col; reflexivity).
  assert (Hd : v_data (for_count n 0 (fun i v => vec_set v i (f i)) v0)
               = map f (seq 0 n)).
  { rewrite (for_count_proj v_data _ (fun i d => <[0 + i := f i]> d))
      by reflexivity.
    rewrite store_loop by (simpl; rewrite length_replicate; lia).
    simpl. rewrite drop_ge by (rewrite length_replicate; lia).
    apply app_nil_r. }
  destruct (for_count n 0 _ v0) as [sz d cl]. simpl in *. congruence.
Qed.

(** ** Rounding error of the binary64 operations *)

Section RoundingError.

Local Open Scope R_scope.

Lemma pow2_pos e : 0 < pow2 e.
Proof. apply powerRZ_lt. lra. Qed.

Lemma pow2_add a b : pow2 (a + b) = pow2 a * pow2 b.
Proof. apply powerRZ_add. lra. Qed.

Lemma pow2_succ e : pow2 (e + 1) = 2 * pow2 e.
Proof. rewrite pow2_add. unfold pow2 at 2. rewrite powerRZ_1. lra. Qed.

Lemma pow2_0 : pow2 0 = 1.
Proof. reflexivity. Qed.

Lemma pow2_IZR k : (0 <= k)%Z -> IZR (2 ^ k) = pow2 k.
Proof.
  intros Hk. destruct k as [|p|p]; [reflexivity| |lia].
  unfold pow2. rewrite <- Zpower_pos_powerRZ. reflexivity.
Qed.

Lemma pow2_ge_1 k : (0 <= k)%Z -> 1 <= pow2 k.
Proof.
  intros Hk. rewrite <- pow2_IZR by exact Hk. apply IZR_le.
  pose proof (Z.pow_pos_nonneg 2 k). lia.
Qed.

Lemma pow2_le a b : (a <= b)%Z -> pow2 a <= pow2 b.
Proof.
  intros H. replace b with (a + (b - a))%Z by lia. rewrite pow2_add.
  pose proof (pow2_pos a). pose proof (pow2_ge_1 (b - a) ltac:(lia)). nra.
Qed.

Lemma pow2_lt a b : (a < b)%Z -> pow2 a < pow2 b.
Proof.
  intros H. replace b with ((a + 1) + (b - a - 1))%Z by lia.
  rewrite pow2_add, pow2_succ.
  pose proof (pow2_pos a). pose proof (pow2_ge_1 (b - a - 1) ltac:(lia)). nra.
Qed.

Lemma pow2_opp e : pow2 (- e) = / pow2 e.
Proof. apply powerRZ_neg'. Qed.

(** ** Digits *)

Lemma digits2_pos_bounds (m : positive) :
  (2 ^ (Zpos (digits2_pos m) - 1) <= Zpos m < 2 ^ Zpos (digits2_pos m))%Z.
Proof.
  induction m as [p IH|p IH|]; simpl digits2_pos.
  - rewrite Pos2Z.inj_succ.
    replace (Z.succ (Z.pos (digits2_pos p)) - 1)%Z
      with (Z.succ (Z.pos (digits2_pos p) - 1))%Z by lia.
    rewrite !Z.pow_succ_r by lia. lia.
  - rewrite Pos2Z.inj_succ.
    replace (Z.succ (Z.pos (digits2_pos p)) - 1)%Z
      with (Z.succ (Z.pos (digits2_pos p) - 1))%Z by lia.
    rewrite !Z.pow_succ_r by lia. lia.
  - simpl. lia.
Qed.

Lemma Zdigits2_nonneg m : (0 <= Zdigits2 m)%Z.
Proof. destruct m; simpl; lia. Qed.

Lemma Zdigits2_upper m : (0 <= m)%Z -> (m < 2 ^ Zdigits2 m)%Z.
Proof.
  intros Hm. destruct m as [|p|p]; [simpl; lia| |lia].
  apply digits2_pos_bounds.
Qed.

Lemma Zdigits2_lower m : (0 < m)%Z -> (2 ^ (Zdigits2 m - 1) <= m)%Z.
Proof.
  intros Hm. destruct m as [|p|p]; [lia| |lia].
  apply digits2_pos_bounds.
Qed.

Lemma Zdigits2_ge m k : (0 <= k)%Z -> (2 ^ k <= m)%Z -> (k + 1 <= Zdigits2 m)%Z.
Proof.
  intros Hk Hm.
  assert (0 < m)%Z by (pose proof (Z.pow_pos_nonneg 2 k); lia).
  pose proof (Zdigits2_upper m ltac:(lia)) as Hu.
  pose proof (Zdigits2_nonneg m).
  assert (2 ^ k < 2 ^ Zdigits2 m)%Z as Hlt by lia.
  apply Z.pow_lt_mono_r_iff in Hlt; lia.
Qed.

Lemma Zdigits2_le m k : (0 <= m)%Z -> (0 <= k)%Z -> (m < 2 ^ k)%Z -> (Zdigits2 m <= k)%Z.
Proof.
  intros Hm Hk Hlt. destruct (Z.eq_dec m 0%Z) as [->|Hne]; [simpl; lia|].
  pose proof (Zdigits2_lower m ltac:(lia)) as Hl.
  pose proof (Zdigits2_nonneg m).
  destruct (Z.le_gt_cases (Zdigits2 m) k) as [H'|H']; [exact H'|].
  assert (2 ^ k <= 2 ^ (Zdigits2 m - 1))%Z by (apply Z.pow_le_mono_r; lia).
  lia.
Qed.

(** ** Shifting right *)

Lemma shr_1_spec (mrs : shr_record) (x : R) (e : Z) :
  (0 <= shr_m mrs)%Z ->
  located x (shr_m mrs) e (loc_of_shr_record mrs) ->
  located x (shr_m (shr_1 mrs)) (e + 1) (loc_of_shr_record (shr_1 mrs)) /\
  shr_m (shr_1 mrs) = (shr_m mrs / 2)%Z.
Proof.
  destruct mrs as [m r s]. simpl shr_m. intros Hm Hloc.
  pose proof (pow2_pos e) as HP.
  assert (HS := pow2_succ e).
  destruct m as [|p|p]; [| |lia].
  - (* m = 0 *)
    split; [|reflexivity].
    destruct r, s; simpl in *; rewrite ?HS; lra.
  - destruct p as [p|p|].
    + (* 2p+1 *)
      split.
      * assert (Hp : IZR (Z.pos p~1) = 2 * IZR (Z.pos p) + 1)
          by (rewrite Pos2Z.inj_xI, plus_IZR, mult_IZR; reflexivity).
        destruct r, s; simpl in *; rewrite ?HS; rewrite Hp in Hloc; nra.
      * simpl. rewrite Pos2Z.inj_xI.
        apply (Z.div_unique _ _ _ 1); lia.
    + split.
      * assert (Hp : IZR (Z.pos p~0) = 2 * IZR (Z.pos p))
          by (rewrite Pos2Z.inj_xO, mult_IZR; reflexivity).
        destruct r, s; simpl in *; rewrite ?HS; rewrite Hp in Hloc; nra.
      * simpl. rewrite Pos2Z.inj_xO.
        apply (Z.div_unique _ _ _ 0); lia.
    + split; [|reflexivity].
      destruct r, s; simpl in *; rewrite ?HS; nra.
Qed.


Lemma iter_pos_count {A : Type} (P : Z -> A -> Prop) (f : A -> A) :
  (forall k x, (0 <= k)%Z -> P k x -> P (k + 1)%Z (f x)) ->
  forall n k x, (0 <= k)%Z -> P k x -> P (k + Zpos n)%Z (SpecFloat.iter_pos f n x).
Proof.
  intros Hf. induction n as [n IH|n IH|]; intros k x Hk Hx; simpl.
  - replace (k + Z.pos n~1)%Z with (k + 1 + Z.pos n + Z.pos n)%Z by lia.
    apply IH; [lia|]. apply IH; [lia|]. apply Hf; assumption.
  - replace (k + Z.pos n~0)%Z with (k + Z.pos n + Z.pos n)%Z by lia.
    apply IH; [lia|]. apply IH; assumption.
  - apply Hf; assumption.
Qed.

Lemma loc_of_shr_record_of_loc m l :
  loc_of_shr_record (shr_record_of_loc m l) = l /\
  shr_m (shr_record_of_loc m l) = m.
Proof. destruct l as [|[]]; split; reflexivity. Qed.

Lemma located_lower x m e l : (0 <= m)%Z -> located x m e l -> IZR m * pow2 e <= x.
Proof.
  intros Hm H. pose proof (pow2_pos e). destruct l as [|[]]; simpl in H; nra.
Qed.

Lemma shr_spec (m e n : Z) (l : location) (x : R) :
  (0 <= m)%Z -> (0 <= n)%Z -> located x m e l ->
  let '(mrs, e') := shr (shr_record_of_loc m l) e n in
  e' = (e + n)%Z /\
  shr_m mrs = (m / 2 ^ n)%Z /\
  located x (shr_m mrs) e' (loc_of_shr_record mrs).
Proof.
  intros Hm Hn Hloc.
  destruct (loc_of_shr_record_of_loc m l) as [Hl Hmm].
  destruct n as [|p|p]; [| |lia]; unfold shr.
  - rewrite Hl, Hmm, Z.add_0_r, Z.div_1_r. auto.
  - split; [reflexivity|].
    pose (P := fun (k : Z) (r : shr_record) =>
                 shr_m r = (m / 2 ^ k)%Z /\
                 located x (shr_m r) (e + k) (loc_of_shr_record r)).
    assert (HP : P (0 + Z.pos p)%Z (SpecFloat.iter_pos shr_1 p (shr_record_of_loc m l))).
    { apply (iter_pos_count P).
      - intros k r Hk [Hr1 Hr2].
        assert (H0 : (0 <= shr_m r)%Z)
          by (rewrite Hr1; apply Z.div_pos; [lia | apply Z.pow_pos_nonneg; lia]).
        destruct (shr_1_spec r x (e + k) H0 Hr2) as [Hs1 Hs2].
        split.
        + rewrite Hs2, Hr1, Z.pow_add_r, Z.pow_1_r by lia.
          apply Z.div_div; [|lia].
          pose proof (Z.pow_pos_nonneg 2 k). lia.
        + rewrite <- Z.add_assoc in Hs1. exact Hs1.
      - lia.
      - split; [rewrite Hmm, Z.div_1_r; reflexivity|].
        rewrite Hl, Hmm, Z.add_0_r. exact Hloc. }
    simpl in HP. exact HP.
Qed.

Lemma fexp_eq k : fexp prec emax k = Z.max (k - 53) (-1074).
Proof. reflexivity. Qed.

(** After the first shift of [binary_round_aux] the mantissa has at most 53
    bits, exactly 53 above the subnormal range, and half a unit in the last
    place is within the error bound. *)
Lemma shr_fexp_spec (m e : Z) (l : location) (x : R) :
  (0 <= m)%Z -> located x m e l ->
  (e <= fexp prec emax (Zdigits2 m + e))%Z ->
  let '(mrs, e1) := shr_fexp prec emax m e l in
  located x (shr_m mrs) e1 (loc_of_shr_record mrs) /\
  (0 <= shr_m mrs < 2 ^ 53)%Z /\
  (-1074 <= e1)%Z /\
  (-1074 < e1 -> 2 ^ 52 <= shr_m mrs)%Z /\
  pow2 e1 / 2 <= pow2 (-53) * x + pow2 (-1075).
Proof.
  intros Hm Hloc Hcan. unfold shr_fexp.
  set (e1 := fexp prec emax (Zdigits2 m + e)) in *.
  pose proof (shr_spec m e (e1 - e) l x Hm ltac:(lia) Hloc) as Hs.
  destruct (shr (shr_record_of_loc m l) e (e1 - e)) as [mrs e1'].
  destruct Hs as (He & Hmrs & Hl).
  replace (e + (e1 - e))%Z with e1 in He by lia. subst e1'.
  pose proof (Zdigits2_nonneg m) as Hd0.
  pose proof (Zdigits2_upper m Hm) as Hup.
  assert (He1 : e1 = Z.max (Zdigits2 m + e - 53) (-1074)) by apply fexp_eq.
  assert (Hpn : (0 < 2 ^ (e1 - e))%Z) by (apply Z.pow_pos_nonneg; lia).
  split; [exact Hl|]. split; [|split; [lia|split]].
  - rewrite Hmrs. split; [apply Z.div_pos; lia|].
    apply Z.div_lt_upper_bound; [lia|].
    rewrite <- Z.pow_add_r by lia.
    assert (2 ^ Zdigits2 m <= 2 ^ (e1 - e + 53))%Z
      by (apply Z.pow_le_mono_r; lia).
    lia.
  - intros Hn. rewrite Hmrs.
    assert (Hd : (Zdigits2 m = e1 - e + 53)%Z) by lia.
    assert (Hmpos : (0 < m)%Z).
    { destruct (Z.eq_dec m 0%Z) as [->|]; [simpl in Hd; lia | lia]. }
    pose proof (Zdigits2_lower m Hmpos) as Hlow.
    apply Z.div_le_lower_bound; [lia|].
    rewrite <- Z.pow_add_r by lia.
    replace (e1 - e + 52)%Z with (Zdigits2 m - 1)%Z by lia. exact Hlow.
  - pose proof (located_lower x m e l Hm Hloc) as Hx.
    pose proof (pow2_pos e) as Hpe.
    assert (Hx0 : 0 <= x).
    { assert (0 <= IZR m) by (apply IZR_le; lia). nra. }
    destruct (Z.eq_dec e1 (-1074)%Z) as [Heq|Hne].
    + rewrite Heq.
      replace (-1074)%Z with (-1075 + 1)%Z by lia. rewrite pow2_succ.
      pose proof (pow2_pos (-53)). simpl. nra.
    + assert (Hd : (Zdigits2 m = e1 - e + 53)%Z) by lia.
      assert (Hmpos : (0 < m)%Z).
      { destruct (Z.eq_dec m 0%Z) as [->|]; [simpl in Hd; lia | lia]. }
      pose proof (Zdigits2_lower m Hmpos) as Hlow.
      apply IZR_le in Hlow. rewrite pow2_IZR in Hlow by lia.
      assert (Hx1 : pow2 (e1 + 52) <= x).
      { replace (e1 + 52)%Z with ((Zdigits2 m - 1) + e)%Z by lia.
        rewrite pow2_add. nra. }
      assert (Hu : pow2 (-53) * pow2 (e1 + 52) = pow2 e1 / 2).
      { rewrite <- pow2_add. replace (-53 + (e1 + 52))%Z with (e1 - 1)%Z by lia.
        replace e1 with ((e1 - 1) + 1)%Z at 2 by lia. rewrite pow2_succ. lra. }
      pose proof (pow2_pos (-53)). pose proof (pow2_pos (-1075)). nra.
Qed.

Lemma round_nearest_even_spec (m e : Z) (l : location) (x : R) :
  (0 <= m)%Z -> located x m e l ->
  (m <= round_nearest_even m l <= m + 1)%Z /\
  Rabs (IZR (round_nearest_even m l) * pow2 e - x) <= pow2 e / 2.
Proof.
  intros Hm Hloc. pose proof (pow2_pos e) as Hp.
  destruct l as [|[]]; simpl in *.
  - split; [lia|]. rewrite Hloc. rewrite Rminus_diag, Rabs_R0. lra.
  - destruct (Z.even m); (split; [lia|]); rewrite ?plus_IZR, Hloc;
      apply Rabs_le; lra.
  - split; [lia|]. apply Rabs_le. lra.
  - split; [lia|]. rewrite plus_IZR. apply Rabs_le. lra.
Qed.


Lemma Rabs_bounds (a b : R) : Rabs a <= b -> - b <= a <= b.
Proof. unfold Rabs. destruct (Rcase_abs a); lra. Qed.

Lemma pow2_m53 : pow2 (-53) = / 9007199254740992.
Proof. unfold pow2. simpl. lra. Qed.

Lemma pow2_m1075_small : pow2 (-1075) <= pow2 (-53).
Proof. apply pow2_le. lia. Qed.

Lemma shr_nonpos r e n : (n <= 0)%Z -> shr r e n = (r, e).
Proof. intros H. destruct n; try reflexivity. lia. Qed.

(** Rounding to nearest of a non-negative real [x] given by a mantissa, an
    exponent and a location: the result is [+inf] only for [x >= 2^1023];
    otherwise it is a finite non-negative number within [2^-53 * x + 2^-1075]
    of [x]. *)
Lemma binary_round_aux_error (m e : Z) (l : location) (x : R) :
  (0 <= m)%Z -> located x m e l ->
  (e <= fexp prec emax (Zdigits2 m + e))%Z ->
  (binary_round_aux prec emax false m e l = S754_infinity false /\
   pow2 1023 <= x) \/
  (SFnonneg (binary_round_aux prec emax false m e l) /\
   Rabs (SF2R (binary_round_aux prec emax false m e l) - x)
   <= pow2 (-53) * x + pow2 (-1075)).
Proof.
  intros Hm Hloc Hcan. unfold binary_round_aux.
  pose proof (shr_fexp_spec m e l x Hm Hloc Hcan) as H1.
  destruct (shr_fexp prec emax m e l) as [mrs1 e1].
  destruct H1 as (Hl1 & Hm1 & He1 & Hnorm & Hq).
  destruct (round_nearest_even_spec (shr_m mrs1) e1 (loc_of_shr_record mrs1) x
              ltac:(lia) Hl1) as [Hm2 Herr].
  set (m2 := round_nearest_even (shr_m mrs1) (loc_of_shr_record mrs1)) in *.
  assert (Hbound : Rabs (IZR m2 * pow2 e1 - x) <= pow2 (-53) * x + pow2 (-1075))
    by lra.
  pose proof (pow2_pos e1) as Hpe1.
  pose proof pow2_m53 as Hu. pose proof pow2_m1075_small as Heta.
  pose proof (pow2_pos (-1075)) as Heta0.
  pose proof (pow2_ge_1 1023 ltac:(lia)) as Hbig.
  assert (Hover : forall v e3, (971 < e3)%Z -> pow2 52 * pow2 e3 <= v ->
                    Rabs (v - x) <= pow2 (-53) * x + pow2 (-1075) ->
                    pow2 1023 <= x).
  { intros v e3 He3 Hv Hvx.
    assert (pow2 1024 <= v).
    { rewrite <- pow2_add in Hv.
      pose proof (pow2_le 1024 (52 + e3) ltac:(lia)). lra. }
    replace 1024%Z with (1023 + 1)%Z in H by lia. rewrite pow2_succ in H.
    apply Rabs_bounds in Hvx. rewrite Hu in Hvx, Heta. lra. }
  unfold shr_fexp.
  destruct (Z_lt_ge_dec m2 (2 ^ 53)) as [Hlt|Hge].
  - (* no second shift *)
    assert (Hd2 : (Zdigits2 m2 <= 53)%Z) by (apply Zdigits2_le; lia).
    rewrite shr_nonpos by (rewrite fexp_eq; lia). simpl shr_m.
    destruct m2 as [|p|p] eqn:Em2; [| |lia].
    + right. split; [exact I|]. simpl SF2R. simpl in Hbound.
      rewrite Rmult_0_l in Hbound. exact Hbound.
    + destruct (e1 <=? emax - prec)%Z eqn:Hle.
      * right. split; [exact I|]. exact Hbound.
      * left. split; [reflexivity|].
        apply Z.leb_gt in Hle. change (emax - prec)%Z with 971%Z in Hle.
        apply (Hover (IZR (Z.pos p) * pow2 e1) e1 Hle); [|exact Hbound].
        assert (2 ^ 52 <= Z.pos p)%Z by lia.
        apply IZR_le in H. rewrite pow2_IZR in H by lia. nra.
  - (* the mantissa was rounded up to 2^53 *)
    assert (Em2 : m2 = (2 ^ 53)%Z) by lia.
    rewrite Em2 in *.
    replace (fexp prec emax (Zdigits2 (2 ^ 53) + e1) - e1)%Z with 1%Z
      by (rewrite fexp_eq; change (Zdigits2 (2 ^ 53)) with 54%Z; lia).
    change (shr (shr_record_of_loc (2 ^ 53) loc_Exact) e1 1)
      with ({| shr_m := 2 ^ 52; shr_r := false; shr_s := false |}, (e1 + 1)%Z).
    cbn [shr_m]. change (2 ^ 52)%Z with 4503599627370496%Z. cbv iota.
    assert (Hval : IZR 4503599627370496 * pow2 (e1 + 1) = IZR (2 ^ 53) * pow2 e1).
    { rewrite pow2_succ. change (2 ^ 53)%Z with 9007199254740992%Z. lra. }
    destruct (e1 + 1 <=? emax - prec)%Z eqn:Hle.
    + right. split; [exact I|]. simpl SF2R. rewrite Hval. exact Hbound.
    + left. split; [reflexivity|].
      apply Z.leb_gt in Hle. change (emax - prec)%Z with 971%Z in Hle.
      apply (Hover (IZR (2 ^ 53) * pow2 e1) (e1 + 1)%Z Hle); [|exact Hbound].
      rewrite <- Hval. rewrite <- (pow2_IZR 52) by lia.
      change (2 ^ 52)%Z with 4503599627370496%Z. lra.
Qed.


Lemma binary_round_aux_rounds (m e : Z) (l : location) (x : R) :
  (0 <= m)%Z -> located x m e l ->
  (e <= fexp prec emax (Zdigits2 m + e))%Z ->
  rounds_to (binary_round_aux prec emax false m e l) x.
Proof. apply binary_round_aux_error. Qed.

Lemma binary_round_aux_sign (m e : Z) (l : location) :
  binary_round_aux prec emax true m e l
  = SFopp (binary_round_aux prec emax false m e l).
Proof.
  unfold binary_round_aux.
  destruct (shr_fexp prec emax m e l) as [mrs1 e1].
  destruct (shr_fexp prec emax _ e1 loc_Exact) as [mrs2 e2].
  destruct (shr_m mrs2); try reflexivity.
  destruct (e2 <=? emax - prec)%Z; reflexivity.
Qed.

Lemma rounds_to_cases z x : rounds_to z x -> SFbad z \/ SFnonneg z.
Proof. intros [[H _]|[H _]]; [left; left; exact H | right; exact H]. Qed.

Lemma SFnonneg_not_bad z : SFnonneg z -> SFbad z -> False.
Proof. intros H [->| ->]; exact H. Qed.

Lemma SFnonneg_fin z : SFnonneg z -> SFfin z.
Proof. destruct z as [[]|[]| |[] m e]; simpl; auto. Qed.

Lemma SFnonneg_value z : SFnonneg z -> 0 <= SF2R z.
Proof.
  destruct z as [[]|[]| |[] m e]; simpl; try tauto; try lra.
  intros _. pose proof (pow2_pos e).
  assert (0 < IZR (Z.pos m)) by (apply IZR_lt; lia). nra.
Qed.

Lemma rounds_to_exact z : SFnonneg z -> rounds_to z (SF2R z).
Proof.
  intros H. right. split; [exact H|].
  rewrite Rminus_diag, Rabs_R0.
  pose proof (SFnonneg_value z H). pose proof (pow2_pos (-53)).
  pose proof (pow2_pos (-1075)). nra.
Qed.

(** ** Multiplication: the square of a number *)

Lemma valid_binary_canonical s m e :
  valid_binary (S754_finite s m e) = true ->
  (e = Z.max (Zpos (digits2_pos m) + e - 53) (-1074))%Z.
Proof.
  simpl. unfold bounded, canonical_mantissa. intros H.
  apply andb_prop in H. destruct H as [H _].
  apply Z.eqb_eq in H. rewrite fexp_eq in H. lia.
Qed.

Lemma SFmul_square (x : spec_float) :
  valid_binary x = true ->
  (SFfin x -> rounds_to (SFmul prec emax x x) (SF2R x * SF2R x)) /\
  (~ SFfin x -> SFbad (SFmul prec emax x x)).
Proof.
  intros Hv. destruct x as [s|s| |s m e]; simpl SFfin.
  - split; [|tauto]. intros _. simpl SFmul.
    replace (xorb s s) with false by (destruct s; reflexivity).
    simpl SF2R. rewrite Rmult_0_l. apply (rounds_to_exact (S754_zero false)). exact I.
  - split; [tauto|]. intros _. simpl.
    replace (xorb s s) with false by (destruct s; reflexivity). left. reflexivity.
  - split; [tauto|]. intros _. right. reflexivity.
  - split; [|tauto]. intros _. simpl SFmul.
    replace (xorb s s) with false by (destruct s; reflexivity).
    apply binary_round_aux_rounds.
    + lia.
    + simpl. rewrite Pos2Z.inj_mul, mult_IZR, pow2_add.
      destruct s; simpl; ring.
    + apply valid_binary_canonical in Hv.
      pose proof (digits2_pos_bounds m) as [Hlo _].
      assert (Hsq : (2 ^ (2 * Z.pos (digits2_pos m) - 2) <= Z.pos (m * m))%Z).
      { replace (2 * Z.pos (digits2_pos m) - 2)%Z
          with ((Z.pos (digits2_pos m) - 1) + (Z.pos (digits2_pos m) - 1))%Z by lia.
        rewrite Z.pow_add_r by lia. rewrite Pos2Z.inj_mul.
        assert (0 < 2 ^ (Z.pos (digits2_pos m) - 1))%Z
          by (apply Z.pow_pos_nonneg; lia).
        nia. }
      apply Zdigits2_ge in Hsq; [|lia].
      rewrite fexp_eq. lia.
Qed.

(** ** Addition of two non-negative numbers *)

Lemma iter_xO (m d : positive) :
  Z.pos (Pos.iter xO m d) = (Z.pos m * 2 ^ Z.pos d)%Z.
Proof.
  induction d as [|d IH] using Pos.peano_ind.
  - simpl. lia.
  - rewrite Pos.iter_succ, Pos2Z.inj_xO, IH, Pos2Z.inj_succ, Z.pow_succ_r by lia.
    lia.
Qed.

Lemma shl_align_spec (m : positive) (e e' : Z) :
  snd (shl_align m e e') = Z.min e e' /\
  Z.pos (fst (shl_align m e e')) = (Z.pos m * 2 ^ (e - Z.min e e'))%Z.
Proof.
  unfold shl_align. destruct (e' - e)%Z as [|d|d] eqn:Hd; simpl.
  - replace (Z.min e e') with e by lia. rewrite Z.sub_diag. simpl. lia.
  - replace (Z.min e e') with e by lia. rewrite Z.sub_diag. simpl. lia.
  - replace (Z.min e e') with e' by lia. split; [reflexivity|].
    rewrite iter_xO. f_equal. f_equal. lia.
Qed.

Lemma shl_align_value (m : positive) (e e' : Z) :
  IZR (Z.pos (fst (shl_align m e e'))) * pow2 (snd (shl_align m e e'))
  = IZR (Z.pos m) * pow2 e.
Proof.
  destruct (shl_align_spec m e e') as [He Hm]. rewrite He, Hm.
  rewrite mult_IZR, pow2_IZR by lia.
  rewrite Rmult_assoc, <- pow2_add. f_equal. f_equal. lia.
Qed.

Lemma Zdigits2_shift (m : positive) (k : Z) :
  (0 <= k)%Z -> Zdigits2 (Z.pos m * 2 ^ k) = (Zdigits2 (Z.pos m) + k)%Z.
Proof.
  intros Hk. pose proof (digits2_pos_bounds m) as [Hlo Hhi].
  assert (Hp : (0 < 2 ^ k)%Z) by (apply Z.pow_pos_nonneg; lia).
  apply Z.le_antisymm.
  - apply Zdigits2_le; [lia | simpl; lia|].
    simpl Zdigits2. rewrite Z.pow_add_r by lia. nia.
  - replace (Zdigits2 (Z.pos m) + k)%Z with ((Z.pos (digits2_pos m) - 1 + k) + 1)%Z
      by (simpl; lia).
    apply Zdigits2_ge; [lia|].
    rewrite Z.pow_add_r by lia. nia.
Qed.

Lemma binary_round_rounds (m : positive) (e : Z) :
  rounds_to (binary_round prec emax false m e) (IZR (Z.pos m) * pow2 e).
Proof.
  unfold binary_round.
  set (e' := fexp prec emax (Z.pos (digits2_pos m) + e)).
  pose proof (shl_align_spec m e e') as [He Hm].
  pose proof (shl_align_value m e e') as Hval.
  destruct (shl_align m e e') as [mz ez]. simpl in He, Hm, Hval.
  apply binary_round_aux_rounds.
  - lia.
  - simpl. symmetry. exact Hval.
  - rewrite Hm, Zdigits2_shift by lia. subst ez. simpl Zdigits2.
    replace (Z.pos (digits2_pos m) + (e - Z.min e e') + Z.min e e')%Z
      with (Z.pos (digits2_pos m) + e)%Z by lia.
    fold e'. lia.
Qed.

Lemma SFadd_nonneg (a b : spec_float) :
  SFnonneg a -> SFnonneg b -> rounds_to (SFadd prec emax a b) (SF2R a + SF2R b).
Proof.
  intros Ha Hb.
  destruct a as [[]|[]| |[] ma ea]; simpl in Ha; try tauto;
    destruct b as [[]|[]| |[] mb eb]; simpl in Hb; try tauto.
  - simpl SFadd. simpl SF2R. rewrite Rplus_0_l.
    apply (rounds_to_exact (S754_zero false)). exact I.
  - simpl SFadd. change (SF2R (S754_zero false)) with 0. rewrite Rplus_0_l.
    apply (rounds_to_exact (S754_finite false mb eb)). exact I.
  - simpl SFadd. change (SF2R (S754_zero false)) with 0. rewrite Rplus_0_r.
    apply (rounds_to_exact (S754_finite false ma ea)). exact I.
  - unfold SFadd, cond_Zopp.
    set (ez := Z.min ea eb).
    pose proof (shl_align_value ma ea ez) as Va.
    pose proof (shl_align_value mb eb ez) as Vb.
    pose proof (shl_align_spec ma ea ez) as [Ea _].
    pose proof (shl_align_spec mb eb ez) as [Eb _].
    replace (Z.min ea ez) with ez in Ea by lia.
    replace (Z.min eb ez) with ez in Eb by lia.
    rewrite Ea in Va. rewrite Eb in Vb.
    rewrite <- Pos2Z.inj_add. unfold binary_normalize.
    simpl SF2R. rewrite <- Va, <- Vb, <- Rmult_plus_distr_r, <- plus_IZR.
    rewrite <- Pos2Z.inj_add.
    apply binary_round_rounds.
Qed.

Lemma SFadd_bad (a b : spec_float) :
  (SFbad a /\ (SFnonneg b \/ SFbad b)) \/ (SFnonneg a /\ SFbad b) ->
  SFbad (SFadd prec emax a b).
Proof.
  unfold SFbad.
  intros [[[->| ->] [Hb|[->| ->]]]|[Ha [->| ->]]]; simpl; auto;
    try (destruct b as [[]|[]| |[] mb eb]; simpl in *; tauto);
    try (destruct a as [[]|[]| |[] ma ea]; simpl in *; tauto).
Qed.


(** ** Square root *)

Lemma sqrt_located (n q r : Z) :
  (0 <= n)%Z -> n = (q * q + r)%Z -> (0 <= r <= 2 * q)%Z ->
  located (sqrt (IZR n)) q 0
    (if (r =? 0)%Z then loc_Exact
     else loc_Inexact (if (r <=? q)%Z then Lt else Gt)).
Proof.
  intros Hn Hq Hr.
  assert (Hq0 : 0 <= IZR q) by (apply IZR_le; lia).
  assert (Hs0 : 0 <= sqrt (IZR n)) by apply sqrt_pos.
  assert (Hsq : sqrt (IZR n) * sqrt (IZR n) = IZR q * IZR q + IZR r).
  { rewrite sqrt_sqrt by (apply IZR_le; lia).
    rewrite Hq, plus_IZR, mult_IZR. reflexivity. }
  unfold located.
  destruct (r =? 0)%Z eqn:Hr0.
  - apply Z.eqb_eq in Hr0. subst r. rewrite pow2_0. nra.
  - apply Z.eqb_neq in Hr0.
    assert (Hr1 : 1 <= IZR r) by (apply IZR_le; lia).
    destruct (r <=? q)%Z eqn:Hrq.
    + apply Z.leb_le in Hrq. apply IZR_le in Hrq. rewrite pow2_0. nra.
    + apply Z.leb_gt in Hrq.
      assert (IZR q + 1 <= IZR r) by (rewrite <- plus_IZR; apply IZR_le; lia).
      assert (IZR r <= 2 * IZR q) by (rewrite <- mult_IZR; apply IZR_le; lia).
      rewrite pow2_0. nra.
Qed.

Lemma located_scale x m l e :
  0 <= x -> located x m 0 l -> located (x * pow2 e) m e l.
Proof.
  intros Hx H. pose proof (pow2_pos e) as Hp.
  destruct l as [|[]]; unfold located in *; rewrite pow2_0 in H; nra.
Qed.

Lemma SFsqrt_nonneg (x : spec_float) :
  SFnonneg x -> rounds_to (SFsqrt prec emax x) (sqrt (SF2R x)).
Proof.
  intros Hx. destruct x as [[]|[]| |[] m e]; simpl in Hx; try tauto.
  - simpl. rewrite sqrt_0. apply (rounds_to_exact (S754_zero false)). exact I.
  - unfold SFsqrt, SFsqrt_core_binary.
    set (d := Zdigits2 (Z.pos m)).
    set (e' := Z.min (fexp prec emax (Z.div2 (d + e + 1))) (Z.div2 e)).
    set (s := (e - 2 * e')%Z).
    assert (Hs : (0 <= s)%Z).
    { unfold s, e'. rewrite (Z.div2_div e). pose proof (Z.div_mod e 2). 
      pose proof (Z.mod_pos_bound e 2). lia. }
    set (m' := match s with
               | 0%Z => Z.pos m
               | Z.pos _ => Z.shiftl (Z.pos m) s
               | Z.neg _ => 0%Z
               end).
    assert (Hm' : m' = (Z.pos m * 2 ^ s)%Z).
    { unfold m'. destruct s as [|p|p] eqn:Es; [simpl; lia| |lia].
      apply Z.shiftl_mul_pow2. lia. }
    assert (Hp2 : (0 < 2 ^ s)%Z) by (apply Z.pow_pos_nonneg; lia).
    pose proof (Z.sqrtrem_spec m' ltac:(lia)) as Hspec.
    destruct (Z.sqrtrem m') as [q r]. destruct Hspec as [Hq Hr].
    assert (Hval : sqrt (SF2R (S754_finite false m e))
                   = sqrt (IZR m') * pow2 e').
    { simpl SF2R.
      replace (IZR (Z.pos m) * pow2 e) with (IZR m' * (pow2 e' * pow2 e')).
      - rewrite sqrt_mult_alt by (apply IZR_le; lia).
        rewrite sqrt_square by (pose proof (pow2_pos e'); lra). reflexivity.
      - rewrite Hm', mult_IZR, pow2_IZR by lia.
        rewrite <- !pow2_add, Rmult_assoc, <- pow2_add. f_equal. f_equal.
        unfold s. lia. }
    rewrite Hval.
    apply binary_round_aux_rounds.
    + lia.
    + apply located_scale; [apply sqrt_pos|].
      apply sqrt_located; [lia | exact Hq | exact Hr].
    + (* the square root has enough digits *)
      pose proof (digits2_pos_bounds m) as [Hlo _]. fold (Zdigits2 (Z.pos m)) in Hlo.
      fold d in Hlo.
      assert (Hd : (1 <= d)%Z) by (unfold d; simpl; lia).
      set (h := Z.div2 (d + s + 1)).
      assert (Hh : (2 * h <= d + s + 1 /\ d + s <= 2 * h)%Z).
      { unfold h. rewrite Z.div2_div. pose proof (Z.div_mod (d + s + 1) 2).
        pose proof (Z.mod_pos_bound (d + s + 1) 2). lia. }
      assert (Hq2 : (2 ^ (h - 1) <= q)%Z).
      { assert (Hqq : q = Z.sqrt m')
          by (symmetry; apply Z.sqrt_unique; nia).
        rewrite Hqq. apply Z.sqrt_le_square; [lia | apply Z.pow_nonneg; lia|].
        rewrite <- Z.pow_add_r by lia.
        apply Z.le_trans with (2 ^ (d - 1 + s))%Z.
        - apply Z.pow_le_mono_r; lia.
        - rewrite Z.pow_add_r, Hm' by lia. nia. }
      apply Zdigits2_ge in Hq2; [|lia].
      assert (Hhe : (h + e' = Z.div2 (d + e + 1))%Z).
      { unfold h, s. rewrite !Z.div2_div.
        replace (d + (e - 2 * e') + 1)%Z with (d + e + 1 + (- e') * 2)%Z by lia.
        rewrite Z.div_add by lia. lia. }
      rewrite fexp_eq. unfold e' at 1. rewrite fexp_eq. lia.
Qed.

Lemma SFsqrt_bad (x : spec_float) : SFbad x -> SFbad (SFsqrt prec emax x).
Proof. intros [->| ->]; [left | right]; reflexivity. Qed.


(** ** Division by a positive number *)

Lemma div_located (n d q r : Z) :
  (0 < d)%Z -> n = (d * q + r)%Z -> (0 <= r < d)%Z -> (0 <= q)%Z ->
  located (IZR n / IZR d) q 0 (new_location d r).
Proof.
  intros Hd Hn Hr Hq.
  assert (Hd0 : 0 < IZR d) by (apply IZR_lt; lia).
  assert (Hr0 : 0 <= IZR r) by (apply IZR_le; lia).
  assert (Hdiv : IZR n / IZR d = IZR q + IZR r / IZR d).
  { rewrite Hn, plus_IZR, mult_IZR. field. lra. }
  rewrite Hdiv.
  set (rho := IZR r / IZR d).
  assert (Hrho : rho * IZR d = IZR r) by (unfold rho; field; lra).
  assert (Hlt : IZR r < IZR d) by (apply IZR_lt; lia).
  assert (Hrho0 : 0 <= rho < 1) by (split; nra).
  unfold new_location, new_location_even, new_location_odd.
  destruct (Z.even d) eqn:Hev.
  - destruct (r =? 0)%Z eqn:Hr1.
    + apply Z.eqb_eq in Hr1. subst r. unfold located. rewrite pow2_0.
      assert (rho = 0) by nra. lra.
    + destruct (2 * r ?= d)%Z eqn:Hc.
      * apply Z.compare_eq in Hc. apply (f_equal IZR) in Hc.
        rewrite mult_IZR in Hc. unfold located. rewrite pow2_0. nra.
      * apply Z.compare_lt_iff in Hc. apply IZR_lt in Hc.
        rewrite mult_IZR in Hc. unfold located. rewrite pow2_0. nra.
      * apply Z.compare_gt_iff in Hc. apply IZR_lt in Hc.
        rewrite mult_IZR in Hc. unfold located. rewrite pow2_0. nra.
  - destruct (r =? 0)%Z eqn:Hr1.
    + apply Z.eqb_eq in Hr1. subst r. unfold located. rewrite pow2_0.
      assert (rho = 0) by nra. lra.
    + destruct (2 * r + 1 ?= d)%Z eqn:Hc.
      * apply Z.compare_eq in Hc. apply (f_equal IZR) in Hc.
        rewrite plus_IZR, mult_IZR in Hc. unfold located. rewrite pow2_0. nra.
      * apply Z.compare_lt_iff in Hc. apply IZR_lt in Hc.
        rewrite plus_IZR, mult_IZR in Hc. unfold located. rewrite pow2_0. nra.
      * apply Z.compare_gt_iff in Hc.
        assert (Hc' : (d <= 2 * r)%Z) by lia. apply IZR_le in Hc'.
        rewrite mult_IZR in Hc'. unfold located. rewrite pow2_0. nra.
Qed.

(** The quotient of a finite number by a positive one is, up to its sign,
    the rounding of the quotient of the absolute values. *)
Lemma SFdiv_pos (x : spec_float) (my : positive) (ey : Z) :
  SFfin x ->
  exists z0,
    rounds_to z0 (Rabs (SF2R x) / SF2R (S754_finite false my ey)) /\
    (SFdiv prec emax x (S754_finite false my ey) = z0 \/
     SFdiv prec emax x (S754_finite false my ey) = SFopp z0).
Proof.
  intros Hx. destruct x as [sx|sx| |sx mx ex]; simpl in Hx; try tauto.
  - exists (S754_zero false). split.
    + simpl SF2R. rewrite Rabs_R0. unfold Rdiv. rewrite Rmult_0_l.
      apply (rounds_to_exact (S754_zero false)). exact I.
    + simpl. destruct sx; [right | left]; reflexivity.
  - unfold SFdiv, SFdiv_core_binary.
    set (d1 := Zdigits2 (Z.pos mx)). set (d2 := Zdigits2 (Z.pos my)).
    set (e' := Z.min (fexp prec emax (d1 + ex - (d2 + ey))) (ex - ey)).
    set (s := (ex - ey - e')%Z).
    assert (Hs : (0 <= s)%Z) by (unfold s, e'; lia).
    set (m' := match s with
               | 0%Z => Z.pos mx
               | Z.pos _ => Z.shiftl (Z.pos mx) s
               | Z.neg _ => 0%Z
               end).
    assert (Hm' : m' = (Z.pos mx * 2 ^ s)%Z).
    { unfold m'. destruct s as [|p|p] eqn:Es; [simpl; lia| |lia].
      apply Z.shiftl_mul_pow2. lia. }
    assert (Hp2 : (0 < 2 ^ s)%Z) by (apply Z.pow_pos_nonneg; lia).
    pose proof (Z_div_mod m' (Z.pos my) ltac:(lia)) as Hspec.
    destruct (Z.div_eucl m' (Z.pos my)) as [q r]. destruct Hspec as [Hq Hr].
    assert (Hq0 : (0 <= q)%Z) by nia.
    exists (binary_round_aux prec emax false q e' (new_location (Z.pos my) r)).
    split.
    + assert (Hval : Rabs (SF2R (S754_finite sx mx ex))
                     / SF2R (S754_finite false my ey)
                     = IZR m' / IZR (Z.pos my) * pow2 e').
      { assert (Hmx : 0 < IZR (Z.pos mx)) by (apply IZR_lt; lia).
        assert (Hmy : 0 < IZR (Z.pos my)) by (apply IZR_lt; lia).
        pose proof (pow2_pos ex) as Hpx. pose proof (pow2_pos ey) as Hpy.
        assert (Habs : Rabs (SF2R (S754_finite sx mx ex)) = IZR (Z.pos mx) * pow2 ex).
        { destruct sx; simpl SF2R.
          - rewrite Rabs_Ropp. apply Rabs_pos_eq. nra.
          - apply Rabs_pos_eq. nra. }
        rewrite Habs. simpl SF2R.
        rewrite Hm', mult_IZR, pow2_IZR by lia.
        replace ex with (s + e' + ey)%Z at 1 by (unfold s; lia).
        rewrite !pow2_add. field. lra. }
      rewrite Hval.
      apply binary_round_aux_rounds.
      * exact Hq0.
      * apply located_scale.
        -- apply Rmult_le_pos; [apply IZR_le; lia|].
           apply Rlt_le, Rinv_0_lt_compat, IZR_lt. lia.
        -- apply div_located; [lia | exact Hq | exact Hr | exact Hq0].
      * (* the quotient has enough digits *)
        pose proof (digits2_pos_bounds mx) as [Hlo1 _].
        pose proof (digits2_pos_bounds my) as [_ Hhi2].
        fold (Zdigits2 (Z.pos mx)) in Hlo1. fold (Zdigits2 (Z.pos my)) in Hhi2.
        fold d1 in Hlo1. fold d2 in Hhi2.
        assert (Hd1 : (1 <= d1)%Z) by (unfold d1; simpl; lia).
        assert (Hd2 : (1 <= d2)%Z) by (unfold d2; simpl; lia).
        assert (Hdq : (d1 + s - d2 <= Zdigits2 q)%Z).
        { pose proof (Zdigits2_nonneg q).
          destruct (Z_le_gt_dec (d1 + s - d2) 0) as [Hle|Hgt]; [lia|].
          replace (d1 + s - d2)%Z with ((d1 + s - 1 - d2) + 1)%Z by lia.
          apply Zdigits2_ge; [lia|].
          assert (H1 : (2 ^ (d1 - 1 + s) <= m')%Z).
          { rewrite Z.pow_add_r, Hm' by lia. nia. }
          assert (H2 : (2 ^ (d1 - 1 + s) = 2 ^ (d1 + s - 1 - d2) * 2 ^ d2)%Z).
          { rewrite <- Z.pow_add_r by lia. f_equal. lia. }
          assert (0 < 2 ^ (d1 + s - 1 - d2))%Z by (apply Z.pow_pos_nonneg; lia).
          nia. }
        rewrite fexp_eq. unfold e' at 1. rewrite fexp_eq. unfold s in Hdq. lia.
    + replace (xorb sx false) with sx by (destruct sx; reflexivity).
      destruct sx; [right; apply binary_round_aux_sign | left; reflexivity].
Qed.

(** ** Comparison *)

Lemma valid_binary_mantissa s m e :
  valid_binary (S754_finite s m e) = true ->
  (-1074 <= e)%Z /\ (Z.pos m < 2 ^ 53)%Z /\ (-1074 < e -> 2 ^ 52 <= Z.pos m)%Z.
Proof.
  intros Hv. apply valid_binary_canonical in Hv.
  pose proof (digits2_pos_bounds m) as [Hlo Hhi].
  split; [lia|]. split.
  - apply Z.lt_le_trans with (1 := Hhi). apply Z.pow_le_mono_r; lia.
  - intros He. replace 52%Z with (Z.pos (digits2_pos m) - 1)%Z by lia. exact Hlo.
Qed.

(** On finite non-negative binary64 numbers [SFcompare] is the comparison of
    the values. *)
Lemma SFcompare_nonneg (a b : spec_float) :
  valid_binary a = true -> valid_binary b = true ->
  SFnonneg a -> SFnonneg b ->
  match SFcompare a b with
  | Some Lt => SF2R a < SF2R b
  | Some Eq => SF2R a = SF2R b
  | Some Gt => SF2R b < SF2R a
  | None => False
  end.
Proof.
  intros Va Vb Ha Hb.
  destruct a as [[]|[]| |[] ma ea]; simpl in Ha; try tauto;
    destruct b as [[]|[]| |[] mb eb]; simpl in Hb; try tauto.
  - simpl. reflexivity.
  - simpl SFcompare. simpl SF2R. pose proof (pow2_pos eb).
    assert (0 < IZR (Z.pos mb)) by (apply IZR_lt; lia). nra.
  - simpl SFcompare. simpl SF2R. pose proof (pow2_pos ea).
    assert (0 < IZR (Z.pos ma)) by (apply IZR_lt; lia). nra.
  - apply valid_binary_mantissa in Va, Vb.
    destruct Va as (Ea & Ma & Na). destruct Vb as (Eb & Mb & Nb).
    assert (Hma : 0 < IZR (Z.pos ma)) by (apply IZR_lt; lia).
    assert (Hmb : 0 < IZR (Z.pos mb)) by (apply IZR_lt; lia).
    assert (Hexp : forall m1 e1 m2 e2,
              (Z.pos m1 < 2 ^ 53)%Z -> (2 ^ 52 <= Z.pos m2)%Z -> (e1 < e2)%Z ->
              IZR (Z.pos m1) * pow2 e1 < IZR (Z.pos m2) * pow2 e2).
    { intros m1 e1 m2 e2 H1 H2 He.
      apply IZR_lt in H1. apply IZR_le in H2.
      rewrite pow2_IZR in H1, H2 by lia.
      pose proof (pow2_pos e1). pose proof (pow2_pos e2).
      pose proof (pow2_le (e1 + 1) e2 ltac:(lia)) as Hle.
      rewrite pow2_succ in Hle.
      replace 53%Z with (52 + 1)%Z in H1 by lia. rewrite pow2_succ in H1.
      pose proof (pow2_pos 52). nra. }
    simpl SFcompare. simpl SF2R.
    destruct (ea ?= eb)%Z eqn:Hc.
    + apply Z.compare_eq in Hc. subst eb.
      change (Pos.compare_cont Eq ma mb) with (Pos.compare ma mb).
      pose proof (pow2_pos ea).
      destruct (ma ?= mb)%positive eqn:Hm.
      * apply Pos.compare_eq in Hm. subst. reflexivity.
      * apply Rmult_lt_compat_r; [apply pow2_pos | apply IZR_lt].
        apply Pos2Z.pos_lt_pos, Hm.
      * apply Pos.compare_gt_iff in Hm.
        apply Rmult_lt_compat_r; [apply pow2_pos | apply IZR_lt].
        apply Pos2Z.pos_lt_pos, Hm.
    + rewrite Z.compare_lt_iff in Hc. apply Hexp; [lia | apply Nb; lia | lia].
    + rewrite Z.compare_gt_iff in Hc. apply Hexp; [lia | apply Na; lia | lia].
Qed.

End RoundingError.

(** ** The magnitude of a normalized vector *)

Section SumOfSquares.

Local Open Scope R_scope.

Lemma hi_step (u eta p S x2 k T SQ : R) :
  0 <= u -> 0 <= eta -> 1 <= p -> 0 <= S -> 0 <= x2 -> 0 <= k ->
  T <= p * ((1 + u) * S + 2 * k * eta) ->
  SQ <= (1 + u) * x2 + eta ->
  (T + SQ) * (1 + u) + eta
  <= (1 + u) * p * ((1 + u) * (S + x2) + 2 * (k + 1) * eta).
Proof.
  intros Hu He Hp HS Hx Hk HT HSQ.
  assert (H1 : (T + SQ) * (1 + u) + eta
               <= (p * ((1 + u) * S + 2 * k * eta) + ((1 + u) * x2 + eta)) * (1 + u) + eta).
  { apply Rplus_le_compat_r. apply Rmult_le_compat_r; lra. }
  apply Rle_trans with (1 := H1).
  assert (0 <= (p - 1) * x2) by nra.
  assert (0 <= (p - 1) * eta) by nra.
  assert (0 <= u * eta) by nra.
  assert (0 <= u * x2) by nra.
  assert (0 <= u * ((p - 1) * x2)) by nra.
  assert (0 <= u * ((p - 1) * eta)) by nra.
  nra.
Qed.

Lemma lo_step (u eta q S x2 k T SQ : R) :
  0 <= u <= 1 -> 0 <= eta -> 0 <= q <= 1 -> 0 <= S -> 0 <= x2 -> 0 <= k ->
  q * (1 - u) * S - 2 * k * eta <= T ->
  (1 - u) * x2 - eta <= SQ ->
  (1 - u) * q * (1 - u) * (S + x2) - 2 * (k + 1) * eta
  <= (T + SQ) * (1 - u) - eta.
Proof.
  intros Hu He Hq HS Hx Hk HT HSQ.
  assert (H1 : (q * (1 - u) * S - 2 * k * eta + ((1 - u) * x2 - eta)) * (1 - u) - eta
               <= (T + SQ) * (1 - u) - eta).
  { apply Rplus_le_compat_r. apply Rmult_le_compat_r; lra. }
  apply Rle_trans with (2 := H1).
  assert (0 <= (1 - q) * x2) by nra.
  assert (0 <= (1 - u) * (1 - u)) by nra.
  assert (0 <= (1 - u) * (1 - u) * ((1 - q) * x2)) by nra.
  assert (0 <= u * eta) by nra.
  assert (0 <= u * (k * eta)) by nra.
  nra.
Qed.

Lemma sum_sq_nonneg x k : 0 <= sum_sq x k.
Proof. induction k as [|k IH]; simpl; [lra | nra]. Qed.

Lemma sum_sq_elem x k i : (i < k)%nat -> x i * x i <= sum_sq x k.
Proof.
  induction k as [|k IH]; intros Hi; [lia|]. simpl.
  pose proof (sum_sq_nonneg x k).
  destruct (decide (i = k)) as [->|Hne]; [nra|].
  assert (x i * x i <= sum_sq x k) by (apply IH; lia). nra.
Qed.

Lemma u_bounds : 0 < pow2 (-53) < 1.
Proof. rewrite pow2_m53. lra. Qed.

Lemma pow_1u_ge1 k : 1 <= (1 + pow2 (-53)) ^ k.
Proof. apply pow_R1_Rle. pose proof u_bounds. lra. Qed.

Lemma pow_1u_le1 k : 0 < (1 - pow2 (-53)) ^ k <= 1.
Proof.
  pose proof u_bounds. split; [apply pow_lt; lra|].
  apply Rle_trans with (1 ^ k); [apply pow_incr; lra | rewrite pow1; lra].
Qed.

Lemma sum_hi_nonneg x k : 0 <= sum_hi x k.
Proof.
  unfold sum_hi. pose proof (pow_1u_ge1 k). pose proof (sum_sq_nonneg x k).
  pose proof u_bounds. pose proof (pow2_pos (-1075)). pose proof (pos_INR k).
  apply Rmult_le_pos; [lra|]. nra.
Qed.

(** The exact value of each step stays below the bound of the next one. *)
Lemma sum_hi_step x k T SQ :
  0 <= T -> T <= sum_hi x k -> SQ <= (1 + pow2 (-53)) * (x k * x k) + pow2 (-1075) ->
  (T + SQ) * (1 + pow2 (-53)) + pow2 (-1075) <= sum_hi x (S k).
Proof.
  intros HT0 HT HSQ. unfold sum_hi in *. rewrite S_INR.
  pose proof u_bounds as Hu. pose proof (pow2_pos (-1075)) as He.
  pose proof (pow_1u_ge1 k) as Hp.
  set (u := pow2 (-53)) in *. set (eta := pow2 (-1075)) in *. clearbody u eta.
  simpl pow. simpl sum_sq.
  apply hi_step;
    [lra | lra | exact Hp | apply sum_sq_nonneg | nra | apply pos_INR
    | exact HT | exact HSQ].
Qed.

Lemma sum_lo_step x k T SQ :
  sum_lo x k <= T -> (1 - pow2 (-53)) * (x k * x k) - pow2 (-1075) <= SQ ->
  sum_lo x (S k) <= (T + SQ) * (1 - pow2 (-53)) - pow2 (-1075).
Proof.
  intros HT HSQ. unfold sum_lo in *. rewrite S_INR.
  pose proof u_bounds as Hu. pose proof (pow2_pos (-1075)) as He.
  pose proof (pow_1u_le1 k) as Hq.
  set (u := pow2 (-53)) in *. set (eta := pow2 (-1075)) in *. clearbody u eta.
  simpl pow. simpl sum_sq.
  apply lo_step;
    [lra | lra | lra | apply sum_sq_nonneg | nra | apply pos_INR
    | exact HT | exact HSQ].
Qed.


Lemma sum_hi_mono x k : sum_hi x k <= sum_hi x (S k).
Proof.
  pose proof (sum_hi_nonneg x k) as H0.
  pose proof (sum_hi_step x k (sum_hi x k) 0 H0 (Rle_refl _)) as H.
  pose proof u_bounds. pose proof (pow2_pos (-1075)).
  assert (0 <= x k * x k) by nra.
  assert (0 <= (1 + pow2 (-53)) * (x k * x k) + pow2 (-1075)) by nra.
  specialize (H H4). nra.
Qed.

Lemma sum_sq_le_hi x k : sum_sq x k <= sum_hi x k.
Proof.
  unfold sum_hi. pose proof (pow_1u_ge1 k) as Hp. pose proof u_bounds as Hu.
  pose proof (pow2_pos (-1075)) as He. pose proof (pos_INR k) as Hk.
  pose proof (sum_sq_nonneg x k) as Hs.
  set (u := pow2 (-53)) in *. set (eta := pow2 (-1075)) in *. clearbody u eta.
  assert (0 <= INR k * eta) by nra.
  assert (sum_sq x k <= (1 + u) * sum_sq x k + 2 * INR k * eta) by nra.
  assert (0 <= (1 + u) * sum_sq x k + 2 * INR k * eta) by nra.
  nra.
Qed.

Lemma SFfin_dec z : SFfin z \/ ~ SFfin z.
Proof. destruct z; simpl; tauto. Qed.

Lemma rounds_to_bounds z x :
  0 <= x -> rounds_to z x -> SFnonneg z ->
  (1 - pow2 (-53)) * x - pow2 (-1075) <= SF2R z
  <= (1 + pow2 (-53)) * x + pow2 (-1075).
Proof.
  intros Hx [[-> _]|[_ H]] Hz; [destruct Hz|].
  apply Rabs_bounds in H. lra.
Qed.

(** The loop of [cvector_magnitude] over the elements [f 0 .. f (n-1)].  Either
    the sum is [+inf] or a NaN, and then an element is not finite or the sum
    overflowed; or it is finite, all the elements are, and the sum is within
    the bounds. *)
Lemma sum_squares_inv (f : nat -> float) (n : nat) :
  let s := for_count n 0 (fun i sum => (sum + f i * f i)%float) 0%float in
  (SFbad (Prim2SF s) /\
   ((exists i, (i < n)%nat /\ ~ SFfin (Prim2SF (f i))) \/
    pow2 1023 <= sum_hi (fun i => B2R (f i)) n)) \/
  (SFnonneg (Prim2SF s) /\
   (forall i, (i < n)%nat -> SFfin (Prim2SF (f i))) /\
   sum_lo (fun i => B2R (f i)) n <= B2R s <= sum_hi (fun i => B2R (f i)) n).
Proof.
  set (X := fun i => B2R (f i)).
  pose (P := fun (k : nat) (s : float) =>
    (SFbad (Prim2SF s) /\
     ((exists i, (i < k)%nat /\ ~ SFfin (Prim2SF (f i))) \/
      pow2 1023 <= sum_hi X k)) \/
    (SFnonneg (Prim2SF s) /\
     (forall i, (i < k)%nat -> SFfin (Prim2SF (f i))) /\
     sum_lo X k <= B2R s <= sum_hi X k)).
  change (P (0 + n)%nat (for_count n 0 (fun i sum => (sum + f i * f i)%float) 0%float)).
  apply for_count_ind.
  - right. split; [exact I|]. split; [intros i Hi; lia|].
    unfold sum_lo, sum_hi, B2R. simpl. lra.
  - intros i t _ HP.
    assert (Hspec : Prim2SF (t + f i * f i)%float
                    = SFadd prec emax (Prim2SF t)
                        (SFmul prec emax (Prim2SF (f i)) (Prim2SF (f i))))
      by (rewrite add_spec, mul_spec; reflexivity).
    destruct (SFmul_square (Prim2SF (f i)) (Prim2SF_valid (f i))) as [Hfin Hnfin].
    set (sq := SFmul prec emax (Prim2SF (f i)) (Prim2SF (f i))) in *.
    assert (Hx2 : 0 <= X i * X i) by nra.
    pose proof (sum_hi_mono X i) as Hmono.
    assert (Hsqcase : SFbad sq \/ SFnonneg sq).
    { destruct (SFfin_dec (Prim2SF (f i))) as [Hf|Hf];
        [apply (rounds_to_cases _ _ (Hfin Hf)) | left; apply Hnfin, Hf]. }
    destruct HP as [[Hbad Hwhy]|(Hnn & Hall & Hlo & Hhi)].
    + (* the sum is already lost *)
      left. split.
      * rewrite Hspec. apply SFadd_bad. left. split; [exact Hbad|].
        destruct Hsqcase; [right | left]; assumption.
      * destruct Hwhy as [(j & Hj & Hfj)|Hov].
        -- left. exists j. split; [lia | exact Hfj].
        -- right. lra.
    + destruct (SFfin_dec (Prim2SF (f i))) as [Hf|Hf].
      2:{ left. split.
          - rewrite Hspec. apply SFadd_bad. right. split; [exact Hnn|].
            apply Hnfin, Hf.
          - left. exists i. split; [lia | exact Hf]. }
      specialize (Hfin Hf). fold (B2R (f i)) in Hfin. fold (X i) in Hfin.
      destruct Hfin as [[Hinf Hbig]|[Hsq Herr]].
      * (* the square overflows *)
        left. split.
        -- rewrite Hspec. apply SFadd_bad. right. split; [exact Hnn|].
           left. exact Hinf.
        -- right. pose proof (sum_sq_elem X (S i) i ltac:(lia)).
           pose proof (sum_sq_le_hi X (S i)). lra.
      * pose proof (SFnonneg_value _ Hnn) as HT0. fold (B2R t) in HT0.
        pose proof (SFnonneg_value _ Hsq) as HS0.
        apply Rabs_bounds in Herr.
        pose proof (SFadd_nonneg _ _ Hnn Hsq) as Hadd.
        fold (B2R t) in Hadd. rewrite <- Hspec in Hadd.
        assert (Hup : (B2R t + SF2R sq) * (1 + pow2 (-53)) + pow2 (-1075)
                      <= sum_hi X (S i))
          by (apply sum_hi_step; [exact HT0 | exact Hhi | lra]).
        assert (Hdn : sum_lo X (S i)
                      <= (B2R t + SF2R sq) * (1 - pow2 (-53)) - pow2 (-1075))
          by (apply sum_lo_step; [exact Hlo | lra]).
        pose proof u_bounds as Hu. pose proof (pow2_pos (-1075)) as He.
        destruct Hadd as [[Hinf Hbig]|[Hres Herr2]].
        -- left. split; [left; exact Hinf|]. right. nra.
        -- right. split; [exact Hres|]. split.
           ++ intros j Hj. destruct (decide (j = i)) as [->|Hne];
                [exact Hf | apply Hall; lia].
           ++ apply Rabs_bounds in Herr2. fold (B2R (t + f i * f i)) in Herr2.
              split; lra.
Qed.

End SumOfSquares.

Section UnitNorm.

Local Open Scope R_scope.

Lemma pow_upper (u : R) (n : nat) :
  0 <= u -> 2 * INR n * u <= 1 -> (1 + u) ^ n <= 1 + 2 * INR n * u.
Proof.
  intros Hu. induction n as [|n IH]; intros Hn.
  - simpl. lra.
  - rewrite S_INR in *. pose proof (pos_INR n) as Hn0.
    assert (H1 : 2 * INR n * u <= 1) by nra.
    specialize (IH H1). simpl pow.
    assert (0 <= INR n * u) by nra.
    assert (H2 : (1 + u) * (1 + u) ^ n <= (1 + u) * (1 + 2 * INR n * u))
      by (apply Rmult_le_compat_l; lra).
    assert (INR n * u * u <= u / 2) by nra.
    nra.
Qed.

Lemma pow_lower (u : R) (n : nat) :
  0 <= u <= 1 -> 1 - INR n * u <= (1 - u) ^ n.
Proof.
  intros Hu. induction n as [|n IH].
  - simpl. lra.
  - rewrite S_INR. pose proof (pos_INR n) as Hn0. simpl pow.
    assert (Hq : 0 <= (1 - u) ^ n) by (apply pow_le; lra).
    destruct (Rle_dec (INR n * u) 1) as [Hle|Hgt].
    + assert (H2 : (1 - u) * (1 - INR n * u) <= (1 - u) * (1 - u) ^ n)
        by (apply Rmult_le_compat_l; lra).
      assert (0 <= INR n * u * u) by nra. nra.
    + assert (0 <= (1 - u) * (1 - u) ^ n) by (apply Rmult_le_pos; lra). nra.
Qed.

(** Pass 1: the exact sum of squares against the square of the magnitude. *)
Lemma pass1_real (S shat M eta : R) :
  0 <= S -> 0 <= shat -> 0 <= eta <= 1e-50 ->
  (1 - 1.12e-10) * (1 - / 9007199254740992) * S - 2e-44 <= shat ->
  shat <= (1 + 2.23e-10) * ((1 + / 9007199254740992) * S + 2e-44) ->
  Rabs (M - sqrt shat) <= / 9007199254740992 * sqrt shat + eta ->
  9.9e-11 <= M ->
  (1 - 2.3e-10) * (M * M) <= S <= (1 + 1.2e-10) * (M * M).
Proof.
  intros HS Hs He Hlo Hhi HM HMlow.
  apply Rabs_bounds in HM.
  pose proof (sqrt_pos shat) as Hr0. pose proof (sqrt_sqrt shat Hs) as Hrr.
  set (r := sqrt shat) in *.
  assert (Hr : 9.8e-11 <= r) by lra.
  assert (HMr : (1 - 2 * / 9007199254740992) * r <= M <= (1 + 2 * / 9007199254740992) * r)
    by (split; lra).
  assert (Hshat : 9.6e-21 <= shat) by nra.
  assert (HMM1 : M * M <= (1 + 2 * / 9007199254740992) * (1 + 2 * / 9007199254740992) * shat).
  { rewrite <- Hrr. destruct HMr as [_ H]. 
    assert (0 <= M) by lra. nra. }
  assert (HMM2 : (1 - 2 * / 9007199254740992) * (1 - 2 * / 9007199254740992) * shat <= M * M).
  { rewrite <- Hrr. destruct HMr as [H _]. 
    assert (0 <= (1 - 2 * / 9007199254740992) * r) by nra. nra. }
  split; lra.
Qed.

(** The square of [W], which is within [u * Z + eta] of [Z]. *)
Lemma square_near (c d Z W eta : R) :
  1 <= c <= 1.01 -> 0.99 <= d <= 1 -> 0 <= Z <= 1.1 -> 0 <= eta <= 1e-50 ->
  0 <= W -> d * Z - eta <= W <= c * Z + eta ->
  d * d * (Z * Z) - 3 * eta <= W * W <= c * c * (Z * Z) + 3 * eta.
Proof.
  intros Hc Hd HZ He HW HWZ.
  assert (HcZ : 0 <= c * Z <= 1.12) by (split; nra).
  assert (HdZ : 0 <= d * Z <= 1.1) by (split; nra).
  assert (Hee : 0 <= eta * eta <= 0.1 * eta) by (split; nra).
  assert (HcZe : 0 <= c * Z * eta <= 1.12 * eta) by (split; nra).
  assert (HdZe : 0 <= d * Z * eta <= 1.1 * eta) by (split; nra).
  split.
  - destruct (Rle_dec eta (d * Z)) as [Hge|Hlt].
    + assert (H : (d * Z - eta) * (d * Z - eta) <= W * W)
        by (apply Rmult_le_compat; lra).
      replace ((d * Z - eta) * (d * Z - eta))
        with (d * d * (Z * Z) - 2 * (d * Z * eta) + eta * eta) in H by ring.
      lra.
    + assert (H : (d * Z) * (d * Z) <= eta * eta)
        by (apply Rmult_le_compat; lra).
      replace (d * Z * (d * Z)) with (d * d * (Z * Z)) in H by ring.
      assert (0 <= W * W) by (apply Rmult_le_pos; lra). lra.
  - assert (H : W * W <= (c * Z + eta) * (c * Z + eta))
      by (apply Rmult_le_compat; lra).
    replace ((c * Z + eta) * (c * Z + eta))
      with (c * c * (Z * Z) + 2 * (c * Z * eta) + eta * eta) in H by ring.
    lra.
Qed.

(** One element of the normalized vector. *)
Lemma elem_real (X M W eta : R) :
  0 < M -> X * X <= 1.21 * (M * M) -> 0 <= W -> 0 <= eta <= 1e-50 ->
  Rabs (W - Rabs X / M) <= / 9007199254740992 * (Rabs X / M) + eta ->
  (M * M) * (W * W)
  <= (1 + / 9007199254740992) * (1 + / 9007199254740992) * (X * X)
     + 3 * eta * (M * M) /\
  (1 - / 9007199254740992) * (1 - / 9007199254740992) * (X * X)
  - 3 * eta * (M * M) <= (M * M) * (W * W) /\
  W * W <= 4.
Proof.
  intros HM HX HW He Herr.
  apply Rabs_bounds in Herr.
  set (Z := Rabs X / M) in *.
  assert (HZM : Z * M = Rabs X) by (unfold Z; field; lra).
  assert (HZ0 : 0 <= Z).
  { unfold Z. apply Rmult_le_pos; [apply Rabs_pos|].
    apply Rlt_le, Rinv_0_lt_compat, HM. }
  assert (HXX : X * X = (Z * Z) * (M * M)).
  { replace (Z * Z * (M * M)) with ((Z * M) * (Z * M)) by ring.
    rewrite HZM. unfold Rabs. destruct (Rcase_abs X); ring. }
  assert (HMM : 0 < M * M) by (apply Rmult_lt_0_compat; exact HM).
  assert (HZ2 : Z * Z <= 1.21).
  { apply Rmult_le_reg_r with (M * M); [exact HMM|]. rewrite <- HXX. lra. }
  assert (HZ1 : Z <= 1.1).
  { destruct (Rle_dec Z 1.1) as [H|H]; [exact H|]. apply Rnot_le_lt in H.
    assert (1.1 * 1.1 < Z * Z) by (apply Rmult_le_0_lt_compat; lra). lra. }
  destruct (square_near (1 + / 9007199254740992) (1 - / 9007199254740992) Z W eta)
    as [Hlo Hhi]; try lra.
  split; [|split].
  - rewrite HXX.
    apply Rle_trans with ((M * M) * ((1 + / 9007199254740992) * (1 + / 9007199254740992) * (Z * Z) + 3 * eta)).
    + apply Rmult_le_compat_l; lra.
    + right. ring.
  - rewrite HXX.
    apply Rle_trans with ((M * M) * ((1 - / 9007199254740992) * (1 - / 9007199254740992) * (Z * Z) - 3 * eta)).
    + right. ring.
    + apply Rmult_le_compat_l; lra.
  - lra.
Qed.

(** Pass 2: the magnitude of the normalized vector. *)
Lemma pass2_real (S' shat' M' eta : R) :
  0 <= shat' -> 0 <= eta <= 1e-50 ->
  (1 - / 9007199254740992) * (1 - / 9007199254740992) * (1 - 2.3e-10) - 3e-44 <= S' ->
  S' <= (1 + / 9007199254740992) * (1 + / 9007199254740992) * (1 + 1.2e-10) + 3e-44 ->
  (1 - 1.12e-10) * (1 - / 9007199254740992) * S' - 2e-44 <= shat' ->
  shat' <= (1 + 2.23e-10) * ((1 + / 9007199254740992) * S' + 2e-44) ->
  Rabs (M' - sqrt shat') <= / 9007199254740992 * sqrt shat' + eta ->
  1 - 4e-10 <= M' <= 1 + 4e-10.
Proof.
  intros Hs He Hlo Hhi Hslo Hshi HM.
  apply Rabs_bounds in HM.
  pose proof (sqrt_pos shat') as Hr0. pose proof (sqrt_sqrt shat' Hs) as Hrr.
  set (r := sqrt shat') in *.
  assert (H1 : 1 - 3.5e-10 <= shat' <= 1 + 3.5e-10) by (split; lra).
  assert (H2 : 1 - 3.5e-10 <= r <= 1 + 3.5e-10) by (split; nra).
  split; lra.
Qed.

Lemma eta_small : pow2 (-1075) <= 1e-50.
Proof.
  apply Rle_trans with (pow2 (-167)); [apply pow2_le; lia|].
  replace (-167)%Z with (- (167))%Z by lia. rewrite pow2_opp, <- pow2_IZR by lia.
  assert (H : IZR (10 ^ 50) <= IZR (2 ^ 167)) by (apply IZR_le; vm_compute; discriminate).
  assert (0 < IZR (10 ^ 50)) by (apply IZR_lt; vm_compute; reflexivity).
  apply Rle_trans with (/ IZR (10 ^ 50)).
  - apply Rinv_le_contravar; assumption.
  - change (10 ^ 50)%Z with 100000000000000000000000000000000000000000000000000%Z. lra.
Qed.

Lemma INR_bound (n : nat) : (Z.of_nat n <= 1000000)%Z -> 0 <= INR n <= 1000000.
Proof.
  intros H. split; [apply pos_INR|]. rewrite INR_IZR_INZ. apply IZR_le, H.
Qed.

(** The bounds of the computed sum for a vector of at most a million
    elements, with the constants evaluated. *)
Lemma sum_bounds_numeric (x : nat -> R) (n : nat) :
  (Z.of_nat n <= 1000000)%Z ->
  sum_hi x n <= (1 + 2.23e-10) * ((1 + / 9007199254740992) * sum_sq x n + 2e-44) /\
  (1 - 1.12e-10) * (1 - / 9007199254740992) * sum_sq x n - 2e-44 <= sum_lo x n.
Proof.
  intros Hn. apply INR_bound in Hn.
  pose proof eta_small as He. pose proof (pow2_pos (-1075)) as He0.
  pose proof (sum_sq_nonneg x n) as HS.
  unfold sum_hi, sum_lo. rewrite pow2_m53.
  set (eta := pow2 (-1075)) in *. clearbody eta.
  set (S := sum_sq x n) in *. clearbody S.
  assert (Ht : 0 <= 2 * INR n * eta <= 2e-44).
  { assert (0 <= INR n * eta <= 1000000 * eta) by (split; nra). split; lra. }
  assert (Hp : 1 <= (1 + / 9007199254740992) ^ n <= 1 + 2.23e-10).
  { split; [apply pow_R1_Rle; lra|].
    apply Rle_trans with (1 + 2 * INR n * / 9007199254740992);
      [apply pow_upper; lra | lra]. }
  assert (Hq : 1 - 1.12e-10 <= (1 - / 9007199254740992) ^ n <= 1).
  { split.
    - apply Rle_trans with (1 - INR n * / 9007199254740992);
        [lra | apply pow_lower; lra].
    - apply Rle_trans with (1 ^ n); [apply pow_incr; lra | rewrite pow1; lra]. }
  set (p := (1 + / 9007199254740992) ^ n) in *. clearbody p.
  set (q := (1 - / 9007199254740992) ^ n) in *. clearbody q.
  split.
  - apply Rmult_le_compat; lra.
  - assert ((1 - 1.12e-10) * ((1 - / 9007199254740992) * S)
            <= q * ((1 - / 9007199254740992) * S))
      by (apply Rmult_le_compat_r; lra).
    lra.
Qed.

(** Sums of squares whose terms are related one by one. *)
Lemma sum_sq_upper (x y : nat -> R) (c d e : R) (n : nat) :
  (forall i, (i < n)%nat -> c * (y i * y i) <= d * (x i * x i) + e) ->
  c * sum_sq y n <= d * sum_sq x n + INR n * e.
Proof.
  induction n as [|n IH]; intros H.
  - simpl. lra.
  - rewrite S_INR. simpl sum_sq.
    specialize (IH (fun i Hi => H i (Nat.lt_lt_succ_r _ _ Hi))).
    specialize (H n (Nat.lt_succ_diag_r n)). lra.
Qed.

Lemma sum_sq_lower (x y : nat -> R) (c d e : R) (n : nat) :
  (forall i, (i < n)%nat -> d * (x i * x i) - e <= c * (y i * y i)) ->
  d * sum_sq x n - INR n * e <= c * sum_sq y n.
Proof.
  induction n as [|n IH]; intros H.
  - simpl. lra.
  - rewrite S_INR. simpl sum_sq.
    specialize (IH (fun i Hi => H i (Nat.lt_lt_succ_r _ _ Hi))).
    specialize (H n (Nat.lt_succ_diag_r n)). lra.
Qed.

Lemma SF2R_opp z : SF2R (SFopp z) = - SF2R z.
Proof. destruct z as [s|s| |[] m e]; simpl; lra. Qed.

Lemma SFfin_opp z : SFfin z -> SFfin (SFopp z).
Proof. destruct z; simpl; auto. Qed.

Lemma epsilon_value : 9.9e-11 <= B2R CLASSIFIER_EPSILON.
Proof.
  unfold B2R.
  change (SF2R (Prim2SF CLASSIFIER_EPSILON))
    with (IZR 7737125245533627 * pow2 (-86)).
  replace (-86)%Z with (- (86))%Z by lia.
  rewrite pow2_opp, <- pow2_IZR by lia.
  change (2 ^ 86)%Z with 77371252455336267181195264%Z. lra.
Qed.

(** A magnitude the test [mag > 1e-10] accepts and that is not [+inf] is a
    positive finite number above [9.9e-11]. *)
Lemma magnitude_accepted (mag : float) :
  (CLASSIFIER_EPSILON <? mag)%float = true -> (mag <? infinity)%float = true ->
  (exists m e, Prim2SF mag = S754_finite false m e) /\ 9.9e-11 <= B2R mag.
Proof.
  intros Hgt Hfin. rewrite ltb_spec in Hgt, Hfin.
  pose proof (Prim2SF_valid mag) as Hv.
  pose proof (Prim2SF_valid CLASSIFIER_EPSILON) as Hve.
  pose proof epsilon_value as Heps. unfold B2R in *.
  change (Prim2SF infinity) with (S754_infinity false) in Hfin.
  change (Prim2SF CLASSIFIER_EPSILON)
    with (S754_finite false 7737125245533627 (-86)) in *.
  destruct (Prim2SF mag) as [s|s| |s m e] eqn:Em.
  - destruct s; discriminate Hgt.
  - destruct s; [discriminate Hgt | discriminate Hfin].
  - discriminate Hgt.
  - destruct s; [discriminate Hgt|].
    split; [exists m, e; reflexivity|].
    pose proof (SFcompare_nonneg _ _ Hve Hv I I) as Hc.
    unfold SFltb in Hgt.
    destruct (SFcompare (S754_finite false 7737125245533627 (-86))
                (S754_finite false m e)) as [[]|]; try discriminate Hgt.
    lra.
Qed.


Lemma pow2_1023_big : 4 <= pow2 1023.
Proof.
  apply Rle_trans with (pow2 2); [|apply pow2_le; lia].
  rewrite <- pow2_IZR by lia. simpl. lra.
Qed.

Lemma ratio_bound (X M : R) :
  0 < M -> X * X <= 1.21 * (M * M) -> 0 <= Rabs X / M <= 1.1.
Proof.
  intros HM HX. set (Z := Rabs X / M).
  assert (HZM : Z * M = Rabs X) by (unfold Z; field; lra).
  assert (HZ0 : 0 <= Z).
  { unfold Z. apply Rmult_le_pos; [apply Rabs_pos|].
    apply Rlt_le, Rinv_0_lt_compat, HM. }
  split; [exact HZ0|].
  assert (HXX : X * X = (Z * Z) * (M * M)).
  { replace (Z * Z * (M * M)) with ((Z * M) * (Z * M)) by ring.
    rewrite HZM. unfold Rabs. destruct (Rcase_abs X); ring. }
  assert (HMM : 0 < M * M) by (apply Rmult_lt_0_compat; exact HM).
  assert (HZ2 : Z * Z <= 1.21).
  { apply Rmult_le_reg_r with (M * M); [exact HMM|]. rewrite <- HXX. lra. }
  destruct (Rle_dec Z 1.1) as [H|H]; [exact H|]. apply Rnot_le_lt in H.
  assert (1.1 * 1.1 < Z * Z) by (apply Rmult_le_0_lt_compat; lra). lra.
Qed.

(** One element of [cvector_normalize]: [x / mag] for a finite [x] that is at
    most [1.1 * mag] in absolute value. *)
Lemma normalized_element (x mag : float) (mm : positive) (em : Z) :
  SFfin (Prim2SF x) -> Prim2SF mag = S754_finite false mm em ->
  B2R x * B2R x <= 1.21 * (B2R mag * B2R mag) ->
  SFfin (Prim2SF (x / mag)%float) /\
  (B2R mag * B2R mag) * (B2R (x / mag)%float * B2R (x / mag)%float)
  <= (1 + / 9007199254740992) * (1 + / 9007199254740992) * (B2R x * B2R x)
     + 3 * pow2 (-1075) * (B2R mag * B2R mag) /\
  (1 - / 9007199254740992) * (1 - / 9007199254740992) * (B2R x * B2R x)
  - 3 * pow2 (-1075) * (B2R mag * B2R mag)
  <= (B2R mag * B2R mag) * (B2R (x / mag)%float * B2R (x / mag)%float) /\
  B2R (x / mag)%float * B2R (x / mag)%float <= 4.
Proof.
  intros Hx Hmag HX.
  assert (Hspec : Prim2SF (x / mag)%float
                  = SFdiv prec emax (Prim2SF x) (S754_finite false mm em))
    by (rewrite div_spec, Hmag; reflexivity).
  destruct (SFdiv_pos (Prim2SF x) mm em Hx) as (z0 & Hr & Hz).
  rewrite <- Hspec in Hz. rewrite <- Hmag in Hr.
  fold (B2R x) in Hr. fold (B2R mag) in Hr.
  assert (HM : 0 < B2R mag).
  { unfold B2R. rewrite Hmag. simpl SF2R. pose proof (pow2_pos em).
    assert (0 < IZR (Z.pos mm)) by (apply IZR_lt; lia).
    apply Rmult_lt_0_compat; assumption. }
  pose proof (ratio_bound _ _ HM HX) as HZ.
  pose proof pow2_1023_big as Hbig.
  pose proof eta_small as He. pose proof (pow2_pos (-1075)) as He0.
  destruct Hr as [[_ Hinf]|[Hnn Herr]]; [lra|].
  pose proof (SFnonneg_value _ Hnn) as HW.
  rewrite pow2_m53 in Herr.
  destruct (elem_real (B2R x) (B2R mag) (SF2R z0) (pow2 (-1075)) HM HX HW
              ltac:(lra) Herr) as (H1 & H2 & H3).
  assert (HYY : B2R (x / mag)%float * B2R (x / mag)%float = SF2R z0 * SF2R z0).
  { unfold B2R at 1 2. destruct Hz as [->| ->]; [reflexivity|].
    rewrite SF2R_opp. ring. }
  rewrite HYY. split; [|split; [exact H1 | split; [exact H2 | exact H3]]].
  destruct Hz as [->| ->]; [|apply SFfin_opp]; apply SFnonneg_fin, Hnn.
Qed.

(** The magnitude of the vector of the elements [f i / mag], where [mag] is
    the computed magnitude of [f 0 .. f (n-1)], is within [4e-10] of 1, for
    up to a million elements and a finite [mag] above [1e-10]. *)
Lemma normalized_magnitude (f : nat -> float) (n : nat) :
  let mag := PrimFloat.sqrt
               (for_count n 0 (fun i sum => (sum + f i * f i)%float) 0%float) in
  let mag' := PrimFloat.sqrt
                (for_count n 0
                   (fun i sum => (sum + (f i / mag) * (f i / mag))%float) 0%float) in
  (CLASSIFIER_EPSILON <? mag)%float = true -> (mag <? infinity)%float = true ->
  (Z.of_nat n <= 1000000)%Z ->
  SFnonneg (Prim2SF mag') /\ 1 - 4e-10 <= B2R mag' <= 1 + 4e-10.
Proof.
  intros mag mag' Hgt Hfin Hn.
  destruct (magnitude_accepted mag Hgt Hfin) as [(mm & em & Hmag) HMlow].
  pose proof eta_small as He. pose proof (pow2_pos (-1075)) as He0.
  pose proof pow2_1023_big as Hbig.
  (* pass 1 *)
  pose proof (sum_squares_inv f n) as H1. cbv zeta in H1.
  set (s := for_count n 0 (fun i sum => (sum + f i * f i)%float) 0%float) in *.
  assert (Hms : Prim2SF mag = SFsqrt prec emax (Prim2SF s))
    by (unfold mag; rewrite sqrt_spec; reflexivity).
  destruct H1 as [[Hbad _]|(Hs & Hall & Hslo & Hshi)].
  { apply SFsqrt_bad in Hbad. rewrite <- Hms, Hmag in Hbad.
    destruct Hbad; discriminate. }
  pose proof (SFsqrt_nonneg _ Hs) as Hr. rewrite <- Hms in Hr.
  fold (B2R s) in Hr.
  destruct Hr as [[Hinf _]|[_ Herr]]; [rewrite Hmag in Hinf; discriminate|].
  fold (B2R mag) in Herr. rewrite pow2_m53 in Herr.
  set (X := fun i => B2R (f i)) in *.
  destruct (sum_bounds_numeric X n Hn) as [Hhi Hlo].
  pose proof (SFnonneg_value _ Hs) as Hs0. fold (B2R s) in Hs0.
  pose proof (sum_sq_nonneg X n) as HS0.
  destruct (pass1_real (sum_sq X n) (B2R s) (B2R mag) (pow2 (-1075)))
    as [Hrlo Hrhi]; try lra.
  assert (HM : 0 < B2R mag) by lra.
  assert (HMM : 0 < B2R mag * B2R mag) by (apply Rmult_lt_0_compat; exact HM).
  set (M2 := B2R mag * B2R mag) in *.
  (* the elements of the normalized vector *)
  set (g := fun i => (f i / mag)%float).
  assert (Helem : forall i, (i < n)%nat ->
            SFfin (Prim2SF (g i)) /\
            M2 * (B2R (g i) * B2R (g i))
            <= (1 + / 9007199254740992) * (1 + / 9007199254740992) * (X i * X i)
               + 3 * pow2 (-1075) * M2 /\
            (1 - / 9007199254740992) * (1 - / 9007199254740992) * (X i * X i)
            - 3 * pow2 (-1075) * M2 <= M2 * (B2R (g i) * B2R (g i))).
  { intros i Hi.
    pose proof (sum_sq_elem X n i Hi) as Hxi.
    destruct (normalized_element (f i) mag mm em (Hall i Hi) Hmag)
      as (Hf & Hu & Hl & _); [fold (X i); fold M2; lra|].
    split; [exact Hf|]. split; [exact Hu | exact Hl]. }
  set (Y := fun i => B2R (g i)).
  assert (HSY : (1 - / 9007199254740992) * (1 - / 9007199254740992) * (1 - 2.3e-10)
                - 3e-44 <= sum_sq Y n
                <= (1 + / 9007199254740992) * (1 + / 9007199254740992) * (1 + 1.2e-10)
                   + 3e-44).
  { pose proof (sum_sq_upper X Y M2
                  ((1 + / 9007199254740992) * (1 + / 9007199254740992))
                  (3 * pow2 (-1075) * M2) n
                  (fun i Hi => proj1 (proj2 (Helem i Hi)))) as Hup.
    pose proof (sum_sq_lower X Y M2
                  ((1 - / 9007199254740992) * (1 - / 9007199254740992))
                  (3 * pow2 (-1075) * M2) n
                  (fun i Hi => proj2 (proj2 (Helem i Hi)))) as Hdn.
    pose proof (INR_bound n Hn) as HN.
    assert (Ht : 0 <= INR n * pow2 (-1075) <= 1e-44).
    { assert (0 <= INR n * pow2 (-1075) <= 1000000 * pow2 (-1075)) by (split; nra).
      split; lra. }
    set (t := INR n * pow2 (-1075)) in *.
    replace (INR n * (3 * pow2 (-1075) * M2)) with (M2 * (3 * t)) in Hup, Hdn
      by (unfold t; ring).
    split.
    - apply Rmult_le_reg_l with M2; [exact HMM|].
      apply Rle_trans with (2 := Hdn).
      assert ((1 - / 9007199254740992) * (1 - / 9007199254740992)
              * ((1 - 2.3e-10) * M2)
              <= (1 - / 9007199254740992) * (1 - / 9007199254740992) * sum_sq X n)
        by (apply Rmult_le_compat_l; lra).
      assert (M2 * (3 * t) <= M2 * 3e-44) by (apply Rmult_le_compat_l; lra).
      lra.
    - apply Rmult_le_reg_l with M2; [exact HMM|].
      apply Rle_trans with (1 := Hup).
      assert ((1 + / 9007199254740992) * (1 + / 9007199254740992) * sum_sq X n
              <= (1 + / 9007199254740992) * (1 + / 9007199254740992)
                 * ((1 + 1.2e-10) * M2))
        by (apply Rmult_le_compat_l; lra).
      assert (M2 * (3 * t) <= M2 * 3e-44) by (apply Rmult_le_compat_l; lra).
      lra. }
  (* pass 2 *)
  pose proof (sum_squares_inv g n) as H2. cbv zeta in H2.
  fold Y in H2.
  set (s' := for_count n 0 (fun i sum => (sum + g i * g i)%float) 0%float) in *.
  assert (Hms' : Prim2SF mag' = SFsqrt prec emax (Prim2SF s'))
    by (unfold mag'; rewrite sqrt_spec; reflexivity).
  destruct (sum_bounds_numeric Y n Hn) as [Hhi' Hlo'].
  destruct H2 as [[_ [(i & Hi & Hnf)|Hov]]|(Hs' & _ & Hslo' & Hshi')].
  { destruct (Hnf (proj1 (Helem i Hi))). }
  { lra. }
  pose proof (SFnonneg_value _ Hs') as Hs0'. fold (B2R s') in Hs0'.
  pose proof (SFsqrt_nonneg _ Hs') as Hr'. rewrite <- Hms' in Hr'.
  fold (B2R s') in Hr'.
  assert (Hs4 : B2R s' <= 4) by lra.
  assert (Hsq4 : sqrt (B2R s') <= 2).
  { replace 2 with (sqrt (2 * 2)) by (apply sqrt_square; lra).
    apply sqrt_le_1_alt. lra. }
  destruct Hr' as [[_ Hinf]|[Hnn' Herr']]; [lra|].
  split; [exact Hnn'|].
  fold (B2R mag') in Herr'. rewrite pow2_m53 in Herr'.
  apply (pass2_real (sum_sq Y n) (B2R s') (B2R mag') (pow2 (-1075))); try lra.
Qed.


Lemma tolerance_values :
  B2R 0.9999999995%float <= 1 - 4e-10 /\ 1 + 4e-10 <= B2R 1.0000000005%float.
Proof.
  unfold B2R.
  change (SF2R (Prim2SF 0.9999999995%float))
    with (IZR 9007199250237392 * pow2 (-53)).
  change (SF2R (Prim2SF 1.0000000005%float))
    with (IZR 4503599629622296 * pow2 (-52)).
  replace (-52)%Z with (-53 + 1)%Z by lia. rewrite pow2_succ, pow2_m53. lra.
Qed.

(** The comparison [x <= y] of two finite non-negative binary64 numbers
    holds when it holds of their values. *)
Lemma leb_of_values (x y : float) :
  SFnonneg (Prim2SF x) -> SFnonneg (Prim2SF y) -> B2R x <= B2R y ->
  (x <=? y)%float = true.
Proof.
  intros Hx Hy Hle. rewrite leb_spec. unfold SFleb.
  pose proof (SFcompare_nonneg _ _ (Prim2SF_valid x) (Prim2SF_valid y) Hx Hy) as Hc.
  fold (B2R x) in Hc. fold (B2R y) in Hc.
  destruct (SFcompare (Prim2SF x) (Prim2SF y)) as [[]|]; try reflexivity.
  - lra.
  - destruct Hc.
Qed.

(** The magnitude of a normalized vector, as [cvector_magnitude] computes it,
    is within [5e-10] of 1. *)
Lemma cvector_normalize_unit (v : CVector) :
  (CLASSIFIER_EPSILON <? cvector_magnitude v)%float = true ->
  (cvector_magnitude v <? infinity)%float = true ->
  (Z.of_nat (v_size v) <= 1000000)%Z ->
  (0.9999999995 <=? cvector_magnitude (cvector_normalize v))%float = true /\
  (cvector_magnitude (cvector_normalize v) <=? 1.0000000005)%float = true.
Proof.
  intros Hgt Hfin Hn.
  set (f := fun i => rd (v_data v) i).
  assert (Hmag : cvector_magnitude v
                 = PrimFloat.sqrt
                     (for_count (v_size v) 0
                        (fun i sum => (sum + f i * f i)%float) 0%float)).
  { unfold cvector_magnitude, for_range. rewrite Nat.sub_0_r. reflexivity. }
  assert (Hnorm : cvector_magnitude (cvector_normalize v)
                  = PrimFloat.sqrt
                      (for_count (v_size v) 0
                         (fun i sum => (sum + (f i / cvector_magnitude v)
                                              * (f i / cvector_magnitude v))%float)
                         0%float)).
  { unfold cvector_normalize.
    rewrite (ltb_leb_false _ _ Hgt).
    unfold cvector_alloc, set_is_col. simpl.
    rewrite (vec_fill (fun i => (rd (v_data v) i / cvector_magnitude v)%float)).
    unfold cvector_magnitude at 1. simpl v_size. simpl v_data.
    unfold for_range. rewrite Nat.sub_0_r. f_equal.
    apply for_count_ext. intros i t Hi.
    rewrite rd_map_seq by lia. reflexivity. }
  rewrite Hmag in Hgt, Hfin.
  pose proof (normalized_magnitude f (v_size v) Hgt Hfin Hn) as [Hnn Hb].
  rewrite <- Hmag in Hnn, Hb. rewrite <- Hnorm in Hnn, Hb.
  destruct tolerance_values as [Hlo Hhi].
  split; apply leb_of_values; try exact Hnn; try exact I; lra.
Qed.

End UnitNorm.

(** ** Accumulation of many equal squares *)

Section Accumulation.

Local Open Scope R_scope.

(** Rounding up: a mantissa whose discarded bits are above the midpoint. *)
Lemma binary_round_aux_up (m e n m1 : Z) :
  (0 < m)%Z -> (0 < n)%Z ->
  fexp prec emax (Zdigits2 m + e) = (e + n)%Z -> (e + n <= 971)%Z ->
  m1 = (m / 2 ^ n)%Z -> (0 <= m1)%Z -> (m1 + 1 < 2 ^ 53)%Z ->
  (2 ^ n < 2 * (m mod 2 ^ n))%Z ->
  binary_round_aux prec emax false m e loc_Exact
  = S754_finite false (Z.to_pos (m1 + 1)) (e + n).
Proof.
  intros Hm Hn Hfexp Hmax Hm1 Hm10 Hm1b Hrem.
  unfold binary_round_aux, shr_fexp. rewrite Hfexp.
  replace (e + n - e)%Z with n by lia.
  set (x := IZR m * pow2 e).
  assert (Hloc : located x m e loc_Exact) by reflexivity.
  pose proof (shr_spec m e n loc_Exact x ltac:(lia) ltac:(lia) Hloc) as Hs.
  destruct (shr (shr_record_of_loc m loc_Exact) e n) as [mrs e1].
  destruct Hs as (-> & Hmrs & Hl). rewrite <- Hm1 in Hmrs. rewrite Hmrs in *.
  assert (Hp : (0 < 2 ^ n)%Z) by (apply Z.pow_pos_nonneg; lia).
  pose proof (Z.div_mod m (2 ^ n) ltac:(lia)) as Hdm. rewrite <- Hm1 in Hdm.
  pose proof (Z.mod_pos_bound m (2 ^ n) Hp) as Hmod.
  set (r := (m mod 2 ^ n)%Z) in *.
  (* the exact value is strictly above the midpoint *)
  assert (Hx : (IZR m1 + / 2) * pow2 (e + n) < x < (IZR m1 + 1) * pow2 (e + n)).
  { unfold x. rewrite Hdm, plus_IZR, mult_IZR, pow2_add. rewrite (pow2_IZR n) by lia.
    pose proof (pow2_pos e) as Hpe. pose proof (pow2_pos n) as Hpn.
    assert (Hr1 : pow2 n < 2 * IZR r).
    { rewrite <- pow2_IZR by lia. rewrite <- mult_IZR. apply IZR_lt. lia. }
    assert (Hr2 : IZR r < pow2 n).
    { rewrite <- pow2_IZR by lia. apply IZR_lt. lia. }
    split; nra. }
  assert (Hgt : loc_of_shr_record mrs = loc_Inexact Gt).
  { destruct (loc_of_shr_record mrs) as [|[]]; simpl in Hl; try lra. reflexivity. }
  rewrite Hgt. simpl round_nearest_even.
  rewrite shr_nonpos.
  - simpl shr_m.
    destruct (m1 + 1)%Z as [|p|p] eqn:Ep; [lia| |lia].
    rewrite (proj2 (Z.leb_le _ _)) by (change (emax - prec)%Z with 971%Z; lia).
    reflexivity.
  - rewrite fexp_eq.
    assert (Zdigits2 (m1 + 1) <= 53)%Z by (apply Zdigits2_le; lia).
    assert (-1074 <= e + n)%Z by (rewrite <- Hfexp, fexp_eq; lia).
    lia.
Qed.

(** Adding a number between half a unit and a unit in the last place of a
    normal number moves it up by one unit. *)
Lemma SFadd_step (M mt : positive) (e et : Z) :
  (2 ^ 52 <= Z.pos M)%Z -> (Z.pos M + 1 < 2 ^ 53)%Z ->
  (-1074 <= e <= 971)%Z -> (et < e)%Z ->
  (Z.pos mt < 2 ^ (e - et))%Z -> (2 ^ (e - et) < 2 * Z.pos mt)%Z ->
  SFadd prec emax (S754_finite false M e) (S754_finite false mt et)
  = S754_finite false (M + 1) e.
Proof.
  intros HM1 HM2 He Het Hmt1 Hmt2.
  unfold SFadd, cond_Zopp.
  replace (Z.min e et) with et by lia.
  pose proof (shl_align_spec M e et) as [_ Ha].
  pose proof (shl_align_spec mt et et) as [_ Hb].
  replace (Z.min e et) with et in Ha by lia.
  replace (Z.min et et) with et in Hb by lia.
  rewrite Z.sub_diag in Hb. simpl in Hb. rewrite Z.mul_1_r in Hb.
  set (ma := fst (shl_align M e et)) in *.
  set (mb := fst (shl_align mt et et)) in *.
  rewrite <- Pos2Z.inj_add. unfold binary_normalize, binary_round.
  set (k := (e - et)%Z) in *.
  assert (Hk : (0 < k)%Z) by (unfold k; lia).
  assert (Hp : (0 < 2 ^ k)%Z) by (apply Z.pow_pos_nonneg; lia).
  assert (Hsum : Z.pos (ma + mb) = (Z.pos M * 2 ^ k + Z.pos mt)%Z)
    by (rewrite Pos2Z.inj_add, Ha, Hb; reflexivity).
  assert (Hdig : Zdigits2 (Z.pos (ma + mb)) = (53 + k)%Z).
  { apply Z.le_antisymm.
    - apply Zdigits2_le; [lia | lia|].
      rewrite Hsum, Z.pow_add_r by lia. nia.
    - replace (53 + k)%Z with ((52 + k) + 1)%Z by lia.
      apply Zdigits2_ge; [lia|].
      rewrite Hsum, Z.pow_add_r by lia. nia. }
  assert (Hfexp : fexp prec emax (Z.pos (digits2_pos (ma + mb)) + et) = e).
  { change (Z.pos (digits2_pos (ma + mb))) with (Zdigits2 (Z.pos (ma + mb))).
    rewrite Hdig, fexp_eq. unfold k. lia. }
  rewrite Hfexp.
  pose proof (shl_align_spec (ma + mb) et e) as [Hs1 Hs2].
  replace (Z.min et e) with et in Hs1, Hs2 by lia.
  rewrite Z.sub_diag in Hs2. simpl in Hs2. rewrite Z.mul_1_r in Hs2.
  destruct (shl_align (ma + mb) et e) as [mz ez]. simpl in Hs1, Hs2. subst ez.
  rewrite Hs2.
  rewrite (binary_round_aux_up (Z.pos (ma + mb)) et k (Z.pos M)).
  - replace (et + k)%Z with e by (unfold k; lia).
    rewrite <- Pos2Z.inj_add. reflexivity.
  - lia.
  - exact Hk.
  - rewrite Hdig, fexp_eq. unfold k. lia.
  - unfold k. lia.
  - rewrite Hsum. apply (Z.div_unique _ _ _ (Z.pos mt)); lia.
  - lia.
  - exact HM2.
  - rewrite Hsum.
    replace ((Z.pos M * 2 ^ k + Z.pos mt) mod 2 ^ k)%Z with (Z.pos mt).
    + exact Hmt2.
    + apply (Z.mod_unique _ _ (Z.pos M)); lia.
Qed.

End Accumulation.

Lemma float_of_valid (M e : Z) :
  (2 ^ 52 <= M)%Z -> (M < 2 ^ 53)%Z -> (-1074 <= e <= 971)%Z ->
  valid_binary (S754_finite false (Z.to_pos M) e) = true.
Proof.
  intros H1 H2 He. destruct M as [|p|p]; try lia.
  change (Z.to_pos (Z.pos p)) with p.
  assert (Hd : Zdigits2 (Z.pos p) = 53%Z).
  { apply Z.le_antisymm.
    - apply Zdigits2_le; lia.
    - change 53%Z with (52 + 1)%Z. apply Zdigits2_ge; lia. }
  simpl in Hd. simpl. unfold SpecFloat.bounded, SpecFloat.canonical_mantissa.
  rewrite Hd, fexp_eq.
  apply andb_true_intro. split.
  - apply Z.eqb_eq. lia.
  - apply Z.leb_le. change (emax - prec)%Z with 971%Z. lia.
Qed.

(** One step of the accumulation on binary64 numbers. *)
Lemma float_of_step (t : float) (mt : positive) (e et M : Z) :
  Prim2SF t = S754_finite false mt et ->
  (-1074 <= e <= 971)%Z -> (et < e)%Z ->
  (Z.pos mt < 2 ^ (e - et))%Z -> (2 ^ (e - et) < 2 * Z.pos mt)%Z ->
  (2 ^ 52 <= M)%Z -> (M + 1 < 2 ^ 53)%Z ->
  (float_of M e + t)%float = float_of (M + 1) e.
Proof.
  intros Ht He Het Hmt1 Hmt2 HM1 HM2.
  apply Prim2SF_inj. rewrite add_spec. unfold float_of.
  rewrite !Prim2SF_SF2Prim by (apply float_of_valid; lia).
  rewrite Ht. unfold SF64add. rewrite SFadd_step; try assumption.
  - f_equal. apply Pos2Z.inj. rewrite Pos2Z.inj_add, !Z2Pos.id by lia. reflexivity.
  - rewrite Z2Pos.id by lia. exact HM1.
  - rewrite Z2Pos.id by lia. exact HM2.
Qed.

(** A sum of squares whose terms after the first are all the same number
    [t], between half a unit and a unit in the last place of the running sum:
    every addition rounds up by one unit. *)
Lemma sum_squares_equal_terms (f : nat -> float) (t : float) (mt : positive)
    (e et : Z) (k lo : nat) (M : Z) :
  Prim2SF t = S754_finite false mt et ->
  (-1074 <= e <= 971)%Z -> (et < e)%Z ->
  (Z.pos mt < 2 ^ (e - et))%Z -> (2 ^ (e - et) < 2 * Z.pos mt)%Z ->
  (forall i, lo <= i < lo + k -> (f i * f i)%float = t) ->
  (2 ^ 52 <= M)%Z -> (M + Z.of_nat k < 2 ^ 53)%Z ->
  for_count k lo (fun i sum => (sum + f i * f i)%float) (float_of M e)
  = float_of (M + Z.of_nat k) e.
Proof.
  intros Ht He Het Hmt1 Hmt2. revert lo M.
  induction k as [|k IH]; intros lo M Hf HM1 HM2.
  - simpl for_count. rewrite Nat2Z.inj_0, Z.add_0_r. reflexivity.
  - rewrite for_count_S, Hf by lia.
    rewrite (float_of_step t mt e et M Ht He Het Hmt1 Hmt2 HM1) by lia.
    rewrite IH; [f_equal; lia | | lia | lia].
    intros i Hi. apply Hf. lia.
Qed.

Section LongVector.

Variable K : nat.
Hypothesis HK : Z.of_nat K = 30000000%Z.

Let vK : CVector := mkCVector (S K) (long_head :: replicate K long_tail) 0.

Lemma rd_long_tail (i : nat) :
  1 <= i < 1 + K -> rd (long_head :: replicate K long_tail) i = long_tail.
Proof.
  intros Hi. destruct i as [|i]; [lia|].
  apply rd_lookup. simpl lookup. apply lookup_replicate_2. lia.
Qed.

Lemma long_vector_magnitude : cvector_magnitude vK = long_magnitude.
Proof.
  unfold cvector_magnitude, for_range, vK. cbn [v_size v_data].
  rewrite Nat.sub_0_r, for_count_S.
  change (0 + rd (long_head :: replicate K long_tail) 0
              * rd (long_head :: replicate K long_tail) 0)%float
    with (0 + long_head * long_head)%float.
  replace (0 + long_head * long_head)%float with (float_of 4504049987333232 (-52))
    by (vm_compute; reflexivity).
  rewrite (sum_squares_equal_terms _ (long_tail * long_tail)%float
             4503599717069938 (-52) (-105)).
  - rewrite HK. reflexivity.
  - vm_compute; reflexivity.
  - lia.
  - lia.
  - vm_compute; reflexivity.
  - vm_compute; reflexivity.
  - intros i Hi. rewrite rd_long_tail by lia. reflexivity.
  - vm_compute. discriminate.
  - rewrite HK. vm_compute. reflexivity.
Qed.

Lemma long_vector_normalized :
  cvector_normalize vK
  = mkCVector (S K)
      (map (fun i => (rd (long_head :: replicate K long_tail) i / long_magnitude)%float)
         (seq 0 (S K))) 0.
Proof.
  unfold cvector_normalize. rewrite long_vector_magnitude.
  replace (long_magnitude <=? CLASSIFIER_EPSILON)%float with false
    by (vm_compute; reflexivity).
  unfold cvector_alloc, set_is_col, vK. cbn [v_size v_data v_is_col].
  apply vec_fill.
Qed.

Lemma long_vector_normalized_magnitude :
  cvector_magnitude (cvector_normalize vK)
  = PrimFloat.sqrt (float_of 9007199224746992 (-53)).
Proof.
  rewrite long_vector_normalized.
  unfold cvector_magnitude, for_range. cbn [v_size v_data].
  rewrite Nat.sub_0_r.
  rewrite (for_count_ext (S K) 0 _
             (fun i sum =>
                (sum + (rd (long_head :: replicate K long_tail) i / long_magnitude)
                       * (rd (long_head :: replicate K long_tail) i / long_magnitude))%float)).
  2:{ intros i t Hi. rewrite rd_map_seq by lia. reflexivity. }
  rewrite for_count_S.
  change (rd (long_head :: replicate K long_tail) 0) with long_head.
  replace (0 + long_head / long_magnitude * (long_head / long_magnitude))%float
    with (float_of 9007199194746992 (-53)) by (vm_compute; reflexivity).
  rewrite (sum_squares_equal_terms _
             (long_tail / long_magnitude * (long_tail / long_magnitude))%float
             9006298744271450 (-53) (-106)).
  - rewrite HK. reflexivity.
  - vm_compute; reflexivity.
  - lia.
  - lia.
  - vm_compute; reflexivity.
  - vm_compute; reflexivity.
  - intros i Hi. rewrite rd_long_tail by lia. reflexivity.
  - vm_compute. discriminate.
  - rewrite HK. vm_compute. reflexivity.
Qed.

End LongVector.

Lemma long_count_value : Z.of_nat long_count = 30000000%Z.
Proof. unfold long_count. apply Z2Nat.id. lia. Qed.

(** ** [cvector_normalize] *)

Example cvector_normalize_3_4 :
  cvector_normalize vector_3_4
  = mkCVector 2 [(3 / 5)%float; (4 / 5)%float] 1.
Proof. vm_compute. reflexivity. Qed.

Example cvector_normalize_3_4_unit :
  cvector_magnitude (cvector_normalize vector_3_4) = 1%float.
Proof. vm_compute. reflexivity. Qed.

(** C7, as the code has it: [cvector_normalize] returns a vector of the size
    and orientation tag of its argument.  When the magnitude is above 1e-10
    every element is the element of the argument divided by the magnitude;
    when the magnitude is at most 1e-10 the result is the all-zero vector of
    that size (whatever the argument holds).  When the magnitude is above
    1e-10 and finite (the sum of the squares did not overflow) and the vector
    has at most a million elements, the magnitude of the result, computed by
    [cvector_magnitude], lies between 0.9999999995 and 1.0000000005: it is 1.0
    within the tolerance 1e-9.  The function is pure: the argument is only
    read. *)
Theorem cvector_normalize_spec (v : CVector) :
  v_size (cvector_normalize v) = v_size v /\
  v_is_col (cvector_normalize v) = v_is_col v /\
  ((CLASSIFIER_EPSILON <? cvector_magnitude v)%float = true ->
   v_data (cvector_normalize v)
   = map (fun i => (rd (v_data v) i / cvector_magnitude v)%float)
       (seq 0 (v_size v))) /\
  ((cvector_magnitude v <=? CLASSIFIER_EPSILON)%float = true ->
   v_data (cvector_normalize v) = replicate (v_size v) 0%float) /\
  ((CLASSIFIER_EPSILON <? cvector_magnitude v)%float = true ->
   (cvector_magnitude v <? infinity)%float = true ->
   (Z.of_nat (v_size v) <= 1000000)%Z ->
   (0.9999999995 <=? cvector_magnitude (cvector_normalize v))%float = true /\
   (cvector_magnitude (cvector_normalize v) <=? 1.0000000005)%float = true).
Proof.
  split; [|split; [|split; [|split]]].
  - unfold cvector_normalize, cvector_alloc, set_is_col. simpl.
    destruct (cvector_magnitude v <=? CLASSIFIER_EPSILON)%float;
      [reflexivity | rewrite vec_fill; reflexivity].
  - unfold cvector_normalize, cvector_alloc, set_is_col. simpl.
    destruct (cvector_magnitude v <=? CLASSIFIER_EPSILON)%float;
      [reflexivity | rewrite vec_fill; reflexivity].
  - intros Hgt. unfold cvector_normalize, cvector_alloc, set_is_col. simpl.
    rewrite (ltb_leb_false _ _ Hgt), vec_fill. reflexivity.
  - intros Hle. unfold cvector_normalize, cvector_alloc, set_is_col. simpl.
    rewrite Hle. reflexivity.
  - apply cvector_normalize_unit.
Qed.

(** C7, the claim as stated fails: a vector of magnitude 1e-11 is not returned
    unchanged but replaced by the zero vector; a vector whose squared
    magnitude overflows is normalized to a vector of magnitude 0, not 1; and
    the vector [long_vector] of 30,000,001 elements, of finite magnitude
    above 1e-10, is normalized to a vector whose magnitude is below
    0.999999999, more than 1e-9 away from 1.0. *)
Lemma cvector_normalize_not_identity_on_small :
  ((cvector_magnitude tiny_vector <=? CLASSIFIER_EPSILON)%float = true /\
   cvector_normalize tiny_vector <> tiny_vector) /\
  ((CLASSIFIER_EPSILON <? cvector_magnitude huge_vector)%float = true /\
   cvector_magnitude (cvector_normalize huge_vector) = 0%float) /\
  (Z.of_nat (v_size long_vector) = 30000001%Z /\
   (CLASSIFIER_EPSILON <? cvector_magnitude long_vector)%float = true /\
   (cvector_magnitude long_vector <? infinity)%float = true /\
   (cvector_magnitude (cvector_normalize long_vector) <? 0.999999999)%float = true).
Proof.
  split; [|split].
  - split; [vm_compute; reflexivity|].
    intros H. apply (f_equal (fun w => (0 <? rd (v_data w) 0)%float)) in H.
    vm_compute in H. discriminate H.
  - split; vm_compute; reflexivity.
  - unfold long_vector. split.
    + cbn [v_size]. rewrite Nat2Z.inj_succ, long_count_value. reflexivity.
    + rewrite (long_vector_magnitude long_count long_count_value).
      rewrite (long_vector_normalized_magnitude long_count long_count_value).
      repeat split; vm_compute; reflexivity.
Qed.

(** ** [Matrix#batch_project] on an empty array *)

(** C10: with an empty array of vectors [batch_project] returns an empty
    array and raises nothing, whatever the matrix is (zero rows or columns
    included): the result does not depend on the matrix. *)
Theorem batch_project_empty (u : CMatrix) :
  rb_cmatrix_batch_project u [] = Ok [] /\
  (forall u' : CMatrix,
     rb_cmatrix_batch_project u' [] = rb_cmatrix_batch_project u []) /\
  rb_cmatrix_batch_project (cmatrix_alloc 0 0) [] = Ok [] /\
  cbatch_project u [] 0 = Ok [].
Proof. repeat split. Qed.

(** ** The shapes [jacobi_svd] works with *)

Lemma dims_inv (m : CMatrix) (r c : nat) :
  dims m = (r, c) -> m_rows m = r /\ m_cols m = c.
Proof. unfold dims. intros H. injection H. auto. Qed.

Lemma gram_matrix_ok (a : CMatrix) :
  exists w, gram_matrix a = Ok (w, gram_transposed a) /\
            dims w = (gram_size a, gram_size a).
Proof.
  destruct (dims_inv _ _ _ (dims_cmatrix_transpose a)) as [H1 H2].
  unfold gram_matrix, gram_transposed, gram_size.
  destruct (m_cols a <=? m_rows a) eqn:Hle; simpl.
  - destruct (cmatrix_multiply_ok (cmatrix_transpose a) a) as [w [Hw Hd]];
      [exact H2|].
    rewrite Hw. simpl. exists w. split; [reflexivity|].
    rewrite Hd, H1. reflexivity.
  - destruct (cmatrix_multiply_ok a (cmatrix_transpose a)) as [w [Hw Hd]];
      [symmetry; exact H1|].
    rewrite Hw. simpl. exists w. split; [reflexivity|].
    rewrite Hd, H2. reflexivity.
Qed.

Lemma pair_dims_loop n lo (body : nat -> CMatrix * CMatrix -> CMatrix * CMatrix) qv :
  (forall i t, pair_dims (body i t) = pair_dims t) ->
  pair_dims (for_count n lo body qv) = pair_dims qv.
Proof.
  intros Hb. apply (for_count_inv (fun t => pair_dims t = pair_dims qv));
    [reflexivity|].
  intros i t Ht. rewrite Hb. exact Ht.
Qed.

Lemma pair_dims_apply_jacobi_rotation q v p r cosine sine :
  pair_dims (apply_jacobi_rotation q v p r cosine sine) = pair_dims (q, v).
Proof.
  unfold apply_jacobi_rotation, pair_dims, for_range. simpl.
  rewrite !dims_loop; [reflexivity| | |]; intros i t; reflexivity.
Qed.

Lemma singular_values_with_size fsqrt q size :
  v_size (singular_values_with fsqrt q size) = size.
Proof.
  unfold singular_values_with, for_range. rewrite vec_loop_size; reflexivity.
Qed.

(** The singular values, element by element. *)
Lemma singular_values_with_data fsqrt q size :
  v_data (singular_values_with fsqrt q size)
  = map (fun i => if (0 <? MAT_AT q i i)%float then fsqrt (MAT_AT q i i)
                  else 0%float) (seq 0 size).
Proof.
  unfold singular_values_with, cvector_alloc.
  rewrite (vec_fill (fun i => if (0 <? MAT_AT q i i)%float
                              then fsqrt (MAT_AT q i i) else 0%float)).
  reflexivity.
Qed.

Section JacobiShapes.

Variables atan cos sin : float -> float.

Lemma pair_dims_jacobi_rotate_pair p r qv :
  pair_dims (jacobi_rotate_pair atan cos sin p r qv) = pair_dims qv.
Proof.
  destruct qv as [q v]. unfold jacobi_rotate_pair.
  apply pair_dims_apply_jacobi_rotation.
Qed.

Lemma pair_dims_jacobi_sweep size qv :
  pair_dims (jacobi_sweep atan cos sin size qv) = pair_dims qv.
Proof.
  unfold jacobi_sweep, for_range. apply pair_dims_loop. intros p t.
  apply pair_dims_loop. intros r t'. apply pair_dims_jacobi_rotate_pair.
Qed.

Lemma pair_dims_jacobi_sweeps n sweep size q v prev_q :
  pair_dims (jacobi_sweeps atan cos sin n sweep size q v prev_q) = pair_dims (q, v).
Proof.
  revert sweep q v prev_q. induction n as [|n IH]; intros sweep q v prev_q;
    simpl; [reflexivity|].
  pose proof (pair_dims_jacobi_sweep size (q, v)) as Hs.
  destruct (jacobi_sweep atan cos sin size (q, v)) as [q' v'].
  destruct (sweep =? 0); [rewrite IH; exact Hs|].
  destruct prev_q as [pq|]; [|exact Hs].
  destruct (_ <=? _)%float; [exact Hs | rewrite IH; exact Hs].
Qed.

Lemma pair_dims_jacobi_iterate w :
  pair_dims (jacobi_iterate atan cos sin w) = (dims w, (m_rows w, m_rows w)).
Proof.
  unfold jacobi_iterate. rewrite pair_dims_jacobi_sweeps.
  unfold pair_dims. simpl. rewrite dims_cmatrix_identity. reflexivity.
Qed.

(** [jacobi_svd] never raises; [U] is [source * V * S^(-1)], with as many rows
    as the source and as many columns as the Gram matrix has, and the singular
    values are read off the diagonal of the iterated matrix. *)
Lemma jacobi_svd_ok (a : CMatrix) :
  exists w q u v temp,
    gram_matrix a = Ok (w, gram_transposed a) /\
    jacobi_iterate atan cos sin w = (q, v) /\
    cmatrix_multiply
      (if gram_transposed a then cmatrix_transpose a else cmatrix_clone a) v
    = Ok temp /\
    cmatrix_multiply temp
      (inverse_diagonal (singular_values q (gram_size a)) (gram_size a)) = Ok u /\
    jacobi_svd atan cos sin a = Ok (u, v, singular_values q (gram_size a)) /\
    dims u = (if gram_transposed a then m_cols a else m_rows a, gram_size a) /\
    dims v = (gram_size a, gram_size a).
Proof.
  destruct (gram_matrix_ok a) as [w [Hw Hdw]].
  pose proof (pair_dims_jacobi_iterate w) as Hit.
  destruct (jacobi_iterate atan cos sin w) as [q v] eqn:Hqv.
  assert (Hdv : dims v = (gram_size a, gram_size a)).
  { apply dims_inv in Hdw. destruct Hdw as [Hw1 _].
    apply (f_equal snd) in Hit. simpl in Hit. rewrite Hit, Hw1. reflexivity. }
  apply dims_inv in Hdw. destruct Hdw as [Hw1 Hw2].
  destruct (dims_inv _ _ _ Hdv) as [Hv1 Hv2].
  set (source := if gram_transposed a then cmatrix_transpose a else cmatrix_clone a).
  assert (Hsrc : dims source
                 = (if gram_transposed a then m_cols a else m_rows a, gram_size a)).
  { unfold source, gram_transposed, gram_size.
    destruct (m_cols a <=? m_rows a) eqn:Hle; simpl.
    - reflexivity.
    - apply dims_cmatrix_transpose. }
  destruct (dims_inv _ _ _ Hsrc) as [Hs1 Hs2].
  destruct (cmatrix_multiply_ok source v) as [temp [Ht Hdt]]; [congruence|].
  destruct (dims_inv _ _ _ Hdt) as [Ht1 Ht2].
  set (s_inv := inverse_diagonal (singular_values q (gram_size a)) (gram_size a)).
  destruct (dims_inv _ _ _ (dims_inverse_diagonal
              (singular_values q (gram_size a)) (gram_size a))) as [Hd1 Hd2].
  fold s_inv in Hd1, Hd2.
  destruct (cmatrix_multiply_ok temp s_inv) as [u [Hu Hdu]]; [congruence|].
  exists w, q, u, v, temp. repeat split; try assumption.
  - unfold jacobi_svd. rewrite Hw. simpl. rewrite Hqv.
    fold source. rewrite Ht. simpl. rewrite Hw1. fold s_inv. rewrite Hu.
    reflexivity.
  - rewrite Hdu, Hd2, Ht1, Hs1. reflexivity.
Qed.

End JacobiShapes.

(** ** [jacobi_svd]: the transposed branch *)

Section JacobiClaims.

Variables atan cos sin : float -> float.

(** C2, as the code has it: for an input with at least one row and fewer
    rows than columns ([0 < m < n], the transposed branch) [jacobi_svd]
    returns [U = source * V * S^(-1)] with [source] the transpose of the
    input, and no labels are swapped; this [U] has [n] rows (the rows of the
    transpose) and [m] columns, [V] is [m x m], and there are [m] singular
    values.  An input without rows is left out: its Gram matrix is [0 x 0],
    and the bound [size - 1] of the sweep wraps around to [2^64 - 1]. *)
Theorem jacobi_svd_wide (a : CMatrix) :
  0 < m_rows a -> m_rows a < m_cols a ->
  exists u v s temp,
    jacobi_svd atan cos sin a = Ok (u, v, s) /\
    cmatrix_multiply (cmatrix_transpose a) v = Ok temp /\
    cmatrix_multiply temp (inverse_diagonal s (m_rows a)) = Ok u /\
    m_rows u = m_cols a /\ m_cols u = m_rows a /\
    dims v = (m_rows a, m_rows a) /\ v_size s = m_rows a.
Proof.
  intros _ Hlt.
  destruct (jacobi_svd_ok atan cos sin a)
    as (w & q & u & v & temp & Hw & Hqv & Ht & Hu & Hsvd & Hdu & Hdv).
  assert (Htr : gram_transposed a = true).
  { unfold gram_transposed. apply negb_true_iff, Nat.leb_gt, Hlt. }
  assert (Hsz : gram_size a = m_rows a).
  { unfold gram_size. rewrite (proj2 (Nat.leb_gt _ _) Hlt). reflexivity. }
  rewrite Htr in Ht, Hdu. rewrite Hsz in Hu, Hsvd, Hdu, Hdv.
  destruct (dims_inv _ _ _ Hdu) as [Hu1 Hu2].
  exists u, v, (singular_values q (m_rows a)), temp.
  repeat split; try assumption.
  apply singular_values_with_size.
Qed.

(** ** [jacobi_svd]: the rotation angle *)

(** C5, as the code has it: when [|denominator| < 1e-10] the angle is
    [M_PI / 4] for a numerator [>= 0] and [-M_PI / 4] for a negative one;
    otherwise it is [atan(numerator / denominator) / 2].  The division is
    made exactly when the test [|denominator| < 1e-10] fails, that is when
    [|denominator| >= 1e-10] or the denominator is a NaN. *)
Theorem rotation_angle_spec (numerator denominator : float) :
  ((abs denominator <? CLASSIFIER_EPSILON)%float = true ->
   rotation_branch denominator = quarter_pi /\
   ((0 <=? numerator)%float = true ->
    rotation_angle atan numerator denominator = (M_PI / 4)%float) /\
   ((numerator <? 0)%float = true ->
    rotation_angle atan numerator denominator = (PrimFloat.opp M_PI / 4)%float)) /\
  ((abs denominator <? CLASSIFIER_EPSILON)%float = false ->
   rotation_branch denominator = half_atan /\
   rotation_angle atan numerator denominator
   = (atan (numerator / denominator) / 2)%float) /\
  (rotation_branch denominator = half_atan <->
   (CLASSIFIER_EPSILON <=? abs denominator)%float = true \/
   (denominator =? denominator)%float = false).
Proof.
  unfold rotation_angle, rotation_branch.
  split; [|split].
  - intros ->. split; [reflexivity|]. split.
    + intros ->. reflexivity.
    + intros Hneg. rewrite (ltb_leb_false _ _ Hneg). reflexivity.
  - intros ->. split; reflexivity.
  - rewrite <- abs_below_iff.
    destruct (abs denominator <? CLASSIFIER_EPSILON)%float; split;
      congruence.
Qed.

(** ** [jacobi_svd]: the singular values *)

(** C6: [jacobi_svd] returns, whatever its input, singular values that are
    all non-negative: the i-th is [sqrt(Q[i][i])] when the diagonal entry of
    the iterated matrix is positive and 0 otherwise, and [sqrt] is applied to
    positive arguments only (a square-root function that agrees with [sqrt]
    on positive numbers gives the same values). *)
Theorem jacobi_svd_singular_values (a : CMatrix) :
  exists w q u v s,
    gram_matrix a = Ok (w, gram_transposed a) /\
    jacobi_iterate atan cos sin w = (q, v) /\
    jacobi_svd atan cos sin a = Ok (u, v, s) /\
    v_size s = gram_size a /\
    length (v_data s) = gram_size a /\
    (forall i, i < gram_size a ->
       rd (v_data s) i
       = (if (0 <? MAT_AT q i i)%float then PrimFloat.sqrt (MAT_AT q i i)
          else 0%float) /\
       (0 <=? rd (v_data s) i)%float = true) /\
    (forall fsqrt : float -> float,
       (forall x, (0 <? x)%float = true -> fsqrt x = PrimFloat.sqrt x) ->
       singular_values_with fsqrt q (gram_size a) = s).
Proof.
  destruct (jacobi_svd_ok atan cos sin a)
    as (w & q & u & v & temp & Hw & Hqv & Ht & Hu & Hsvd & Hdu & Hdv).
  exists w, q, u, v, (singular_values q (gram_size a)).
  split; [exact Hw|]. split; [exact Hqv|]. split; [exact Hsvd|].
  unfold singular_values.
  split; [apply singular_values_with_size|].
  rewrite singular_values_with_data.
  split; [rewrite length_map, length_seq; reflexivity|].
  split.
  - intros i Hi. rewrite rd_map_seq by exact Hi. split; [reflexivity|].
    destruct (0 <? MAT_AT q i i)%float eqn:Hpos.
    + apply sqrt_nonneg, Hpos.
    + apply zero_nonneg.
  - intros fsqrt Hf.
    unfold singular_values_with, cvector_alloc.
    rewrite (vec_fill (fun i => if (0 <? MAT_AT q i i)%float
                                then fsqrt (MAT_AT q i i) else 0%float)).
    rewrite (vec_fill (fun i => if (0 <? MAT_AT q i i)%float
                                then PrimFloat.sqrt (MAT_AT q i i) else 0%float)).
    f_equal. apply map_ext_in. intros i _.
    destruct (0 <? MAT_AT q i i)%float eqn:Hpos; [apply Hf, Hpos | reflexivity].
Qed.

End JacobiClaims.

Lemma jacobi_svd_wide_witness :
  exists u v s temp,
    jacobi_svd no_libm no_libm no_libm wide_1x2 = Ok (u, v, s) /\
    cmatrix_multiply (cmatrix_transpose wide_1x2) v = Ok temp /\
    cmatrix_multiply temp (inverse_diagonal s (m_rows wide_1x2)) = Ok u /\
    m_rows u = m_cols wide_1x2 /\ m_cols u = m_rows wide_1x2 /\
    dims v = (m_rows wide_1x2, m_rows wide_1x2) /\ v_size s = m_rows wide_1x2.
Proof.
  apply (jacobi_svd_wide no_libm no_libm no_libm wide_1x2);
    vm_compute; lia.
Defined.

(** C2, the claim as stated fails: for the 1 x 2 input [[1, 2]] no choice of
    libm makes the returned [U] have 1 row; it has 2. *)
Lemma jacobi_svd_wide_rows_not_m :
  ~ (exists atan cos sin u v s,
       jacobi_svd atan cos sin wide_1x2 = Ok (u, v, s) /\
       m_rows u = m_rows wide_1x2).
Proof.
  intros (atan & cos & sin & u & v & s & Hsvd & Hrows).
  destruct (jacobi_svd_ok atan cos sin wide_1x2)
    as (w & q & u' & v' & temp & _ & _ & _ & _ & Hsvd' & Hdu & _).
  rewrite Hsvd in Hsvd'. injection Hsvd' as -> _ _.
  apply dims_inv in Hdu. destruct Hdu as [Hu _].
  rewrite Hrows in Hu. vm_compute in Hu. discriminate Hu.
Qed.

(** C5, the claim as stated fails: on a matrix whose Gram matrix overflows
    the first denominator is [inf - inf], a NaN; the division arm is taken,
    and [|denominator| >= 1e-10] does not hold. *)
Lemma rotation_divides_by_nan :
  exists d,
    first_denominator overflow_2x2 = Ok d /\
    rotation_branch d = half_atan /\
    (CLASSIFIER_EPSILON <=? abs d)%float = false.
Proof.
  eexists. split; [vm_compute; reflexivity|]. split; vm_compute; reflexivity.
Qed.

(** ** The steps of [incremental_update] *)

Lemma project_step_size u c : v_size (project_step u c) = m_cols u.
Proof.
  unfold project_step, for_range. rewrite vec_loop_size; reflexivity.
Qed.

Lemma cmatrix_multiply_vector_ok m v :
  m_cols m = v_size v ->
  exists r, cmatrix_multiply_vector m v = Ok r /\ v_size r = m_rows m.
Proof.
  intros H. unfold cmatrix_multiply_vector.
  rewrite (proj2 (Nat.eqb_eq _ _) H). simpl. eexists. split; [reflexivity|].
  unfold for_range. rewrite vec_loop_size; reflexivity.
Qed.

Lemma cvector_subtract_ok a b :
  v_size a = v_size b ->
  exists r, cvector_subtract a b = Ok r /\ v_size r = v_size a.
Proof.
  intros H. unfold cvector_subtract.
  rewrite (proj2 (Nat.eqb_eq _ _) H). simpl. eexists. split; [reflexivity|].
  unfold for_range. rewrite vec_loop_size; reflexivity.
Qed.

Lemma cvector_subtract_raise a b :
  v_size a <> v_size b -> cvector_subtract a b = Raise rb_eArgError.
Proof.
  intros H. unfold cvector_subtract.
  rewrite (proj2 (Nat.eqb_neq _ _) H). reflexivity.
Qed.

(** Step 2 raises exactly when the new vector has not as many elements as
    [U] has rows: the raise is that of [cvector_subtract]. *)
Lemma residual_step_ok u c :
  v_size c = m_rows u ->
  exists p, residual_step u c (project_step u c) = Ok p /\ v_size p = m_rows u.
Proof.
  intros H. unfold residual_step.
  destruct (cmatrix_multiply_vector_ok u (project_step u c)) as [r [Hr Hs]];
    [symmetry; apply project_step_size|].
  rewrite Hr. simpl.
  destruct (cvector_subtract_ok c r) as [p [Hp Hsz]]; [congruence|].
  exists p. split; [exact Hp | congruence].
Qed.

Lemma residual_step_raise u c :
  v_size c <> m_rows u ->
  residual_step u c (project_step u c) = Raise rb_eArgError.
Proof.
  intros H. unfold residual_step.
  destruct (cmatrix_multiply_vector_ok u (project_step u c)) as [r [Hr Hs]];
    [symmetry; apply project_step_size|].
  rewrite Hr. simpl. apply cvector_subtract_raise. congruence.
Qed.

Lemma residual_step_inv u c p :
  residual_step u c (project_step u c) = Ok p -> v_size c = m_rows u.
Proof.
  intros Hp. destruct (decide (v_size c = m_rows u)) as [H|H]; [exact H|].
  rewrite (residual_step_raise u c H) in Hp. discriminate Hp.
Qed.

(** The reads of step 1 are inside [c] when [c] has the rows of [U], and also
    when [U] has no column (the loop body is never run); with at least one
    column and a shorter [c] they are not. *)
Lemma reading_c_ok u c :
  v_size c = m_rows u ->
  reading (if m_cols u =? 0 then 0 else m_rows u) c = Ok tt.
Proof.
  intros H. unfold reading. destruct (m_cols u =? 0); [reflexivity|].
  rewrite H, Nat.leb_refl. reflexivity.
Qed.

Lemma reading_c_spec u c :
  reading (if m_cols u =? 0 then 0 else m_rows u) c
  = if decide (m_cols u <> 0 /\ v_size c < m_rows u) then Undefined else Ok tt.
Proof.
  unfold reading. destruct (m_cols u =? 0) eqn:Hk.
  - apply Nat.eqb_eq in Hk. destruct (decide _) as [[H _]|_]; [lia | reflexivity].
  - apply Nat.eqb_neq in Hk. destruct (m_rows u <=? v_size c) eqn:Hle.
    + apply Nat.leb_le in Hle. destruct (decide _) as [[_ H]|_]; [lia | reflexivity].
    + apply Nat.leb_gt in Hle. destruct (decide _) as [_|H]; [reflexivity|].
      exfalso. apply H. split; assumption.
Qed.

(** The reads of step 4 are inside [m_vec], which has one element for each
    column of [U], when [S] has at most as many elements. *)
Lemma reading_m_vec u c s :
  reading (v_size s) (project_step u c)
  = if v_size s <=? m_cols u then Ok tt else Undefined.
Proof. unfold reading. rewrite project_step_size. reflexivity. Qed.

Lemma residual_norm_ok u c p :
  residual_step u c (project_step u c) = Ok p ->
  residual_norm u c = cvector_magnitude p.
Proof. unfold residual_norm. intros ->. reflexivity. Qed.

Lemma dims_build_k_matrix_with_growth s m_vec p_norm :
  dims (build_k_matrix_with_growth s m_vec p_norm) = (v_size s + 1, v_size s + 1).
Proof.
  unfold build_k_matrix_with_growth, for_range.
  rewrite dims_MAT_SET, dims_loop; [reflexivity|].
  intros i t. reflexivity.
Qed.

Lemma cmatrix_extend_column_ok m col :
  m_rows m = v_size col ->
  exists r, cmatrix_extend_column m col = Ok r /\
            dims r = (m_rows m, m_cols m + 1).
Proof.
  intros H. unfold cmatrix_extend_column.
  rewrite (proj2 (Nat.eqb_eq _ _) H). simpl. eexists. split; [reflexivity|].
  unfold for_range. rewrite dims_loop; [reflexivity|].
  intros i t. reflexivity.
Qed.

Lemma gram_size_square a n : dims a = (n, n) -> gram_size a = n.
Proof.
  intros H. apply dims_inv in H. destruct H as [H1 H2].
  unfold gram_size. rewrite H1, H2, Nat.leb_refl. reflexivity.
Qed.

Lemma gram_transposed_square a n : dims a = (n, n) -> gram_transposed a = false.
Proof.
  intros H. apply dims_inv in H. destruct H as [H1 H2].
  unfold gram_transposed. rewrite H1, H2, Nat.leb_refl. reflexivity.
Qed.

Lemma singular_values_size q size : v_size (singular_values q size) = size.
Proof. apply singular_values_with_size. Qed.

(** ** [incremental_update]: the two cases *)

Section UpdateCases.

Variables atan cos sin : float -> float.

(** Case B: the vector is in the span (the test [p_norm > epsilon] fails).
    The result is a copy of [U] and [S], whatever their sizes and the rank
    bound. *)
Lemma incremental_update_case_B u s c max_rank epsilon p :
  residual_step u c (project_step u c) = Ok p ->
  (epsilon <? cvector_magnitude p)%float = false ->
  incremental_update atan cos sin u s c max_rank epsilon
  = Ok (mat_memcpy (cmatrix_alloc (m_rows u) (m_cols u)) 0 (m_data u) 0
          (m_rows u * m_cols u),
        vec_memcpy (cvector_alloc (v_size s)) 0 (v_data s) 0 (v_size s)).
Proof.
  intros Hp Hlt. unfold incremental_update.
  rewrite (reading_c_ok u c (residual_step_inv u c p Hp)). cbn [bind].
  rewrite Hp. simpl. rewrite Hlt.
  reflexivity.
Qed.

(** Case A: a new direction.  With more elements in [S] than [U] has columns
    the K matrix is built from reads past the end of [m_vec]; with fewer the
    product [[U | p_hat] * U'] raises; otherwise the result has the rows of
    [U] and [updated_rank] columns and singular values. *)
Lemma incremental_update_case_A u s c max_rank epsilon p :
  residual_step u c (project_step u c) = Ok p ->
  v_size p = m_rows u ->
  (epsilon <? cvector_magnitude p)%float = true ->
  (m_cols u < v_size s ->
   incremental_update atan cos sin u s c max_rank epsilon = Undefined) /\
  (v_size s < m_cols u ->
   incremental_update atan cos sin u s c max_rank epsilon = Raise rb_eArgError) /\
  (v_size s = m_cols u ->
   exists u' s',
     incremental_update atan cos sin u s c max_rank epsilon = Ok (u', s') /\
     m_rows u' = m_rows u /\
     m_cols u' = updated_rank (m_cols u) max_rank /\
     v_size s' = updated_rank (m_cols u) max_rank).
Proof.
  intros Hp Hsz Hlt. unfold incremental_update.
  rewrite (reading_c_ok u c (residual_step_inv u c p Hp)). cbn [bind].
  rewrite Hp. cbn [bind]. rewrite Hlt, reading_m_vec.
  split.
  { intros Hgt. rewrite (proj2 (Nat.leb_gt _ _) Hgt). reflexivity. }
  assert (Hstep : v_size s <= m_cols u ->
            (v_size s <=? m_cols u) = true) by apply Nat.leb_le.
  set (m_vec := project_step u c).
  set (p_hat := for_range 0 (m_rows u) _ (cvector_alloc (m_rows u))).
  set (k_mat := build_k_matrix_with_growth s m_vec (cvector_magnitude p)).
  assert (Hk : dims k_mat = (v_size s + 1, v_size s + 1))
    by apply dims_build_k_matrix_with_growth.
  destruct (jacobi_svd_ok atan cos sin k_mat)
    as (w & q & u_prime & v_prime & temp & _ & _ & _ & _ & Hsvd & Hdu & _).
  rewrite (gram_size_square _ _ Hk), (gram_transposed_square _ _ Hk) in Hdu.
  rewrite (gram_size_square _ _ Hk) in Hsvd.
  destruct (dims_inv _ _ _ Hk) as [Hk1 _]. rewrite Hk1 in Hdu.
  destruct (dims_inv _ _ _ Hdu) as [Hu1 Hu2].
  assert (Hph : v_size p_hat = m_rows u)
    by (unfold p_hat, for_range; rewrite vec_loop_size; reflexivity).
  destruct (cmatrix_extend_column_ok u p_hat) as [u_ext [Hext Hde]];
    [symmetry; exact Hph|].
  destruct (dims_inv _ _ _ Hde) as [He1 He2].
  split.
  - intros Hne. rewrite Hstep by lia. cbn [bind]. rewrite Hsvd. cbn [bind].
    rewrite Hext. cbn [bind].
    rewrite cmatrix_multiply_raise by lia. reflexivity.
  - intros Heq. rewrite Hstep by lia. cbn [bind]. rewrite Hsvd. cbn [bind].
    rewrite Hext. cbn [bind].
    destruct (cmatrix_multiply_ok u_ext u_prime) as [u_new [Hnew Hdn]]; [lia|].
    destruct (dims_inv _ _ _ Hdn) as [Hn1 Hn2].
    rewrite Hnew. cbn [bind].
    unfold updated_rank.
    rewrite singular_values_size, Heq.
    destruct (Z.of_nat (m_cols u + 1) >? to_size_t max_rank)%Z.
    + eexists _, _. split; [reflexivity|].
      split; [|split].
      * unfold for_range.
        match goal with |- m_rows (for_count ?n ?lo ?b ?m0) = _ =>
          assert (Hd : dims (for_count n lo b m0) = dims m0)
            by (apply dims_loop; intros i t; reflexivity) end.
        apply dims_inv in Hd. destruct Hd as [Hd _]. rewrite Hd. simpl. congruence.
      * unfold for_range.
        match goal with |- m_cols (for_count ?n ?lo ?b ?m0) = _ =>
          assert (Hd : dims (for_count n lo b m0) = dims m0)
            by (apply dims_loop; intros i t; reflexivity) end.
        apply dims_inv in Hd. destruct Hd as [_ Hd]. rewrite Hd. reflexivity.
      * reflexivity.
    + eexists _, _. split; [reflexivity|].
      split; [congruence|]. split; [congruence|].
      apply singular_values_size.
Qed.

End UpdateCases.

(** ** [cmatrix_transpose] and the projection [U^T * r] *)

Lemma row_major_inj (R i j i' j' : nat) :
  i < R -> i' < R -> j' * R + i' = j * R + i -> j' = j /\ i' = i.
Proof.
  intros Hi Hi' H.
  assert (Hj : j' = j).
  { destruct (Nat.lt_trichotomy j' j) as [Hlt|[Heq|Hgt]]; [|exact Heq|]; nia. }
  subst j'. split; [reflexivity | lia].
Qed.

Lemma row_major_bound (R C i j : nat) : i < R -> j < C -> j * R + i < C * R.
Proof. nia. Qed.

(** The entries of the transpose. *)
Lemma cmatrix_transpose_at (m : CMatrix) (i j : nat) :
  i < m_rows m -> j < m_cols m ->
  MAT_AT (cmatrix_transpose m) j i = MAT_AT m i j.
Proof.
  intros Hi Hj.
  set (R := m_rows m) in *. set (C := m_cols m) in *.
  pose (Inv := fun (i0 j0 : nat) (t : CMatrix) =>
    dims t = (C, R) /\ length (m_data t) = C * R /\
    forall i' j', i' < R -> j' < C ->
      i' < i0 \/ (i' = i0 /\ j' < j0) ->
      rd (m_data t) (j' * R + i') = MAT_AT m i' j').
  assert (Hfinal : Inv R 0 (cmatrix_transpose m)).
  { unfold cmatrix_transpose, for_range. fold R C. rewrite !Nat.sub_0_r.
    apply (for_count_ind (fun i0 t => Inv i0 0 t) R 0).
    - split; [reflexivity|]. split; [apply length_replicate|].
      intros i' j' _ _ [H|[_ H]]; lia.
    - intros i0 t Hi0 Hinv.
      assert (Hinner : Inv i0 C (for_count C 0
                (fun j0 result => MAT_SET result j0 i0 (MAT_AT m i0 j0)) t)).
      { apply (for_count_ind (fun j0 t' => Inv i0 j0 t') C 0); [exact Hinv|].
        intros j0 t' Hj0 (Hd & Hlen & Hval).
        destruct (dims_inv _ _ _ Hd) as [Hr Hc].
        split; [exact Hd|]. split; [simpl; rewrite length_insert; exact Hlen|].
        intros i' j' Hi' Hj' Hcase. simpl. rewrite Hc.
        destruct (decide (j0 * R + i0 = j' * R + i')) as [Heq|Hne].
        - symmetry in Heq.
          destruct (row_major_inj R i0 j0 i' j') as [-> ->]; [lia|lia|exact Heq|].
          apply rd_insert_eq. rewrite Hlen. apply row_major_bound; lia.
        - rewrite rd_insert_ne by exact Hne. apply Hval; [lia|lia|].
          destruct Hcase as [H|[H1 H2]]; [left; exact H|].
          right. split; [exact H1|].
          destruct (decide (j' = j0)) as [->|]; [subst i'; contradiction|lia]. }
      destruct Hinner as (Hd & Hlen & Hval).
      split; [exact Hd|]. split; [exact Hlen|].
      intros i' j' Hi' Hj' Hcase. apply Hval; [lia|lia|].
      destruct Hcase as [H|[_ H]]; [|lia].
      destruct (decide (i' = i0)) as [->|]; [right; split; [reflexivity|lia]|].
      left. lia. }
  destruct Hfinal as (Hd & _ & Hval).
  destruct (dims_inv _ _ _ Hd) as [_ Hc].
  unfold MAT_AT at 1. rewrite Hc. apply Hval; [exact Hi|exact Hj|left; exact Hi].
Qed.

(** Step 1 of [incremental_update], which is also the body of the loop of
    [cbatch_project], computes the product of the transpose with the vector. *)
Lemma project_step_transpose (u : CMatrix) (r : CVector) :
  v_size r = m_rows u ->
  cmatrix_multiply_vector (cmatrix_transpose u) r = Ok (project_step u r).
Proof.
  intros Hsz.
  destruct (dims_inv _ _ _ (dims_cmatrix_transpose u)) as [Hr Hc].
  unfold cmatrix_multiply_vector. rewrite Hc, Hr.
  rewrite (proj2 (Nat.eqb_eq _ _) (eq_sym Hsz)). simpl. f_equal.
  unfold project_step, for_range. rewrite !Nat.sub_0_r.
  apply for_count_ext. intros j t Hj. f_equal.
  apply for_count_ext. intros i sum Hi.
  rewrite cmatrix_transpose_at by lia. reflexivity.
Qed.

(** ** [cbatch_project] and [Matrix#batch_project] *)

Lemma vec_at_middle (pre rest : list CVector) (r : CVector) :
  vec_at (pre ++ r :: rest) (length pre) = r.
Proof. unfold vec_at. rewrite list_lookup_middle by reflexivity. reflexivity. Qed.

(** The loop of [cbatch_project] from the vector after [pre] on. *)
Lemma cbatch_project_loop (u : CMatrix) (rest pre acc : list CVector) :
  for_countM (length rest) (length pre)
    (fun v lsi_vectors_out =>
       let raw := vec_at (pre ++ rest) v in
       if negb (v_size raw =? m_rows u) then Raise rb_eArgError
       else Ok (lsi_vectors_out ++ [project_step u raw])) acc
  = if forallb (fun r => v_size r =? m_rows u) rest
    then Ok (acc ++ map (project_step u) rest)
    else Raise rb_eArgError.
Proof.
  revert pre acc. induction rest as [|r rest IH]; intros pre acc; simpl.
  - rewrite app_nil_r. reflexivity.
  - rewrite vec_at_middle.
    destruct (v_size r =? m_rows u); simpl; [|reflexivity].
    replace (pre ++ r :: rest) with ((pre ++ [r]) ++ rest)
      by (rewrite <- app_assoc; reflexivity).
    replace (S (length pre)) with (length (pre ++ [r]))
      by (rewrite length_app; simpl; lia).
    rewrite IH. rewrite <- app_assoc. reflexivity.
Qed.

Lemma cbatch_project_eq (u : CMatrix) (raws : list CVector) :
  cbatch_project u raws (length raws)
  = if forallb (fun r => v_size r =? m_rows u) raws
    then Ok (map (project_step u) raws)
    else Raise rb_eArgError.
Proof. apply (cbatch_project_loop u raws [] []). Qed.

Lemma rb_cmatrix_batch_project_eq (u : CMatrix) (raws : list CVector) :
  rb_cmatrix_batch_project u raws
  = if forallb (fun r => v_size r =? m_rows u) raws
    then Ok (map (project_step u) raws)
    else Raise rb_eArgError.
Proof.
  unfold rb_cmatrix_batch_project. destruct raws as [|r raws]; [reflexivity|].
  change (length (r :: raws) =? 0) with false. cbv iota.
  rewrite cbatch_project_eq.
  destruct (forallb _ (r :: raws)); reflexivity.
Qed.

(** C8: [batch_project(U, rawVectors)] returns one vector per input when every
    input has as many elements as [U] has rows ([m]): the i-th output is
    [U^T * rawVectors[i]], of size [k], the number of columns of [U].  It
    raises (an ArgumentError) when some input has a size other than [m]. *)
Theorem batch_project_spec (u : CMatrix) (raws : list CVector) :
  (Forall (fun r => v_size r = m_rows u) raws ->
   exists outs,
     rb_cmatrix_batch_project u raws = Ok outs /\
     cbatch_project u raws (length raws) = Ok outs /\
     length outs = length raws /\
     forall i r, raws !! i = Some r ->
       exists lsi, outs !! i = Some lsi /\
         cmatrix_multiply_vector (cmatrix_transpose u) r = Ok lsi /\
         v_size lsi = m_cols u) /\
  (Exists (fun r => v_size r <> m_rows u) raws ->
   rb_cmatrix_batch_project u raws = Raise rb_eArgError /\
   cbatch_project u raws (length raws) = Raise rb_eArgError).
Proof.
  rewrite rb_cmatrix_batch_project_eq, cbatch_project_eq. split.
  - intros Hall.
    assert (Hb : forallb (fun r => v_size r =? m_rows u) raws = true).
    { apply forallb_forall. intros r Hr. apply Nat.eqb_eq.
      rewrite Forall_forall in Hall. apply Hall.
      apply list_elem_of_In. exact Hr. }
    rewrite Hb. exists (map (project_step u) raws).
    split; [reflexivity|]. split; [reflexivity|].
    split; [apply length_map|].
    intros i r Hi. exists (project_step u r).
    split; [rewrite list_lookup_fmap, Hi; reflexivity|].
    split; [|apply project_step_size].
    apply project_step_transpose.
    rewrite Forall_forall in Hall. apply Hall.
    apply (list_elem_of_lookup_2 _ i). exact Hi.
  - intros Hex.
    assert (Hb : forallb (fun r => v_size r =? m_rows u) raws = false).
    { apply not_true_is_false. intros Hb.
      rewrite forallb_forall in Hb. apply Exists_exists in Hex.
      destruct Hex as [r [Hin Hne]]. apply Hne, Nat.eqb_eq, Hb.
      apply list_elem_of_In. exact Hin. }
    rewrite Hb. split; reflexivity.
Qed.

(** ** [incremental_update] *)

(** The residual of [[0,1,0]^T] on [U0] is the vector itself, of norm 1. *)
Lemma orthogonal_residual :
  exists p, residual_step U0 c_orthogonal (project_step U0 c_orthogonal) = Ok p /\
            v_size p = m_rows U0 /\
            (1e-6 <? cvector_magnitude p)%float = true.
Proof.
  exists (mkCVector 3 [0%float; 1%float; 0%float] 0).
  repeat split; vm_compute; reflexivity.
Qed.

(** The norm of a vector of elements [x - x]. *)
Lemma cvector_magnitude_zero_or_nan (v : CVector) :
  (forall i, i < v_size v -> zero_or_nan (rd (v_data v) i)) ->
  zero_or_nan (cvector_magnitude v).
Proof.
  intros Hv. unfold cvector_magnitude, for_range. rewrite Nat.sub_0_r.
  apply sqrt_zero_or_nan.
  apply (for_count_ind (fun _ sum => zero_or_nan sum) (v_size v) 0).
  - left. reflexivity.
  - intros i sum Hi Hsum. apply add_square_zero_or_nan; [exact Hsum|].
    apply Hv. lia.
Qed.

(** The residual of a vector that is exactly [U * (U^T * c)]. *)
Lemma exact_residual (u : CMatrix) (c : CVector) :
  v_size c = m_rows u -> exactly_in_span u c ->
  exists p, residual_step u c (project_step u c) = Ok p /\
            zero_or_nan (cvector_magnitude p).
Proof.
  intros Hc (utm & Hmul & Hdata).
  destruct (cmatrix_multiply_vector_ok u (project_step u c)) as [r [Hr Hs]];
    [symmetry; apply project_step_size|].
  rewrite Hmul in Hr. injection Hr as <-.
  unfold residual_step. rewrite Hmul. cbn [bind].
  unfold cvector_subtract.
  rewrite (proj2 (Nat.eqb_eq _ _) (eq_trans Hc (eq_sym Hs))). cbn [negb].
  unfold cvector_alloc.
  rewrite (vec_fill (fun i => (rd (v_data c) i - rd (v_data utm) i)%float)).
  eexists. split; [reflexivity|].
  apply cvector_magnitude_zero_or_nan. simpl. intros i Hi.
  rewrite rd_map_seq by exact Hi. rewrite Hdata. apply sub_self_zero_or_nan.
Qed.

Section UpdateClaims.

Variables atan cos sin : float -> float.

(** C1, as the code has it: [incremental_update] validates nothing itself,
    and reads its arrays before any size is compared.
    - With a [c] shorter than the rows of [U] (and at least one column in
      [U]) step 1 reads past the end of [c]: the behaviour is undefined.
    - With any other [c] whose size is not the number of rows of [U] it
      raises (an ArgumentError, from [cvector_subtract]).
    - With matching [c], when a new direction is found ([p_norm > epsilon]):
      an [S] longer than the columns of [U] makes step 4 read past the end of
      [m_vec] (undefined behaviour), a shorter one makes the product
      [[U | p_hat] * U'] raise an ArgumentError, and one of the same size
      gives a result.
    - With matching [c] and no new direction a result is returned, whatever
      the size of [S].
    Neither [max_rank] nor [epsilon] is ever a reason to raise. *)
Theorem incremental_update_raises (u : CMatrix) (s c : CVector) (max_rank : Z)
    (epsilon : float) :
  (m_cols u <> 0 /\ v_size c < m_rows u ->
   incremental_update atan cos sin u s c max_rank epsilon = Undefined) /\
  (m_rows u < v_size c \/ (m_cols u = 0 /\ v_size c < m_rows u) ->
   incremental_update atan cos sin u s c max_rank epsilon = Raise rb_eArgError) /\
  (v_size c = m_rows u -> (epsilon <? residual_norm u c)%float = true ->
   (m_cols u < v_size s ->
    incremental_update atan cos sin u s c max_rank epsilon = Undefined) /\
   (v_size s < m_cols u ->
    incremental_update atan cos sin u s c max_rank epsilon = Raise rb_eArgError) /\
   (v_size s = m_cols u ->
    exists r, incremental_update atan cos sin u s c max_rank epsilon = Ok r)) /\
  (v_size c = m_rows u -> (epsilon <? residual_norm u c)%float = false ->
   exists r, incremental_update atan cos sin u s c max_rank epsilon = Ok r).
Proof.
  split; [|split; [|split]].
  - intros Hshort. unfold incremental_update. rewrite reading_c_spec.
    destruct (decide _) as [_|H]; [reflexivity | contradiction].
  - intros Hc. unfold incremental_update. rewrite reading_c_spec.
    destruct (decide _) as [[Hk Hlt]|_]; [lia|]. cbn [bind].
    rewrite (residual_step_raise u c) by lia. reflexivity.
  - intros Hc Hlt.
    destruct (residual_step_ok u c Hc) as [p [Hp Hsz]].
    rewrite (residual_norm_ok u c p Hp) in Hlt.
    destruct (incremental_update_case_A atan cos sin u s c max_rank epsilon p
                Hp Hsz Hlt) as (Hlong & Hshort & Hgood).
    split; [exact Hlong|]. split; [exact Hshort|].
    intros Hs. destruct (Hgood Hs) as (u' & s' & Heq & _).
    exists (u', s'). exact Heq.
  - intros Hc Hlt.
    destruct (residual_step_ok u c Hc) as [p [Hp Hsz]].
    rewrite (residual_norm_ok u c p Hp) in Hlt.
    rewrite (incremental_update_case_B atan cos sin u s c max_rank epsilon p
               Hp Hlt).
    eexists. reflexivity.
Qed.

(** The in-span branch on a well-formed factorization. *)
Lemma case_B_unchanged (u : CMatrix) (s c : CVector) (max_rank : Z)
    (epsilon : float) (p : CVector) :
  mat_wf u -> vec_wf s ->
  residual_step u c (project_step u c) = Ok p ->
  (epsilon <? cvector_magnitude p)%float = false ->
  returns_unchanged (incremental_update atan cos sin u s c max_rank epsilon) u s.
Proof.
  intros Hu Hs Hp Hlt.
  rewrite (incremental_update_case_B atan cos sin u s c max_rank epsilon p Hp Hlt).
  eexists _, _. split; [reflexivity|].
  unfold mat_memcpy, vec_memcpy, cmatrix_alloc, cvector_alloc. simpl.
  unfold mat_wf in Hu. unfold vec_wf in Hs.
  rewrite <- Hu, <- Hs.
  rewrite !memcpy_whole by (rewrite length_replicate; reflexivity).
  repeat split; reflexivity.
Qed.

(** C3: when the new vector has the size of the rows of [U] and [S] that of
    its columns, and the residual norm is at most [epsilon],
    [incremental_update] returns a pair [(U', S')] with the dimensions and,
    element for element, the entries of [(U, S)].  In particular a vector
    that is exactly [U * (U^T * c)] leaves [(U, S)] unchanged, for every
    tolerance [epsilon >= 0]. *)
Theorem incremental_update_in_span (u : CMatrix) (s c : CVector) (max_rank : Z)
    (epsilon : float) :
  mat_wf u -> vec_wf s ->
  v_size c = m_rows u -> v_size s = m_cols u ->
  ((residual_norm u c <=? epsilon)%float = true ->
   returns_unchanged (incremental_update atan cos sin u s c max_rank epsilon) u s) /\
  (exactly_in_span u c -> (0 <=? epsilon)%float = true ->
   returns_unchanged (incremental_update atan cos sin u s c max_rank epsilon) u s).
Proof.
  intros Hu Hs Hc _. split.
  - intros Hle.
    destruct (residual_step_ok u c Hc) as [p [Hp Hsz]].
    rewrite (residual_norm_ok u c p Hp) in Hle.
    apply (case_B_unchanged u s c max_rank epsilon p Hu Hs Hp).
    apply leb_ltb_false, Hle.
  - intros Hexact Heps.
    destruct (exact_residual u c Hc Hexact) as (p & Hp & Hnorm).
    apply (case_B_unchanged u s c max_rank epsilon p Hu Hs Hp).
    apply zero_or_nan_not_above; assumption.
Qed.

(** C4: from [U = [1,0,0]^T], [S = [1]], the vector [[0,1,0]^T] and
    [epsilon = 1e-6], the update returns a [U'] of 2 columns for
    [max_rank = 5], and a [U'] of 1 column with 1 singular value for
    [max_rank = 1]. *)
Theorem rank_growth_and_cap :
  (exists u' s',
     incremental_update atan cos sin U0 S0 c_orthogonal 5 1e-6 = Ok (u', s') /\
     m_cols u' = 2) /\
  (exists u' s',
     incremental_update atan cos sin U0 S0 c_orthogonal 1 1e-6 = Ok (u', s') /\
     m_cols u' = 1 /\ v_size s' = 1).
Proof.
  destruct orthogonal_residual as (p & Hp & Hsz & Hlt).
  split.
  - destruct (incremental_update_case_A atan cos sin U0 S0 c_orthogonal 5 1e-6 p
                Hp Hsz Hlt) as (_ & _ & H).
    destruct (H eq_refl) as (u' & s' & Heq & _ & Hcols & _).
    exists u', s'. split; [exact Heq | exact Hcols].
  - destruct (incremental_update_case_A atan cos sin U0 S0 c_orthogonal 1 1e-6 p
                Hp Hsz Hlt) as (_ & _ & H).
    destruct (H eq_refl) as (u' & s' & Heq & _ & Hcols & Hsize).
    exists u', s'. split; [exact Heq|]. split; [exact Hcols | exact Hsize].
Qed.

(** C9: for a negative [max_rank] (an [int]), the truncation guard compares
    the new rank [k + 1] with [max_rank] converted to [size_t], which is
    [max_rank + 2^64]; the comparison is false for any rank a 64-bit machine
    can hold, nothing is truncated, and a Case-A update returns a
    factorization of rank [k + 1] without raising. *)
Theorem incremental_update_negative_max_rank (u : CMatrix) (s c : CVector)
    (max_rank : Z) (epsilon : float) :
  v_size c = m_rows u -> v_size s = m_cols u ->
  (epsilon <? residual_norm u c)%float = true ->
  (- 2 ^ 31 <= max_rank < 0)%Z ->
  (Z.of_nat (m_cols u) < 2 ^ 63)%Z ->
  to_size_t max_rank = (max_rank + 2 ^ 64)%Z /\
  (Z.of_nat (m_cols u + 1) >? to_size_t max_rank)%Z = false /\
  exists u' s',
    incremental_update atan cos sin u s c max_rank epsilon = Ok (u', s') /\
    m_rows u' = m_rows u /\
    m_cols u' = m_cols u + 1 /\
    v_size s' = m_cols u + 1.
Proof.
  intros Hc Hs Hlt Hneg Hk.
  assert (Hconv : to_size_t max_rank = (max_rank + 2 ^ 64)%Z).
  { unfold to_size_t.
    rewrite <- (Z.mod_add max_rank 1 (2 ^ 64)) by lia.
    rewrite Z.mul_1_l. apply Z.mod_small. lia. }
  assert (Hguard : (Z.of_nat (m_cols u + 1) >? to_size_t max_rank)%Z = false).
  { rewrite Hconv, Z.gtb_ltb. apply Z.ltb_ge. lia. }
  split; [exact Hconv|]. split; [exact Hguard|].
  destruct (residual_step_ok u c Hc) as [p [Hp Hsz]].
  rewrite (residual_norm_ok u c p Hp) in Hlt.
  destruct (incremental_update_case_A atan cos sin u s c max_rank epsilon p
              Hp Hsz Hlt) as (_ & _ & H).
  destruct (H Hs) as (u' & s' & Heq & Hrows & Hcols & Hsize).
  unfold updated_rank in Hcols, Hsize. rewrite Hguard in Hcols, Hsize.
  exists u', s'. repeat split; assumption.
Qed.

End UpdateClaims.

Lemma incremental_update_in_span_witness :
  ((residual_norm U0 c_in_span <=? 1e-6)%float = true /\
   exactly_in_span U0 c_in_span /\ (0 <=? 1e-6)%float = true) /\
  ((residual_norm U0 c_in_span <=? 1e-6)%float = true ->
   returns_unchanged
     (incremental_update no_libm no_libm no_libm U0 S0 c_in_span 5 1e-6) U0 S0) /\
  (exactly_in_span U0 c_in_span -> (0 <=? 1e-6)%float = true ->
   returns_unchanged
     (incremental_update no_libm no_libm no_libm U0 S0 c_in_span 5 1e-6) U0 S0).
Proof.
  split.
  - split; [vm_compute; reflexivity|]. split; [|vm_compute; reflexivity].
    exists (mkCVector 3 [2%float; 0%float; 0%float] 0).
    split; vm_compute; reflexivity.
  - apply (incremental_update_in_span no_libm no_libm no_libm U0 S0 c_in_span
             5 1e-6); vm_compute; reflexivity.
Defined.

Lemma incremental_update_negative_max_rank_witness :
  to_size_t (-1) = (-1 + 2 ^ 64)%Z /\
  (Z.of_nat (m_cols U_empty + 1) >? to_size_t (-1))%Z = false /\
  exists u' s',
    incremental_update no_libm no_libm no_libm U_empty S_empty c_orthogonal (-1) 1e-6
    = Ok (u', s') /\
    m_rows u' = m_rows U_empty /\
    m_cols u' = m_cols U_empty + 1 /\
    v_size s' = m_cols U_empty + 1.
Proof.
  apply (incremental_update_negative_max_rank no_libm no_libm no_libm
           U_empty S_empty c_orthogonal (-1) 1e-6).
  - reflexivity.
  - reflexivity.
  - vm_compute. reflexivity.
  - lia.
  - vm_compute. reflexivity.
Defined.

(** C1, the claim as stated fails.  With [max_rank = 0] and matching sizes no
    libm makes the update raise (it returns a factorization of rank 0); and
    with an [S] of 2 elements for a [U] of 1 column, a vector in the span is
    answered by a copy of [(U, S)], not by an error. *)
Lemma incremental_update_no_validation :
  ((0 < 1)%Z /\
   ~ (exists atan cos sin,
        is_Raise (incremental_update atan cos sin U0 S0 c_orthogonal 0 1e-6)
        = true)) /\
  (v_size S_too_long <> m_cols U0 /\
   ~ (exists atan cos sin,
        is_Raise (incremental_update atan cos sin U0 S_too_long c_in_span 5 1e-6)
        = true)).
Proof.
  split; split.
  - lia.
  - intros (atan & cos & sin & H).
    destruct orthogonal_residual as (p & Hp & Hsz & Hlt).
    destruct (incremental_update_case_A atan cos sin U0 S0 c_orthogonal 0 1e-6 p
                Hp Hsz Hlt) as (_ & _ & Hok).
    destruct (Hok eq_refl) as (u' & s' & Heq & _).
    rewrite Heq in H. discriminate H.
  - vm_compute. discriminate.
  - intros (atan & cos & sin & H). vm_compute in H. discriminate H.
Qed.

(** * Further properties of the library *)

(** ** Loops that store into an array *)

(** A loop that stores [f i] at the distinct, in-range indices [idx i]: the
    stored cells hold the values and every other cell is untouched. *)
Lemma scatter_loop (idx : nat -> nat) (f : nat -> float) n lo (t0 : list float) :
  (forall i, lo <= i < lo + n -> idx i < length t0) ->
  (forall i i', lo <= i < lo + n -> lo <= i' < lo + n -> idx i = idx i' -> i = i') ->
  length (for_count n lo (fun i d => <[idx i := f i]> d) t0) = length t0 /\
  (forall i, lo <= i < lo + n ->
     rd (for_count n lo (fun i d => <[idx i := f i]> d) t0) (idx i) = f i) /\
  (forall k, (forall i, lo <= i < lo + n -> idx i <> k) ->
     rd (for_count n lo (fun i d => <[idx i := f i]> d) t0) k = rd t0 k).
Proof.
  intros Hin Hinj.
  pose (P := fun (m : nat) (d : list float) =>
    length d = length t0 /\
    (forall i, lo <= i < m -> rd d (idx i) = f i) /\
    (forall k, (forall i, lo <= i < m -> idx i <> k) -> rd d k = rd t0 k)).
  assert (HP : P (lo + n) (for_count n lo (fun i d => <[idx i := f i]> d) t0)).
  { apply (for_count_ind P).
    - split; [reflexivity|]. split; [intros i Hi; lia | reflexivity].
    - intros m d Hm (Hlen & Hval & Hrest).
      split; [rewrite length_insert; exact Hlen|]. split.
      + intros i Hi. destruct (decide (i = m)) as [->|Hne].
        * apply rd_insert_eq. rewrite Hlen. apply Hin. lia.
        * rewrite rd_insert_ne; [apply Hval; lia|].
          intros Heq. apply Hne. symmetry. apply Hinj; [lia|lia|exact Heq].
      + intros k Hk. rewrite rd_insert_ne by (apply Hk; lia).
        apply Hrest. intros i Hi. apply Hk. lia. }
  destruct HP as (H1 & H2 & H3). repeat split; assumption.
Qed.

(** The same for two nested loops. *)
Lemma scatter_loop2 (idx : nat -> nat -> nat) (f : nat -> nat -> float) R C
    (t0 : list float) :
  (forall i j, i < R -> j < C -> idx i j < length t0) ->
  (forall i j i' j', i < R -> j < C -> i' < R -> j' < C ->
     idx i j = idx i' j' -> i = i' /\ j = j') ->
  let t := for_count R 0 (fun i d =>
             for_count C 0 (fun j d => <[idx i j := f i j]> d) d) t0 in
  length t = length t0 /\
  (forall i j, i < R -> j < C -> rd t (idx i j) = f i j) /\
  (forall k, (forall i j, i < R -> j < C -> idx i j <> k) -> rd t k = rd t0 k).
Proof.
  intros Hin Hinj t. subst t.
  pose (P := fun (m : nat) (d : list float) =>
    length d = length t0 /\
    (forall i j, i < m -> j < C -> rd d (idx i j) = f i j) /\
    (forall k, (forall i j, i < m -> j < C -> idx i j <> k) -> rd d k = rd t0 k)).
  assert (HP : P (0 + R) (for_count R 0 (fun i d =>
             for_count C 0 (fun j d => <[idx i j := f i j]> d) d) t0)).
  { apply (for_count_ind P).
    - split; [reflexivity|]. split; [intros i j Hi; lia | reflexivity].
    - intros m d Hm (Hlen & Hval & Hrest).
      destruct (scatter_loop (idx m) (f m) C 0 d) as (L1 & L2 & L3).
      + intros j Hj. rewrite Hlen. apply Hin; lia.
      + intros j j' Hj Hj' Heq.
        destruct (Hinj m j m j') as [_ H]; [lia|lia|lia|lia|exact Heq|exact H].
      + split; [rewrite L1; exact Hlen|]. split.
        * intros i j Hi Hj. destruct (decide (i = m)) as [->|Hne].
          -- apply L2. lia.
          -- rewrite L3; [apply Hval; lia|].
             intros j' Hj' Heq.
             destruct (Hinj m j' i j) as [H _]; [lia|lia|lia|lia|exact Heq|].
             apply Hne. symmetry. exact H.
        * intros k Hk. rewrite L3 by (intros j Hj; apply Hk; lia).
          apply Hrest. intros i j Hi Hj. apply Hk; lia. }
  destruct HP as (H1 & H2 & H3). repeat split; assumption.
Qed.

(** A loop on a matrix whose body only rewrites the storage is a loop on the
    storage. *)
Lemma mat_loop_lift n lo (body : nat -> CMatrix -> CMatrix)
    (g : nat -> list float -> list float) (m : CMatrix) :
  (forall i t, dims t = dims m ->
     body i t = mkCMatrix (m_rows m) (m_cols m) (g i (m_data t))) ->
  for_count n lo body m
  = mkCMatrix (m_rows m) (m_cols m) (for_count n lo g (m_data m)).
Proof.
  revert lo m. induction n as [|n IH]; intros lo m Hb; simpl.
  - destruct m; reflexivity.
  - rewrite (Hb lo m eq_refl). rewrite IH; [reflexivity|].
    intros i t Ht. simpl. apply Hb. exact Ht.
Qed.

(** Row-major indices. *)
Lemma row_major_inj2 (C i j i' j' : nat) :
  j < C -> j' < C -> i * C + j = i' * C + j' -> i = i' /\ j = j'.
Proof.
  intros Hj Hj' H.
  assert (Hi : i = i').
  { destruct (Nat.lt_trichotomy i i') as [Hlt|[Heq|Hgt]]; [|exact Heq|]; nia. }
  subst i'. split; [reflexivity | lia].
Qed.

Lemma row_major_bound2 (R C i j : nat) : i < R -> j < C -> i * C + j < R * C.
Proof. nia. Qed.

(** Two well-formed matrices of the same shape with the same entries are
    equal. *)
Lemma mat_ext (m m' : CMatrix) :
  dims m' = dims m -> mat_wf m -> mat_wf m' ->
  (forall i j, i < m_rows m -> j < m_cols m -> MAT_AT m' i j = MAT_AT m i j) ->
  m' = m.
Proof.
  intros Hd Hw Hw' Hent.
  destruct m as [R C d], m' as [R' C' d'].
  unfold dims in Hd. simpl in *. injection Hd as -> ->.
  f_equal. unfold mat_wf in *. simpl in *.
  apply list_eq. intros k.
  destruct (decide (k < R * C)) as [Hk|Hk].
  - assert (HC : 0 < C) by nia.
    specialize (Hent (k / C) (k mod C)).
    unfold MAT_AT in Hent. simpl in Hent.
    assert (Hidx : k / C * C + k mod C = k).
    { pose proof (Nat.div_mod_eq k C). lia. }
    rewrite Hidx in Hent.
    assert (Hdiv : k / C < R).
    { apply Nat.Div0.div_lt_upper_bound. lia. }
    assert (Hmod : k mod C < C) by (apply Nat.mod_upper_bound; lia).
    specialize (Hent Hdiv Hmod).
    destruct (lookup_lt_is_Some_2 d k) as [x Hx]; [lia|].
    destruct (lookup_lt_is_Some_2 d' k) as [x' Hx']; [lia|].
    unfold rd in Hent. rewrite Hx, Hx' in Hent. simpl in Hent.
    rewrite Hx, Hx'. f_equal. exact Hent.
  - rewrite !lookup_ge_None_2 by lia. reflexivity.
Qed.

(** ** Well-formed storage *)

Lemma mat_wf_alloc rows cols : mat_wf (cmatrix_alloc rows cols).
Proof. unfold mat_wf. simpl. apply length_replicate. Qed.

Lemma vec_wf_alloc size : vec_wf (cvector_alloc size).
Proof. unfold vec_wf. simpl. apply length_replicate. Qed.

Lemma mat_wf_MAT_SET m i j x : mat_wf m -> mat_wf (MAT_SET m i j x).
Proof. unfold mat_wf. simpl. rewrite length_insert. auto. Qed.

Lemma mat_wf_mat_memcpy m doff src soff n :
  mat_wf m -> mat_wf (mat_memcpy m doff src soff n).
Proof. unfold mat_wf. simpl. rewrite memcpy_length. auto. Qed.

Lemma vec_wf_vec_set v i x : vec_wf v -> vec_wf (vec_set v i x).
Proof. unfold vec_wf. simpl. rewrite length_insert. auto. Qed.

Lemma mat_wf_loop n lo (body : nat -> CMatrix -> CMatrix) (m : CMatrix) :
  (forall i t, mat_wf t -> mat_wf (body i t)) -> mat_wf m ->
  mat_wf (for_count n lo body m).
Proof. intros Hb Hm. apply for_count_inv; assumption. Qed.

Lemma vec_wf_loop n lo (body : nat -> CVector -> CVector) (v : CVector) :
  (forall i t, vec_wf t -> vec_wf (body i t)) -> vec_wf v ->
  vec_wf (for_count n lo body v).
Proof. intros Hb Hv. apply for_count_inv; assumption. Qed.

Lemma cmatrix_transpose_wf m : mat_wf (cmatrix_transpose m).
Proof.
  unfold cmatrix_transpose, for_range. apply mat_wf_loop; [|apply mat_wf_alloc].
  intros i t Ht. apply mat_wf_loop; [|exact Ht].
  intros j t' Ht'. apply mat_wf_MAT_SET, Ht'.
Qed.

(** ** [cmatrix_transpose] *)

(** X1: the transpose of an [r x c] matrix is a well-formed [c x r] matrix
    whose entry [(j, i)] is the entry [(i, j)] of the argument. *)
Theorem cmatrix_transpose_spec (m : CMatrix) :
  dims (cmatrix_transpose m) = (m_cols m, m_rows m) /\
  mat_wf (cmatrix_transpose m) /\
  (forall i j, i < m_rows m -> j < m_cols m ->
     MAT_AT (cmatrix_transpose m) j i = MAT_AT m i j).
Proof.
  split; [apply dims_cmatrix_transpose|]. split; [apply cmatrix_transpose_wf|].
  intros i j. apply cmatrix_transpose_at.
Qed.

(** X2: transposing twice gives the matrix back. *)
Theorem cmatrix_transpose_involutive (m : CMatrix) :
  mat_wf m -> cmatrix_transpose (cmatrix_transpose m) = m.
Proof.
  intros Hm.
  destruct (dims_inv _ _ _ (dims_cmatrix_transpose m)) as [Hr Hc].
  apply mat_ext.
  - rewrite dims_cmatrix_transpose, Hr, Hc. reflexivity.
  - exact Hm.
  - apply cmatrix_transpose_wf.
  - intros i j Hi Hj.
    rewrite cmatrix_transpose_at by (rewrite ?Hr, ?Hc; assumption).
    apply cmatrix_transpose_at; assumption.
Qed.

Lemma cmatrix_transpose_involutive_witness :
  cmatrix_transpose (cmatrix_transpose matrix_1234) = matrix_1234.
Proof. apply (cmatrix_transpose_involutive matrix_1234). reflexivity. Defined.

(** ** [cmatrix_multiply] and [cmatrix_multiply_vector] *)

(** The product, when the inner dimensions agree. *)
Lemma cmatrix_multiply_entries (a b : CMatrix) :
  m_cols a = m_rows b ->
  exists r,
    cmatrix_multiply a b = Ok r /\
    dims r = (m_rows a, m_cols b) /\ mat_wf r /\
    (forall i j, i < m_rows a -> j < m_cols b ->
       MAT_AT r i j = dot_row_col a b i j).
Proof.
  intros H. unfold cmatrix_multiply.
  rewrite (proj2 (Nat.eqb_eq _ _) H). cbn [negb].
  eexists. split; [reflexivity|].
  unfold for_range. rewrite !Nat.sub_0_r.
  rewrite (mat_loop_lift (m_rows a) 0 _
             (fun i d => for_count (m_cols b) 0
                (fun j d => <[i * m_cols b + j := dot_row_col a b i j]> d) d)).
  2:{ intros i t Ht. apply dims_inv in Ht. destruct Ht as [Hr Hc]. simpl in Hr, Hc.
      rewrite (mat_loop_lift (m_cols b) 0 _
                 (fun j d => <[i * m_cols b + j := dot_row_col a b i j]> d)).
      - simpl. rewrite Hr, Hc. reflexivity.
      - intros j t' Ht'. apply dims_inv in Ht'. destruct Ht' as [Hr' Hc'].
        unfold MAT_SET, dot_row_col, for_range.
        rewrite Hr', Hc', Hr, Hc, Nat.sub_0_r. reflexivity. }
  simpl m_rows. simpl m_cols. simpl m_data.
  destruct (scatter_loop2 (fun i j => i * m_cols b + j) (dot_row_col a b)
              (m_rows a) (m_cols b) (replicate (m_rows a * m_cols b) 0%float))
    as (L1 & L2 & _).
  - intros i j Hi Hj. rewrite length_replicate. apply row_major_bound2; assumption.
  - intros i j i' j' _ Hj _ Hj'. apply row_major_inj2; assumption.
  - split; [reflexivity|]. split.
    + unfold mat_wf. simpl. rewrite L1. apply length_replicate.
    + intros i j Hi Hj. unfold MAT_AT. simpl. apply L2; assumption.
Qed.

(** X3: [cmatrix_multiply] raises (an ArgumentError) exactly when the columns
    of the left operand are not as many as the rows of the right one;
    otherwise it returns a well-formed matrix with the rows of the left and
    the columns of the right operand, whose entry [(i, j)] is the sum, from
    0.0 and in increasing [k], of [a[i][k] * b[k][j]]. *)
Theorem cmatrix_multiply_spec (a b : CMatrix) :
  (m_cols a <> m_rows b -> cmatrix_multiply a b = Raise rb_eArgError) /\
  (m_cols a = m_rows b ->
   exists r,
     cmatrix_multiply a b = Ok r /\
     m_rows r = m_rows a /\ m_cols r = m_cols b /\ mat_wf r /\
     (forall i j, i < m_rows a -> j < m_cols b ->
        MAT_AT r i j = dot_row_col a b i j)).
Proof.
  split; [apply cmatrix_multiply_raise|].
  intros H. destruct (cmatrix_multiply_entries a b H) as (r & Hr & Hd & Hw & He).
  apply dims_inv in Hd. destruct Hd as [Hd1 Hd2].
  exists r. repeat split; assumption.
Qed.

(** X4: [cmatrix_multiply_vector] raises (an ArgumentError) exactly when the
    vector has not as many elements as the matrix has columns; otherwise the
    result is a row-tagged vector with one element per row of the matrix, the
    i-th being the sum, from 0.0 and in increasing [j], of [m[i][j] * v[j]]. *)
Theorem cmatrix_multiply_vector_spec (m : CMatrix) (v : CVector) :
  (m_cols m <> v_size v -> cmatrix_multiply_vector m v = Raise rb_eArgError) /\
  (m_cols m = v_size v ->
   cmatrix_multiply_vector m v
   = Ok (mkCVector (m_rows m) (map (dot_row_vec m v) (seq 0 (m_rows m))) 0)).
Proof.
  unfold cmatrix_multiply_vector. split; intros H.
  - rewrite (proj2 (Nat.eqb_neq _ _) H). reflexivity.
  - rewrite (proj2 (Nat.eqb_eq _ _) H). cbn [negb]. f_equal.
    unfold cvector_alloc. apply (vec_fill (dot_row_vec m v)).
Qed.

(** ** [cmatrix_diagonal], [cmatrix_identity] and [cmatrix_clone] *)

Lemma rd_replicate (n k : nat) (x : float) : k < n -> rd (replicate n x) k = x.
Proof. intros H. apply rd_lookup, lookup_replicate_2, H. Qed.

Lemma rd_replicate_zero (n k : nat) : rd (replicate n 0%float) k = 0%float.
Proof.
  destruct (decide (k < n)) as [H|H]; [apply rd_replicate, H|].
  unfold rd. rewrite lookup_ge_None_2 by (rewrite length_replicate; lia).
  reflexivity.
Qed.

Lemma diagonal_index_inj (n i i' : nat) : i * n + i = i' * n + i' -> i = i'.
Proof. nia. Qed.

(** The loop of [cmatrix_diagonal] and of [cmatrix_identity]. *)
Lemma diagonal_loop (f : nat -> float) (n : nat) :
  let r := for_range 0 n (fun i result => MAT_SET result i i (f i))
             (cmatrix_alloc n n) in
  dims r = (n, n) /\ mat_wf r /\
  (forall i j, i < n -> j < n ->
     MAT_AT r i j = if decide (i = j) then f i else 0%float).
Proof.
  intros r. subst r. unfold for_range. rewrite Nat.sub_0_r.
  rewrite (mat_loop_lift n 0 _ (fun i d => <[i * n + i := f i]> d)).
  2:{ intros i t Ht. apply dims_inv in Ht. destruct Ht as [Hr Hc].
      simpl in Hr, Hc. unfold MAT_SET. rewrite Hr, Hc. reflexivity. }
  simpl m_rows. simpl m_cols. simpl m_data.
  destruct (scatter_loop (fun i => i * n + i) f n 0 (replicate (n * n) 0%float))
    as (L1 & L2 & L3).
  - intros i Hi. rewrite length_replicate. apply row_major_bound2; lia.
  - intros i i' _ _. apply diagonal_index_inj.
  - split; [reflexivity|]. split.
    + unfold mat_wf. simpl. rewrite L1. apply length_replicate.
    + intros i j Hi Hj. unfold MAT_AT. simpl.
      destruct (decide (i = j)) as [<-|Hne].
      * apply L2. lia.
      * rewrite L3; [apply rd_replicate_zero|].
        intros i' Hi' Heq.
        destruct (row_major_inj2 n i' i' i j) as [H1 H2]; [lia|lia|exact Heq|].
        congruence.
Qed.

(** X5: [cmatrix_diagonal(v)] is a well-formed square matrix of the size of
    [v], with [v] on the diagonal and 0.0 elsewhere. *)
Theorem cmatrix_diagonal_spec (v : CVector) :
  dims (cmatrix_diagonal v) = (v_size v, v_size v) /\
  mat_wf (cmatrix_diagonal v) /\
  (forall i j, i < v_size v -> j < v_size v ->
     MAT_AT (cmatrix_diagonal v) i j
     = if decide (i = j) then rd (v_data v) i else 0%float).
Proof. apply (diagonal_loop (fun i => rd (v_data v) i)). Qed.

(** X6: [cmatrix_identity(n)] is the diagonal matrix of [n] ones: 1.0 on the
    diagonal, 0.0 elsewhere. *)
Theorem cmatrix_identity_spec (n : nat) :
  cmatrix_identity n = cmatrix_diagonal (mkCVector n (replicate n 1%float) 0) /\
  dims (cmatrix_identity n) = (n, n) /\
  mat_wf (cmatrix_identity n) /\
  (forall i j, i < n -> j < n ->
     MAT_AT (cmatrix_identity n) i j
     = if decide (i = j) then 1%float else 0%float).
Proof.
  split; [|apply (diagonal_loop (fun _ => 1%float))].
  unfold cmatrix_identity, cmatrix_diagonal, for_range. simpl.
  apply for_count_ext. intros i t Hi.
  rewrite rd_replicate by lia. reflexivity.
Qed.

(** X7: [cmatrix_clone] returns a copy equal to its (well-formed) argument. *)
Theorem cmatrix_clone_eq (m : CMatrix) : mat_wf m -> cmatrix_clone m = m.
Proof.
  intros Hm. unfold cmatrix_clone, mat_memcpy, cmatrix_alloc. simpl.
  unfold mat_wf in Hm. rewrite <- Hm.
  rewrite memcpy_whole by (rewrite length_replicate; reflexivity).
  destruct m; reflexivity.
Qed.

Lemma cmatrix_clone_eq_witness : cmatrix_clone matrix_1234 = matrix_1234.
Proof. apply (cmatrix_clone_eq matrix_1234). reflexivity. Defined.

(** ** [cmatrix_vstack] and [cmatrix_extend_column] *)

(** X8: [cmatrix_vstack] raises (an ArgumentError) exactly when the column
    counts differ; on well-formed matrices with the same column count it
    returns the matrix whose rows are those of [top] followed by those of
    [bottom]. *)
Theorem cmatrix_vstack_spec (top bottom : CMatrix) :
  (m_cols top <> m_cols bottom -> cmatrix_vstack top bottom = Raise rb_eArgError) /\
  (m_cols top = m_cols bottom -> mat_wf top -> mat_wf bottom ->
   cmatrix_vstack top bottom
   = Ok (mkCMatrix (m_rows top + m_rows bottom) (m_cols top)
           (m_data top ++ m_data bottom))).
Proof.
  unfold cmatrix_vstack. split.
  - intros H. rewrite (proj2 (Nat.eqb_neq _ _) H). reflexivity.
  - intros H Ht Hb. rewrite (proj2 (Nat.eqb_eq _ _) H). cbn [negb].
    unfold mat_memcpy, cmatrix_alloc. simpl. do 2 f_equal.
    unfold mat_wf in Ht, Hb. rewrite <- Ht, <- Hb.
    assert (Hlen : (m_rows top + m_rows bottom) * m_cols top
                   = length (m_data top) + length (m_data bottom))
      by (rewrite Ht, Hb, H; lia).
    rewrite Hlen.
    rewrite (memcpy_spec _ 0 (m_data top) 0 (length (m_data top)))
      by (rewrite ?length_replicate; lia).
    rewrite take_0, drop_0, firstn_all, drop_replicate. simpl.
    replace (length (m_data top) + length (m_data bottom) - length (m_data top))
      with (length (m_data bottom)) by lia.
    rewrite memcpy_spec
      by (rewrite ?length_app, ?length_replicate; lia).
    rewrite take_app_length, drop_0, firstn_all.
    rewrite drop_ge by (rewrite length_app, length_replicate; lia).
    rewrite app_nil_r. reflexivity.
Qed.

Lemma cmatrix_vstack_spec_example :
  cmatrix_vstack matrix_1234 identity_2x2
  = Ok (mkCMatrix 4 2 [1%float; 2%float; 3%float; 4%float;
                       1%float; 0%float; 0%float; 1%float]).
Proof. vm_compute. reflexivity. Qed.

(** [memcpy] into the bounds of the destination, cell by cell. *)
Lemma memcpy_rd dst doff src soff n :
  doff + n <= length dst ->
  (forall i, i < n -> rd (memcpy dst doff src soff n) (doff + i) = rd src (soff + i)) /\
  (forall k, k < doff \/ doff + n <= k ->
     rd (memcpy dst doff src soff n) k = rd dst k).
Proof.
  intros Hlen. unfold memcpy, for_range. rewrite Nat.sub_0_r.
  destruct (scatter_loop (fun i => doff + i) (fun i => rd src (soff + i)) n 0 dst)
    as (_ & L2 & L3).
  - intros i Hi. lia.
  - intros i i' _ _ H. lia.
  - split.
    + intros i Hi. apply L2. lia.
    + intros k Hk. apply L3. intros i Hi. lia.
Qed.

(** The loop of [cmatrix_extend_column] on the storage. *)
Lemma extend_column_loop (m : CMatrix) (col : CVector) :
  let C := m_cols m in
  let g := fun i d =>
    <[i * (C + 1) + C := rd (v_data col) i]>
      (memcpy d (i * (C + 1) + 0) (m_data m) (i * C + 0) C) in
  let d := for_count (m_rows m) 0 g (replicate (m_rows m * (C + 1)) 0%float) in
  length d = m_rows m * (C + 1) /\
  (forall i j, i < m_rows m -> j < C -> rd d (i * (C + 1) + j) = MAT_AT m i j) /\
  (forall i, i < m_rows m -> rd d (i * (C + 1) + C) = rd (v_data col) i).
Proof.
  intros C g d. subst d.
  pose (P := fun (n : nat) (d : list float) =>
    length d = m_rows m * (C + 1) /\
    (forall i j, i < n -> j < C -> rd d (i * (C + 1) + j) = MAT_AT m i j) /\
    (forall i, i < n -> rd d (i * (C + 1) + C) = rd (v_data col) i)).
  assert (HP : P (0 + m_rows m)
                 (for_count (m_rows m) 0 g (replicate (m_rows m * (C + 1)) 0%float))).
  { apply (for_count_ind P).
    - split; [apply length_replicate|]. split; intros; lia.
    - intros n d Hn (Hlen & Hold & Hcol).
      assert (Hb : n * (C + 1) + 0 + C <= length d) by (rewrite Hlen; nia).
      destruct (memcpy_rd d (n * (C + 1) + 0) (m_data m) (n * C + 0) C Hb)
        as [Hcopy Hkeep].
      unfold g. split; [rewrite length_insert, memcpy_length; exact Hlen|].
      split.
      + intros i j Hi Hj.
        rewrite rd_insert_ne.
        2:{ intros Heq. destruct (row_major_inj2 (C + 1) n C i j); [lia|lia|exact Heq|lia]. }
        destruct (decide (i = n)) as [->|Hne].
        * replace (n * (C + 1) + j) with (n * (C + 1) + 0 + j) by lia.
          rewrite Hcopy by exact Hj. unfold MAT_AT. fold C. f_equal. lia.
        * rewrite Hkeep by nia. apply Hold; [lia|exact Hj].
      + intros i Hi. destruct (decide (i = n)) as [->|Hne].
        * apply rd_insert_eq. rewrite memcpy_length, Hlen. nia.
        * rewrite rd_insert_ne.
          2:{ intros Heq. destruct (row_major_inj2 (C + 1) n C i C); [lia|lia|exact Heq|lia]. }
          rewrite Hkeep by nia. apply Hcol. lia. }
  exact HP.
Qed.

(** X9: [cmatrix_extend_column] raises (an ArgumentError) exactly when the
    vector has not as many elements as the matrix has rows; otherwise it
    returns a well-formed matrix with one more column, whose first columns
    are those of the matrix and whose last column is the vector. *)
Theorem cmatrix_extend_column_spec (m : CMatrix) (col : CVector) :
  (m_rows m <> v_size col -> cmatrix_extend_column m col = Raise rb_eArgError) /\
  (m_rows m = v_size col ->
   exists r,
     cmatrix_extend_column m col = Ok r /\
     m_rows r = m_rows m /\ m_cols r = m_cols m + 1 /\ mat_wf r /\
     (forall i j, i < m_rows m -> j < m_cols m -> MAT_AT r i j = MAT_AT m i j) /\
     (forall i, i < m_rows m -> MAT_AT r i (m_cols m) = rd (v_data col) i)).
Proof.
  unfold cmatrix_extend_column. split; intros H.
  - rewrite (proj2 (Nat.eqb_neq _ _) H). reflexivity.
  - rewrite (proj2 (Nat.eqb_eq _ _) H). cbn [negb].
    eexists. split; [reflexivity|].
    unfold for_range. rewrite Nat.sub_0_r.
    rewrite (mat_loop_lift (m_rows m) 0 _
      (fun i d => <[i * (m_cols m + 1) + m_cols m := rd (v_data col) i]>
         (memcpy d (i * (m_cols m + 1) + 0) (m_data m) (i * m_cols m + 0)
            (m_cols m)))).
    2:{ intros i t Ht. apply dims_inv in Ht. destruct Ht as [Hr Hc].
        simpl in Hr, Hc. unfold MAT_SET, mat_memcpy. simpl.
        rewrite Hr, Hc. reflexivity. }
    simpl m_rows. simpl m_cols. simpl m_data.
    destruct (extend_column_loop m col) as (L1 & L2 & L3).
    split; [reflexivity|]. split; [reflexivity|]. split; [exact L1|].
    split.
    + intros i j Hi Hj. unfold MAT_AT at 1. simpl. apply L2; assumption.
    + intros i Hi. unfold MAT_AT. simpl. apply L3; assumption.
Qed.

(** ** Vector arithmetic *)

Lemma SFmul_comm (x y : spec_float) : SFmul prec emax x y = SFmul prec emax y x.
Proof.
  destruct x as [sx|sx| |sx mx ex], y as [sy|sy| |sy my ey]; simpl;
    rewrite ?(xorb_comm sy sx); try reflexivity.
  rewrite (Pos.mul_comm my mx), (Z.add_comm ey ex). reflexivity.
Qed.

(** The binary64 product is commutative. *)
Lemma float_mul_comm (x y : float) : (x * y)%float = (y * x)%float.
Proof.
  apply Prim2SF_inj. rewrite !mul_spec. apply SFmul_comm.
Qed.

(** X10: [cvector_dot] raises (an ArgumentError) exactly when the sizes
    differ, and is commutative: both orders of the operands give the same
    result, bit for bit. *)
Theorem cvector_dot_spec (a b : CVector) :
  (v_size a <> v_size b -> cvector_dot a b = Raise rb_eArgError) /\
  (v_size a = v_size b -> exists x, cvector_dot a b = Ok x) /\
  cvector_dot a b = cvector_dot b a.
Proof.
  unfold cvector_dot. split; [|split].
  - intros H. rewrite (proj2 (Nat.eqb_neq _ _) H). reflexivity.
  - intros H. rewrite (proj2 (Nat.eqb_eq _ _) H). eexists. reflexivity.
  - rewrite (Nat.eqb_sym (v_size b) (v_size a)).
    destruct (v_size a =? v_size b) eqn:Heq; [|reflexivity].
    apply Nat.eqb_eq in Heq. cbn [negb]. f_equal. rewrite <- Heq.
    unfold for_range. apply for_count_ext. intros i sum _.
    rewrite float_mul_comm. reflexivity.
Qed.

(** A binary64 square root is never negative (it may be a NaN or [-0]). *)
Lemma sqrt_not_negative (x : float) : (PrimFloat.sqrt x <? 0)%float = false.
Proof.
  rewrite ltb_spec, sqrt_spec.
  change (Prim2SF 0) with (S754_zero false).
  unfold SF64sqrt, SFsqrt, SFltb.
  destruct (Prim2SF x) as [s|s| |s m e]; try reflexivity;
    try (destruct s; reflexivity).
  destruct s; [reflexivity|].
  unfold SFsqrt_core_binary.
  match goal with |- context [Z.sqrtrem ?a] =>
    pose proof (Z.sqrt_nonneg a) as Hq; rewrite <- Z.sqrtrem_sqrt in Hq;
    destruct (Z.sqrtrem a) as [q r] end.
  simpl in Hq.
  match goal with |- context [binary_round_aux prec emax false ?m ?e ?l] =>
    pose proof (binary_round_aux_nonneg m e l Hq) as Hr;
    destruct (binary_round_aux prec emax false m e l) as [s'|s'| |s' m' e'] end;
    try reflexivity; destruct s'; try reflexivity; discriminate Hr.
Qed.

(** The sum of squares of a vector of [+0.0]. *)
Lemma sum_squares_zero (n : nat) (d : list float) :
  (forall i, i < n -> rd d i = 0%float) ->
  for_range 0 n (fun i sum => (sum + rd d i * rd d i)%float) 0%float = 0%float.
Proof.
  intros Hd. unfold for_range. rewrite Nat.sub_0_r.
  apply (for_count_ind (fun _ sum => sum = 0%float) n 0); [reflexivity|].
  intros i sum Hi ->. rewrite Hd by lia. reflexivity.
Qed.

(** X11: the magnitude of a vector is never negative, whatever the vector
    holds, and the magnitude of a zero vector is 0.0. *)
Theorem cvector_magnitude_sign (v : CVector) :
  (cvector_magnitude v <? 0)%float = false /\
  ((forall i, i < v_size v -> rd (v_data v) i = 0%float) ->
   cvector_magnitude v = 0%float).
Proof.
  split; [apply sqrt_not_negative|].
  intros Hz. unfold cvector_magnitude. rewrite sum_squares_zero by exact Hz.
  reflexivity.
Qed.

(** A binary64 number that compares equal to zero is [+0.0] or [-0.0]; its
    square is [+0.0]. *)
Lemma square_of_zero (x : float) :
  (x =? 0)%float = true -> (x * x)%float = 0%float.
Proof.
  intros Hx. apply Prim2SF_inj. rewrite mul_spec.
  rewrite FloatAxioms.eqb_spec in Hx.
  change (Prim2SF 0) with (S754_zero false) in *.
  destruct (Prim2SF x) as [s|s| |s m e]; try discriminate Hx.
  - destruct s; reflexivity.
  - destruct s; discriminate Hx.
  - destruct s; discriminate Hx.
Qed.

(** The sum of squares of a vector of zeros of either sign. *)
Lemma sum_squares_signed_zero (n : nat) (d : list float) :
  (forall i, i < n -> (rd d i =? 0)%float = true) ->
  for_range 0 n (fun i sum => (sum + rd d i * rd d i)%float) 0%float = 0%float.
Proof.
  intros Hd. unfold for_range. rewrite Nat.sub_0_r.
  apply (for_count_ind (fun _ sum => sum = 0%float) n 0); [reflexivity|].
  intros i sum Hi ->. rewrite square_of_zero by (apply Hd; lia). reflexivity.
Qed.

(** X12: [cvector_normalize] maps a vector whose elements are all zero, of
    either sign, to the vector of [+0.0] of the same size and orientation
    tag.  An element [-0.0] comes back as [+0.0]: the result is the argument
    exactly when the argument is a well-formed vector of [+0.0]. *)
Theorem cvector_normalize_zero (v : CVector) :
  (forall i, i < v_size v -> (rd (v_data v) i =? 0)%float = true) ->
  cvector_normalize v
  = mkCVector (v_size v) (replicate (v_size v) 0%float) (v_is_col v) /\
  (cvector_normalize v = v <->
   vec_wf v /\ forall i, i < v_size v -> rd (v_data v) i = 0%float).
Proof.
  intros Hz.
  assert (Hn : cvector_normalize v
               = mkCVector (v_size v) (replicate (v_size v) 0%float) (v_is_col v)).
  { unfold cvector_normalize, cvector_magnitude.
    rewrite sum_squares_signed_zero by exact Hz.
    change (PrimFloat.sqrt 0 <=? CLASSIFIER_EPSILON)%float with true. cbv iota.
    reflexivity. }
  split; [exact Hn|]. rewrite Hn.
  destruct v as [n d c]. unfold vec_wf. simpl. split.
  - intros Heq. injection Heq as Hd. rewrite <- Hd.
    split; [apply length_replicate|].
    intros i Hi. unfold rd. rewrite lookup_replicate_2 by exact Hi. reflexivity.
  - intros [Hw Hp]. f_equal.
    apply list_eq. intros i. destruct (decide (i < n)) as [Hi|Hi].
    + rewrite lookup_replicate_2 by exact Hi.
      destruct (lookup_lt_is_Some_2 d i) as [x Hx]; [lia|].
      rewrite Hx. f_equal. rewrite <- (Hp i Hi). apply rd_lookup, Hx.
    + rewrite !lookup_ge_None_2 by (rewrite ?length_replicate; lia). reflexivity.
Qed.

Lemma cvector_normalize_zero_witness :
  cvector_normalize (mkCVector 2 [(-0)%float; 0%float] 1)
  = mkCVector 2 (replicate 2 0%float) 1 /\
  (cvector_normalize (mkCVector 2 [(-0)%float; 0%float] 1)
   = mkCVector 2 [(-0)%float; 0%float] 1 <->
   vec_wf (mkCVector 2 [(-0)%float; 0%float] 1) /\
   forall i, i < 2 -> rd [(-0)%float; 0%float] i = 0%float).
Proof.
  apply (cvector_normalize_zero (mkCVector 2 [(-0)%float; 0%float] 1)).
  intros i Hi. simpl in Hi.
  destruct i as [|[|i]]; [reflexivity | reflexivity | lia].
Defined.

(** X13: [cvector_subtract] raises (an ArgumentError) exactly when the sizes
    differ; otherwise it returns the element-wise differences in a vector of
    the same size, tagged as a row vector whatever the operands are.
    [Vector#-] is this subtraction on a Vector operand and raises a TypeError
    on any other. *)
Theorem cvector_subtract_spec (a b : CVector) :
  (v_size a <> v_size b -> cvector_subtract a b = Raise rb_eArgError) /\
  (v_size a = v_size b ->
   cvector_subtract a b
   = Ok (mkCVector (v_size a)
           (map (fun i => (rd (v_data a) i - rd (v_data b) i)%float)
              (seq 0 (v_size a))) 0)) /\
  rb_cvector_subtract a (RbVector b) = cvector_subtract a b /\
  (forall x, (forall w, x <> RbVector w) ->
     rb_cvector_subtract a x = Raise rb_eTypeError).
Proof.
  split; [apply cvector_subtract_raise|]. split; [|split; [reflexivity|]].
  - intros H. unfold cvector_subtract.
    rewrite (proj2 (Nat.eqb_eq _ _) H). cbn [negb]. f_equal.
    unfold cvector_alloc.
    apply (vec_fill (fun i => (rd (v_data a) i - rd (v_data b) i)%float)).
  - intros x Hx. destruct x; try reflexivity. exfalso. apply (Hx v). reflexivity.
Qed.

(** ** Indexing: [Vector#[]], [Vector#[]=], [Matrix#[]], [Matrix#[]=] *)

(** The index arithmetic on machine words, for a [long] index and a size
    below [2^63]. *)
Lemma wrap_index_eq (i : Z) (size : nat) :
  (- 2 ^ 63 <= i < 2 ^ 63)%Z -> (Z.of_nat size < 2 ^ 63)%Z ->
  wrap_index i size = if (i <? 0)%Z then (i + Z.of_nat size)%Z else i.
Proof.
  intros Hi Hs. unfold wrap_index.
  destruct (i <? 0)%Z eqn:Hneg; [|reflexivity].
  apply Z.ltb_lt in Hneg. unfold to_long, to_size_t.
  assert (H1 : (i mod 2 ^ 64 = i + 2 ^ 64)%Z).
  { symmetry. apply (Z.mod_unique_pos _ _ (-1)); lia. }
  rewrite H1.
  destruct (Z_lt_ge_dec (i + Z.of_nat size) 0) as [Hlt|Hge].
  - assert (H2 : ((i + 2 ^ 64 + Z.of_nat size) mod 2 ^ 64
                  = i + Z.of_nat size + 2 ^ 64)%Z).
    { symmetry. apply (Z.mod_unique_pos _ _ 0); lia. }
    rewrite H2.
    assert (H3 : ((i + Z.of_nat size + 2 ^ 64 + 2 ^ 63) mod 2 ^ 64
                  = i + Z.of_nat size + 2 ^ 63)%Z).
    { symmetry. apply (Z.mod_unique_pos _ _ 1); lia. }
    rewrite H3. lia.
  - assert (H2 : ((i + 2 ^ 64 + Z.of_nat size) mod 2 ^ 64
                  = i + Z.of_nat size)%Z).
    { symmetry. apply (Z.mod_unique_pos _ _ 1); lia. }
    rewrite H2.
    assert (H3 : ((i + Z.of_nat size + 2 ^ 63) mod 2 ^ 64
                  = i + Z.of_nat size + 2 ^ 63)%Z).
    { symmetry. apply (Z.mod_unique_pos _ _ 0); lia. }
    rewrite H3. lia.
Qed.

Lemma index_out_of_bounds_eq (j : Z) (size : nat) :
  (- 2 ^ 63 <= j < 2 ^ 63)%Z ->
  index_out_of_bounds j size = negb ((0 <=? j)%Z && (j <? Z.of_nat size)%Z).
Proof.
  intros Hj. unfold index_out_of_bounds.
  destruct (j <? 0)%Z eqn:Hneg.
  - apply Z.ltb_lt in Hneg. rewrite (proj2 (Z.leb_gt 0 j)) by lia. reflexivity.
  - apply Z.ltb_ge in Hneg. rewrite (proj2 (Z.leb_le 0 j)) by lia. simpl.
    unfold to_size_t. rewrite Z.mod_small by lia.
    rewrite Z.geb_leb, Z.leb_antisym. reflexivity.
Qed.

(** An index from [-size] to [size - 1] resolves to the cell [i mod size]. *)
Lemma index_resolves (i : Z) (size : nat) :
  (- 2 ^ 63 <= i < 2 ^ 63)%Z -> (Z.of_nat size < 2 ^ 63)%Z ->
  (- Z.of_nat size <= i < Z.of_nat size)%Z ->
  index_out_of_bounds (wrap_index i size) size = false /\
  Z.to_nat (wrap_index i size) = Z.to_nat (i mod Z.of_nat size) /\
  Z.to_nat (i mod Z.of_nat size) < size.
Proof.
  intros Hi Hs Hr. rewrite (wrap_index_eq i size Hi Hs).
  destruct (i <? 0)%Z eqn:Hneg.
  - apply Z.ltb_lt in Hneg.
    assert (Hm : (i mod Z.of_nat size = i + Z.of_nat size)%Z).
    { symmetry. apply (Z.mod_unique_pos _ _ (-1)); lia. }
    rewrite Hm, index_out_of_bounds_eq by lia.
    rewrite (proj2 (Z.leb_le _ _)), (proj2 (Z.ltb_lt _ _)) by lia.
    split; [reflexivity|]. split; lia.
  - apply Z.ltb_ge in Hneg.
    rewrite Z.mod_small, index_out_of_bounds_eq by lia.
    rewrite (proj2 (Z.leb_le _ _)), (proj2 (Z.ltb_lt _ _)) by lia.
    split; [reflexivity|]. split; lia.
Qed.

(** Any other index is out of bounds. *)
Lemma index_rejected (i : Z) (size : nat) :
  (- 2 ^ 63 <= i < 2 ^ 63)%Z -> (Z.of_nat size < 2 ^ 63)%Z ->
  (i < - Z.of_nat size \/ Z.of_nat size <= i)%Z ->
  index_out_of_bounds (wrap_index i size) size = true.
Proof.
  intros Hi Hs Hr. rewrite (wrap_index_eq i size Hi Hs).
  destruct (i <? 0)%Z eqn:Hneg.
  - apply Z.ltb_lt in Hneg. rewrite index_out_of_bounds_eq by lia.
    rewrite (proj2 (Z.leb_gt _ _)) by lia. reflexivity.
  - apply Z.ltb_ge in Hneg. rewrite index_out_of_bounds_eq by lia.
    rewrite (proj2 (Z.ltb_ge _ _)) by lia. apply negb_true_iff, andb_false_r.
Qed.

(** X14: [Vector#[]] with an index from [-size] to [size - 1] returns the
    element at [idx mod size] (a negative index counts from the end); any
    other index raises an IndexError. *)
Theorem rb_cvector_aref_spec (v : CVector) (idx : Z) :
  (- 2 ^ 63 <= idx < 2 ^ 63)%Z -> (Z.of_nat (v_size v) < 2 ^ 63)%Z ->
  ((- Z.of_nat (v_size v) <= idx < Z.of_nat (v_size v))%Z ->
   rb_cvector_aref v idx
   = Ok (rd (v_data v) (Z.to_nat (idx mod Z.of_nat (v_size v))))) /\
  ((idx < - Z.of_nat (v_size v) \/ Z.of_nat (v_size v) <= idx)%Z ->
   rb_cvector_aref v idx = Raise rb_eIndexError).
Proof.
  intros Hi Hs. unfold rb_cvector_aref. split; intros Hr.
  - destruct (index_resolves idx (v_size v) Hi Hs Hr) as (H1 & H2 & _).
    rewrite H1, H2. reflexivity.
  - rewrite (index_rejected idx (v_size v) Hi Hs Hr). reflexivity.
Qed.

Lemma rb_cvector_aref_spec_witness :
  ((- Z.of_nat (v_size vector_3_4) <= -1 < Z.of_nat (v_size vector_3_4))%Z ->
   rb_cvector_aref vector_3_4 (-1)
   = Ok (rd (v_data vector_3_4)
           (Z.to_nat ((-1) mod Z.of_nat (v_size vector_3_4))))) /\
  ((-1 < - Z.of_nat (v_size vector_3_4) \/ Z.of_nat (v_size vector_3_4) <= -1)%Z ->
   rb_cvector_aref vector_3_4 (-1) = Raise rb_eIndexError).
Proof.
  apply (rb_cvector_aref_spec vector_3_4 (-1)); vm_compute; split; congruence.
Defined.

Example rb_cvector_aref_last :
  rb_cvector_aref vector_3_4 (-1) = Ok 4%float /\
  rb_cvector_aref vector_3_4 2 = Raise rb_eIndexError /\
  rb_cvector_aref vector_3_4 (-3) = Raise rb_eIndexError.
Proof. repeat split. Qed.

(** X15: [Vector#[]=] with an index from [-size] to [size - 1] returns the
    assigned value and leaves a vector of the same size and orientation in
    which that index reads the value back and every index that names another
    cell reads what it read before; any other index raises an IndexError. *)
Theorem rb_cvector_aset_aref (v : CVector) (idx : Z) (val : float) :
  vec_wf v ->
  (- 2 ^ 63 <= idx < 2 ^ 63)%Z -> (Z.of_nat (v_size v) < 2 ^ 63)%Z ->
  ((- Z.of_nat (v_size v) <= idx < Z.of_nat (v_size v))%Z ->
   exists v',
     rb_cvector_aset v idx val = Ok (v', val) /\
     v_size v' = v_size v /\ v_is_col v' = v_is_col v /\ vec_wf v' /\
     rb_cvector_aref v' idx = Ok val /\
     (forall idx', (- Z.of_nat (v_size v) <= idx' < Z.of_nat (v_size v))%Z ->
        (idx' mod Z.of_nat (v_size v) <> idx mod Z.of_nat (v_size v))%Z ->
        rb_cvector_aref v' idx' = rb_cvector_aref v idx')) /\
  ((idx < - Z.of_nat (v_size v) \/ Z.of_nat (v_size v) <= idx)%Z ->
   rb_cvector_aset v idx val = Raise rb_eIndexError).
Proof.
  intros Hw Hi Hs. unfold rb_cvector_aset. split; intros Hr.
  - destruct (index_resolves idx (v_size v) Hi Hs Hr) as (H1 & H2 & H3).
    rewrite H1, H2. eexists. split; [reflexivity|].
    split; [reflexivity|]. split; [reflexivity|].
    split; [apply vec_wf_vec_set, Hw|]. split.
    + unfold rb_cvector_aref. simpl. rewrite H1, H2.
      rewrite rd_insert_eq by (rewrite Hw; exact H3). reflexivity.
    + intros idx' Hr' Hne. unfold rb_cvector_aref. simpl.
      assert (Hi' : (- 2 ^ 63 <= idx' < 2 ^ 63)%Z) by lia.
      destruct (index_resolves idx' (v_size v) Hi' Hs Hr') as (H1' & H2' & H3').
      rewrite H1', H2'. rewrite rd_insert_ne; [reflexivity|].
      intros Heq. apply Hne. apply Z2Nat.inj in Heq; [congruence| |];
        apply Z.mod_pos_bound; lia.
  - rewrite (index_rejected idx (v_size v) Hi Hs Hr). reflexivity.
Qed.

Lemma rb_cvector_aset_aref_witness :
  ((- Z.of_nat (v_size vector_3_4) <= -1 < Z.of_nat (v_size vector_3_4))%Z ->
   exists v',
     rb_cvector_aset vector_3_4 (-1) 7 = Ok (v', 7%float) /\
     v_size v' = v_size vector_3_4 /\ v_is_col v' = v_is_col vector_3_4 /\
     vec_wf v' /\
     rb_cvector_aref v' (-1) = Ok 7%float /\
     (forall idx',
        (- Z.of_nat (v_size vector_3_4) <= idx' < Z.of_nat (v_size vector_3_4))%Z ->
        (idx' mod Z.of_nat (v_size vector_3_4)
         <> (-1) mod Z.of_nat (v_size vector_3_4))%Z ->
        rb_cvector_aref v' idx' = rb_cvector_aref vector_3_4 idx')) /\
  ((-1 < - Z.of_nat (v_size vector_3_4) \/ Z.of_nat (v_size vector_3_4) <= -1)%Z ->
   rb_cvector_aset vector_3_4 (-1) 7 = Raise rb_eIndexError).
Proof.
  apply (rb_cvector_aset_aref vector_3_4 (-1) 7).
  - reflexivity.
  - vm_compute. split; congruence.
  - vm_compute. reflexivity.
Defined.

Lemma MAT_AT_MAT_SET (m : CMatrix) (i j i' j' : nat) (x : float) :
  mat_wf m -> i < m_rows m -> j < m_cols m -> j' < m_cols m ->
  MAT_AT (MAT_SET m i j x) i' j'
  = if decide (i' = i /\ j' = j) then x else MAT_AT m i' j'.
Proof.
  intros Hw Hi Hj Hj'. unfold MAT_AT, MAT_SET. simpl.
  destruct (decide (i' = i /\ j' = j)) as [[-> ->]|Hne].
  - apply rd_insert_eq. rewrite Hw. apply row_major_bound2; assumption.
  - apply rd_insert_ne. intros Heq. apply Hne.
    destruct (row_major_inj2 (m_cols m) i j i' j'); auto.
Qed.

(** X16: [Matrix#[]] and [Matrix#[]=] take a row index from [-rows] to
    [rows - 1] and a column index from [-cols] to [cols - 1], negative ones
    counting from the end, and raise an IndexError for any other pair.  After
    an assignment the matrix has the same shape, the assigned cell reads the
    value back and every other cell is unchanged. *)
Theorem rb_cmatrix_aset_aref (m : CMatrix) (row col : Z) (val : float) :
  mat_wf m ->
  (- 2 ^ 63 <= row < 2 ^ 63)%Z -> (- 2 ^ 63 <= col < 2 ^ 63)%Z ->
  (Z.of_nat (m_rows m) < 2 ^ 63)%Z -> (Z.of_nat (m_cols m) < 2 ^ 63)%Z ->
  ((- Z.of_nat (m_rows m) <= row < Z.of_nat (m_rows m))%Z ->
   (- Z.of_nat (m_cols m) <= col < Z.of_nat (m_cols m))%Z ->
   rb_cmatrix_aref m row col
   = Ok (MAT_AT m (Z.to_nat (row mod Z.of_nat (m_rows m)))
           (Z.to_nat (col mod Z.of_nat (m_cols m)))) /\
   exists m',
     rb_cmatrix_aset m row col val = Ok (m', val) /\
     dims m' = dims m /\ mat_wf m' /\
     rb_cmatrix_aref m' row col = Ok val /\
     (forall row' col',
        (- Z.of_nat (m_rows m) <= row' < Z.of_nat (m_rows m))%Z ->
        (- Z.of_nat (m_cols m) <= col' < Z.of_nat (m_cols m))%Z ->
        (row' mod Z.of_nat (m_rows m) <> row mod Z.of_nat (m_rows m) \/
         col' mod Z.of_nat (m_cols m) <> col mod Z.of_nat (m_cols m))%Z ->
        rb_cmatrix_aref m' row' col' = rb_cmatrix_aref m row' col')) /\
  ((row < - Z.of_nat (m_rows m) \/ Z.of_nat (m_rows m) <= row \/
    col < - Z.of_nat (m_cols m) \/ Z.of_nat (m_cols m) <= col)%Z ->
   rb_cmatrix_aref m row col = Raise rb_eIndexError /\
   rb_cmatrix_aset m row col val = Raise rb_eIndexError).
Proof.
  intros Hw Hi Hj Hr Hc. unfold rb_cmatrix_aset, rb_cmatrix_aref. split.
  - intros Hri Hcj.
    destruct (index_resolves row (m_rows m) Hi Hr Hri) as (I1 & I2 & I3).
    destruct (index_resolves col (m_cols m) Hj Hc Hcj) as (J1 & J2 & J3).
    rewrite I1, J1, I2, J2. simpl orb. cbv iota.
    split; [reflexivity|].
    eexists. split; [reflexivity|]. split; [reflexivity|].
    split; [apply mat_wf_MAT_SET, Hw|]. split.
    + simpl m_rows. simpl m_cols. rewrite I1, J1, I2, J2. simpl orb. cbv iota.
      rewrite MAT_AT_MAT_SET by assumption.
      destruct (decide _) as [_|Hn]; [reflexivity|]. exfalso. apply Hn. auto.
    + intros row' col' Hri' Hcj' Hne.
      simpl m_rows. simpl m_cols.
      assert (Hi' : (- 2 ^ 63 <= row' < 2 ^ 63)%Z) by lia.
      assert (Hj' : (- 2 ^ 63 <= col' < 2 ^ 63)%Z) by lia.
      destruct (index_resolves row' (m_rows m) Hi' Hr Hri') as (I1' & I2' & I3').
      destruct (index_resolves col' (m_cols m) Hj' Hc Hcj') as (J1' & J2' & J3').
      rewrite I1', J1', I2', J2'. simpl orb. cbv iota.
      rewrite MAT_AT_MAT_SET by assumption.
      destruct (decide _) as [[Ha Hb]|_]; [|reflexivity].
      exfalso. destruct Hne as [Hne|Hne]; apply Hne.
      * apply Z2Nat.inj in Ha; [exact Ha| |]; apply Z.mod_pos_bound; lia.
      * apply Z2Nat.inj in Hb; [exact Hb| |]; apply Z.mod_pos_bound; lia.
  - intros Hout.
    assert (Hb : index_out_of_bounds (wrap_index row (m_rows m)) (m_rows m)
                 || index_out_of_bounds (wrap_index col (m_cols m)) (m_cols m)
                 = true).
    { destruct Hout as [H|[H|[H|H]]].
      - rewrite (index_rejected row (m_rows m) Hi Hr) by lia. reflexivity.
      - rewrite (index_rejected row (m_rows m) Hi Hr) by lia. reflexivity.
      - rewrite (index_rejected col (m_cols m) Hj Hc) by lia. apply orb_true_r.
      - rewrite (index_rejected col (m_cols m) Hj Hc) by lia. apply orb_true_r. }
    rewrite Hb. split; reflexivity.
Qed.

Lemma rb_cmatrix_aset_aref_witness :
  rb_cmatrix_aref matrix_1234 (-1) (-2) = Ok 3%float /\
  exists m',
    rb_cmatrix_aset matrix_1234 (-1) (-2) 9 = Ok (m', 9%float) /\
    rb_cmatrix_aref m' 1 0 = Ok 9%float.
Proof.
  destruct (rb_cmatrix_aset_aref matrix_1234 (-1) (-2) 9) as [Hin _].
  - reflexivity.
  - vm_compute. split; congruence.
  - vm_compute. split; congruence.
  - vm_compute. reflexivity.
  - vm_compute. reflexivity.
  - destruct Hin as [Href (m' & Hset & _ & _ & Hget & _)].
    + vm_compute. split; congruence.
    + vm_compute. split; congruence.
    + split; [vm_compute; reflexivity|].
      exists m'. split; [exact Hset|].
      vm_compute in Hset. injection Hset as <-. vm_compute. reflexivity.
Defined.

(** ** Conversions: [to_a], [Vector.alloc], [Vector#row], [Vector#col] *)

(** The loop [for (i = lo; i < lo + n; i++) rb_ary_push(ary, f(i))]. *)
Lemma push_loop {A : Type} (f : nat -> A) n lo (ary : list A) :
  for_count n lo (fun i ary => ary ++ [f i]) ary = ary ++ map f (seq lo n).
Proof.
  revert lo ary. induction n as [|n IH]; intros lo ary; simpl.
  - rewrite app_nil_r. reflexivity.
  - rewrite IH, <- app_assoc. reflexivity.
Qed.

Lemma map_rd_all (l : list float) : map (rd l) (seq 0 (length l)) = l.
Proof.
  transitivity (map (fun i => rd l (0 + i)) (seq 0 (length l))); [reflexivity|].
  rewrite (map_rd_seq l 0 (length l)) by lia.
  rewrite drop_0. apply firstn_all.
Qed.

Lemma rb_cvector_to_a_eq (v : CVector) :
  rb_cvector_to_a v = map (rd (v_data v)) (seq 0 (v_size v)).
Proof.
  unfold rb_cvector_to_a, for_range. rewrite Nat.sub_0_r.
  apply (push_loop (rd (v_data v))).
Qed.

Lemma rb_cvector_s_alloc_array (ary : list float) :
  rb_cvector_s_alloc (ArrayArg ary) = mkCVector (length ary) ary 0.
Proof.
  unfold rb_cvector_s_alloc, cvector_alloc.
  rewrite (vec_fill (rd ary)). rewrite map_rd_all. reflexivity.
Qed.

(** X17: [Vector.alloc] of an array and [Vector#to_a] are inverse of each
    other: the array is read back unchanged, and a (well-formed) vector is
    rebuilt from its array up to the orientation tag, which [Vector.alloc]
    sets to row. *)
Theorem rb_cvector_alloc_to_a (ary : list float) (v : CVector) :
  rb_cvector_to_a (rb_cvector_s_alloc (ArrayArg ary)) = ary /\
  rb_cvector_size (rb_cvector_s_alloc (ArrayArg ary)) = length ary /\
  (vec_wf v ->
   rb_cvector_to_a v = v_data v /\
   rb_cvector_s_alloc (ArrayArg (rb_cvector_to_a v)) = set_is_col v 0).
Proof.
  rewrite rb_cvector_s_alloc_array. split; [|split].
  - rewrite rb_cvector_to_a_eq. simpl. apply map_rd_all.
  - reflexivity.
  - intros Hw. unfold vec_wf in Hw.
    assert (Ha : rb_cvector_to_a v = v_data v)
      by (rewrite rb_cvector_to_a_eq, <- Hw; apply map_rd_all).
    split; [exact Ha|].
    rewrite Ha, rb_cvector_s_alloc_array, Hw. reflexivity.
Qed.

(** X18: [Vector#row] and [Vector#col] return a copy of a (well-formed)
    vector with the same size and elements, tagged row and column. *)
Theorem rb_cvector_row_col (v : CVector) :
  vec_wf v ->
  rb_cvector_row v = set_is_col v 0 /\
  rb_cvector_col v = set_is_col v 1 /\
  rb_cvector_to_a (rb_cvector_row v) = rb_cvector_to_a v /\
  rb_cvector_to_a (rb_cvector_col v) = rb_cvector_to_a v.
Proof.
  intros Hw. unfold vec_wf in Hw.
  assert (Hr : rb_cvector_row v = set_is_col v 0).
  { unfold rb_cvector_row, vec_memcpy, set_is_col, cvector_alloc. simpl.
    rewrite <- Hw.
    rewrite memcpy_whole by (rewrite length_replicate; reflexivity).
    reflexivity. }
  assert (Hc : rb_cvector_col v = set_is_col v 1).
  { unfold rb_cvector_col, vec_memcpy, set_is_col, cvector_alloc. simpl.
    rewrite <- Hw.
    rewrite memcpy_whole by (rewrite length_replicate; reflexivity).
    reflexivity. }
  rewrite Hr, Hc. repeat split.
Qed.

Lemma rb_cvector_row_col_witness :
  rb_cvector_row vector_3_4 = set_is_col vector_3_4 0 /\
  rb_cvector_col vector_3_4 = set_is_col vector_3_4 1 /\
  rb_cvector_to_a (rb_cvector_row vector_3_4) = rb_cvector_to_a vector_3_4 /\
  rb_cvector_to_a (rb_cvector_col vector_3_4) = rb_cvector_to_a vector_3_4.
Proof. apply (rb_cvector_row_col vector_3_4). reflexivity. Defined.

(** ** [Matrix#row], [Matrix#column] and [Matrix#to_a] *)

Lemma rb_cmatrix_column_ok (m : CMatrix) (j : nat) :
  (Z.of_nat (m_cols m) < 2 ^ 63)%Z -> j < m_cols m ->
  rb_cmatrix_column m (Z.of_nat j)
  = Ok (mkCVector (m_rows m) (map (fun i => MAT_AT m i j) (seq 0 (m_rows m))) 1).
Proof.
  intros Hc Hj. unfold rb_cmatrix_column.
  destruct (index_resolves (Z.of_nat j) (m_cols m)) as (H1 & H2 & _); [lia|lia|lia|].
  rewrite H1, H2, Z.mod_small, Nat2Z.id by lia.
  f_equal. unfold cvector_alloc, set_is_col. simpl.
  apply (vec_fill (fun i => MAT_AT m i j)).
Qed.

Lemma rb_cmatrix_row_ok (m : CMatrix) (i : nat) :
  mat_wf m -> (Z.of_nat (m_rows m) < 2 ^ 63)%Z -> i < m_rows m ->
  rb_cmatrix_row m (Z.of_nat i)
  = Ok (mkCVector (m_cols m) (map (fun j => MAT_AT m i j) (seq 0 (m_cols m))) 0).
Proof.
  intros Hw Hr Hi. unfold rb_cmatrix_row.
  destruct (index_resolves (Z.of_nat i) (m_rows m)) as (H1 & H2 & _); [lia|lia|lia|].
  rewrite H1, H2, Z.mod_small, Nat2Z.id by lia.
  f_equal. unfold vec_memcpy, cvector_alloc, set_is_col. simpl. f_equal.
  assert (Hb : i * m_cols m + 0 + m_cols m <= length (m_data m))
    by (rewrite Hw; nia).
  rewrite memcpy_spec by (rewrite ?length_replicate; lia).
  rewrite take_0, (drop_ge (replicate _ _)) by (rewrite length_replicate; lia).
  rewrite app_nil_r. simpl.
  rewrite <- (map_rd_seq (m_data m) (i * m_cols m + 0) (m_cols m)) by exact Hb.
  apply map_ext. intros j. unfold MAT_AT. f_equal. lia.
Qed.

(** X19: [Matrix#column(j)] returns the column as a column-tagged vector and
    [Matrix#row(i)] the row as a row-tagged vector, and raise an IndexError
    for an index past the end; the rows of a (well-formed) matrix are the
    columns of its transpose. *)
Theorem rb_cmatrix_row_column (m : CMatrix) (i j : nat) :
  mat_wf m ->
  (Z.of_nat (m_rows m) < 2 ^ 63)%Z -> (Z.of_nat (m_cols m) < 2 ^ 63)%Z ->
  (Z.of_nat i < 2 ^ 63)%Z -> (Z.of_nat j < 2 ^ 63)%Z ->
  (j < m_cols m ->
   rb_cmatrix_column m (Z.of_nat j)
   = Ok (mkCVector (m_rows m) (map (fun i => MAT_AT m i j) (seq 0 (m_rows m))) 1)) /\
  (i < m_rows m ->
   rb_cmatrix_row m (Z.of_nat i)
   = Ok (mkCVector (m_cols m) (map (fun j => MAT_AT m i j) (seq 0 (m_cols m))) 0) /\
   rb_cmatrix_column (cmatrix_transpose m) (Z.of_nat i)
   = Ok (mkCVector (m_cols m) (map (fun j => MAT_AT m i j) (seq 0 (m_cols m))) 1)) /\
  (m_cols m <= j -> rb_cmatrix_column m (Z.of_nat j) = Raise rb_eIndexError) /\
  (m_rows m <= i -> rb_cmatrix_row m (Z.of_nat i) = Raise rb_eIndexError).
Proof.
  intros Hw Hr Hc Hil Hjl. split; [|split; [|split]].
  - intros Hj. apply rb_cmatrix_column_ok; assumption.
  - intros Hi. split; [apply rb_cmatrix_row_ok; assumption|].
    destruct (dims_inv _ _ _ (dims_cmatrix_transpose m)) as [Tr Tc].
    rewrite rb_cmatrix_column_ok by (rewrite Tc; assumption).
    rewrite Tr. do 2 f_equal. apply map_ext_in. intros j' Hj'.
    apply in_seq in Hj'. apply cmatrix_transpose_at; lia.
  - intros Hj. unfold rb_cmatrix_column.
    rewrite index_rejected by lia. reflexivity.
  - intros Hi. unfold rb_cmatrix_row.
    rewrite index_rejected by lia. reflexivity.
Qed.

Lemma rb_cmatrix_row_column_witness :
  rb_cmatrix_row matrix_1234 1 = Ok (mkCVector 2 [3%float; 4%float] 0) /\
  rb_cmatrix_column (cmatrix_transpose matrix_1234) 1
  = Ok (mkCVector 2 [3%float; 4%float] 1).
Proof.
  destruct (rb_cmatrix_row_column matrix_1234 1 1) as (_ & H & _);
    try (vm_compute; reflexivity).
  apply H. vm_compute. lia.
Defined.

Lemma rd_drop (d : list float) (n k : nat) : rd (drop n d) k = rd d (n + k).
Proof. unfold rd. rewrite lookup_drop. reflexivity. Qed.

(** The rows of a row-major array, put end to end, are the array. *)
Lemma concat_rows (C R : nat) (d : list float) :
  length d = R * C ->
  concat (map (fun i => map (fun j => rd d (i * C + j)) (seq 0 C)) (seq 0 R)) = d.
Proof.
  revert d. induction R as [|R IH]; intros d Hlen.
  - destruct d; [reflexivity | discriminate Hlen].
  - change (seq 0 (S R)) with (0 :: seq 1 R).
    rewrite <- seq_shift, map_cons, map_map. simpl concat.
    pose proof (map_rd_seq d 0 C) as Hf. rewrite drop_0 in Hf.
    change (map (fun j => rd d j) (seq 0 C))
      with (map (fun i => rd d (0 + i)) (seq 0 C)).
    rewrite Hf by (simpl in Hlen; lia).
    transitivity (take C d ++ drop C d); [|apply take_drop]. f_equal.
    rewrite <- (IH (drop C d)) by (rewrite length_drop; simpl in Hlen; lia).
    f_equal. apply map_ext. intros i. apply map_ext. intros j.
    rewrite rd_drop. f_equal. lia.
Qed.

Lemma rb_cmatrix_to_a_eq (m : CMatrix) :
  rb_cmatrix_to_a m
  = map (fun i => map (fun j => MAT_AT m i j) (seq 0 (m_cols m)))
      (seq 0 (m_rows m)).
Proof.
  unfold rb_cmatrix_to_a, for_range. rewrite !Nat.sub_0_r.
  rewrite (push_loop (fun i =>
             for_count (m_cols m) 0 (fun j row => row ++ [MAT_AT m i j]) [])).
  simpl. apply map_ext. intros i. apply (push_loop (fun j => MAT_AT m i j)).
Qed.

(** X20: [Matrix#to_a] returns one array per row, each with one element per
    column, the j-th element of the i-th array being the entry [(i, j)]; for
    a well-formed matrix the arrays put end to end are its row-major
    storage. *)
Theorem rb_cmatrix_to_a_spec (m : CMatrix) :
  length (rb_cmatrix_to_a m) = m_rows m /\
  (forall i row, rb_cmatrix_to_a m !! i = Some row ->
     length row = m_cols m /\
     forall j, j < m_cols m -> row !! j = Some (MAT_AT m i j)) /\
  (mat_wf m -> concat (rb_cmatrix_to_a m) = m_data m).
Proof.
  rewrite rb_cmatrix_to_a_eq. split; [|split].
  - rewrite length_map, length_seq. reflexivity.
  - intros i row Hrow. rewrite list_lookup_fmap in Hrow.
    destruct (seq 0 (m_rows m) !! i) as [i'|] eqn:Hi; [|discriminate Hrow].
    apply lookup_seq in Hi. destruct Hi as [-> Hi]. simpl in Hrow.
    injection Hrow as <-. split.
    + rewrite length_map, length_seq. reflexivity.
    + intros j Hj. rewrite list_lookup_fmap, lookup_seq_lt by exact Hj.
      reflexivity.
  - intros Hw. apply (concat_rows (m_cols m) (m_rows m) (m_data m) Hw).
Qed.

(** ** Products as dot products of rows and columns *)

Lemma dot_of_maps (n : nat) (f g : nat -> float) (ca cb : Z) :
  cvector_dot (mkCVector n (map f (seq 0 n)) ca) (mkCVector n (map g (seq 0 n)) cb)
  = Ok (for_range 0 n (fun k sum => (sum + f k * g k)%float) 0%float).
Proof.
  unfold cvector_dot. simpl. rewrite Nat.eqb_refl. cbn [negb]. f_equal.
  unfold for_range. apply for_count_ext. intros k sum Hk.
  rewrite !rd_map_seq by lia. reflexivity.
Qed.

(** X21: every entry of a matrix product is the dot product of a row of the
    left operand with a column of the right one, as [Matrix#row],
    [Matrix#column] and [cvector_dot] compute them. *)
Theorem cmatrix_multiply_row_column (a b : CMatrix) (i j : nat) :
  mat_wf a ->
  m_cols a = m_rows b -> i < m_rows a -> j < m_cols b ->
  (Z.of_nat (m_rows a) < 2 ^ 63)%Z -> (Z.of_nat (m_cols b) < 2 ^ 63)%Z ->
  exists r row col,
    cmatrix_multiply a b = Ok r /\
    rb_cmatrix_row a (Z.of_nat i) = Ok row /\
    rb_cmatrix_column b (Z.of_nat j) = Ok col /\
    cvector_dot row col = Ok (MAT_AT r i j).
Proof.
  intros Hw Hab Hi Hj Hra Hcb.
  destruct (cmatrix_multiply_entries a b Hab) as (r & Hr & _ & _ & Hent).
  exists r. eexists _, _. split; [exact Hr|].
  split; [apply rb_cmatrix_row_ok; assumption|].
  split; [apply rb_cmatrix_column_ok; assumption|].
  rewrite <- Hab. rewrite dot_of_maps. rewrite Hent by assumption. reflexivity.
Qed.

Lemma cmatrix_multiply_row_column_witness :
  exists r row col,
    cmatrix_multiply matrix_1234 identity_2x2 = Ok r /\
    rb_cmatrix_row matrix_1234 (Z.of_nat 1) = Ok row /\
    rb_cmatrix_column identity_2x2 (Z.of_nat 0) = Ok col /\
    cvector_dot row col = Ok (MAT_AT r 1 0).
Proof.
  apply (cmatrix_multiply_row_column matrix_1234 identity_2x2 1 0);
    vm_compute; try reflexivity; lia.
Defined.

(** X22: every element of a matrix-vector product is the dot product of a
    row of the matrix, as [Matrix#row] returns it, with the vector. *)
Theorem cmatrix_multiply_vector_rows (m : CMatrix) (v : CVector) (i : nat) :
  mat_wf m ->
  m_cols m = v_size v -> i < m_rows m -> (Z.of_nat (m_rows m) < 2 ^ 63)%Z ->
  exists r row,
    cmatrix_multiply_vector m v = Ok r /\
    rb_cmatrix_row m (Z.of_nat i) = Ok row /\
    cvector_dot row v = Ok (rd (v_data r) i).
Proof.
  intros Hm Hsz Hi Hr.
  unfold cmatrix_multiply_vector.
  rewrite (proj2 (Nat.eqb_eq _ _) Hsz). cbn [negb].
  eexists _, _. split; [reflexivity|].
  split; [apply rb_cmatrix_row_ok; assumption|].
  unfold cvector_alloc. rewrite (vec_fill (dot_row_vec m v)). simpl.
  rewrite rd_map_seq by exact Hi.
  unfold cvector_dot. simpl. rewrite (proj2 (Nat.eqb_eq _ _) Hsz). cbn [negb].
  f_equal. unfold dot_row_vec, for_range. apply for_count_ext.
  intros j sum Hj. rewrite rd_map_seq by lia. reflexivity.
Qed.

Lemma cmatrix_multiply_vector_rows_witness :
  exists r row,
    cmatrix_multiply_vector matrix_1234 vector_5_6 = Ok r /\
    rb_cmatrix_row matrix_1234 (Z.of_nat 1) = Ok row /\
    cvector_dot row vector_5_6 = Ok (rd (v_data r) 1).
Proof.
  apply (cmatrix_multiply_vector_rows matrix_1234 vector_5_6 1);
    vm_compute; try reflexivity; lia.
Defined.

(** ** Multiplication by a number: [Vector#*] and [Matrix#*] *)

(** X23: multiplied by a Float or a Fixnum, a vector gives a vector of the
    same size and orientation with every element multiplied, and a matrix
    gives a well-formed matrix of the same shape with every entry
    multiplied; a right operand of another kind raises a TypeError, a
    Matrix on the right of a Vector included. *)
Theorem scalar_multiplication (v : CVector) (m : CMatrix) (x : rb_value) :
  (exists f, x = RbFloat f) \/ (exists n, x = RbFixnum n) ->
  rb_cvector_mul v x
  = Ok (RbVector (mkCVector (v_size v)
                    (map (fun i => (rd (v_data v) i * NUM2DBL x)%float)
                       (seq 0 (v_size v)))
                    (v_is_col v))) /\
  (exists r,
     rb_cmatrix_mul m x = Ok (RbMatrix r) /\
     dims r = dims m /\ mat_wf r /\
     forall i j, i < m_rows m -> j < m_cols m ->
       MAT_AT r i j = (MAT_AT m i j * NUM2DBL x)%float) /\
  rb_cvector_mul v RbOther = Raise rb_eTypeError /\
  rb_cvector_mul v (RbMatrix m) = Raise rb_eTypeError /\
  rb_cmatrix_mul m RbOther = Raise rb_eTypeError.
Proof.
  intros Hx.
  assert (Hv : rb_cvector_mul v x
    = Ok (RbVector (for_range 0 (v_size v) (fun i result =>
            vec_set result i (rd (v_data v) i * NUM2DBL x)%float)
            (set_is_col (cvector_alloc (v_size v)) (v_is_col v)))))
    by (destruct Hx as [[f ->]|[n ->]]; reflexivity).
  assert (Hm : rb_cmatrix_mul m x
    = Ok (RbMatrix (mkCMatrix (m_rows m) (m_cols m)
            (for_range 0 (m_rows m * m_cols m) (fun i d =>
               <[i := (rd (m_data m) i * NUM2DBL x)%float]> d)
               (replicate (m_rows m * m_cols m) 0%float)))))
    by (destruct Hx as [[f ->]|[n ->]]; reflexivity).
  split; [|split; [|repeat split]].
  - rewrite Hv. do 2 f_equal.
    apply (vec_fill (fun i => (rd (v_data v) i * NUM2DBL x)%float)).
  - rewrite Hm. eexists. split; [reflexivity|]. split; [reflexivity|].
    unfold for_range. rewrite Nat.sub_0_r.
    rewrite (store_loop (fun i => (rd (m_data m) i * NUM2DBL x)%float) 0
               (m_rows m * m_cols m) 0)
      by (rewrite length_replicate; lia).
    rewrite drop_ge by (rewrite length_replicate; lia).
    simpl. rewrite app_nil_r. split.
    + unfold mat_wf. simpl. rewrite length_map, length_seq. reflexivity.
    + intros i j Hi Hj. unfold MAT_AT. simpl.
      apply rd_map_seq. apply row_major_bound2; assumption.
Qed.

Lemma scalar_multiplication_witness :
  rb_cvector_mul vector_3_4 (RbFixnum 2)
  = Ok (RbVector (mkCVector 2 [6%float; 8%float] 1)) /\
  rb_cmatrix_mul matrix_1234 (RbFloat 0.5)
  = Ok (RbMatrix (mkCMatrix 2 2 [0.5%float; 1%float; 1.5%float; 2%float])).
Proof.
  destruct (scalar_multiplication vector_3_4 matrix_1234 (RbFixnum 2))
    as (Hv & _); [right; eexists; reflexivity|].
  split; [rewrite Hv|]; vm_compute; reflexivity.
Defined.

(** ** [jacobi_svd]: well-formed results of the expected shapes *)

Lemma pair_wf_loop n lo (body : nat -> CMatrix * CMatrix -> CMatrix * CMatrix) qv :
  (forall i t, pair_wf t -> pair_wf (body i t)) -> pair_wf qv ->
  pair_wf (for_count n lo body qv).
Proof. intros Hb H. apply for_count_inv; assumption. Qed.

Lemma pair_wf_apply_jacobi_rotation q v p r cosine sine :
  pair_wf (q, v) -> pair_wf (apply_jacobi_rotation q v p r cosine sine).
Proof.
  intros [Hq Hv]. unfold apply_jacobi_rotation, pair_wf, for_range. simpl.
  split.
  - apply mat_wf_loop; [|apply mat_wf_loop; [|exact Hq]];
      intros i t Ht; apply mat_wf_MAT_SET, mat_wf_MAT_SET, Ht.
  - apply mat_wf_loop; [|exact Hv].
    intros i t Ht. apply mat_wf_MAT_SET, mat_wf_MAT_SET, Ht.
Qed.

Lemma cmatrix_identity_wf n : mat_wf (cmatrix_identity n).
Proof. apply (diagonal_loop (fun _ => 1%float)). Qed.

Lemma cmatrix_clone_wf m : mat_wf (cmatrix_clone m).
Proof. unfold cmatrix_clone. apply mat_wf_mat_memcpy, mat_wf_alloc. Qed.

Lemma singular_values_wf q size : vec_wf (singular_values q size).
Proof.
  unfold vec_wf, singular_values.
  rewrite singular_values_with_data, singular_values_with_size.
  rewrite length_map, length_seq. reflexivity.
Qed.

Section JacobiWellFormed.

Variables atan cos sin : float -> float.

Lemma pair_wf_jacobi_sweep size qv :
  pair_wf qv -> pair_wf (jacobi_sweep atan cos sin size qv).
Proof.
  unfold jacobi_sweep, for_range. apply pair_wf_loop. intros p t Ht.
  apply pair_wf_loop; [|exact Ht]. intros r [q v] Hqv.
  unfold jacobi_rotate_pair. apply pair_wf_apply_jacobi_rotation, Hqv.
Qed.

Lemma pair_wf_jacobi_sweeps n sweep size q v prev_q :
  pair_wf (q, v) -> pair_wf (jacobi_sweeps atan cos sin n sweep size q v prev_q).
Proof.
  revert sweep q v prev_q. induction n as [|n IH]; intros sweep q v prev_q Hqv;
    simpl; [exact Hqv|].
  pose proof (pair_wf_jacobi_sweep size (q, v) Hqv) as Hs.
  destruct (jacobi_sweep atan cos sin size (q, v)) as [q' v'].
  destruct (sweep =? 0); [apply IH, Hs|].
  destruct prev_q as [pq|]; [|exact Hs].
  destruct (_ <=? _)%float; [exact Hs | apply IH, Hs].
Qed.

Lemma pair_wf_jacobi_iterate w : pair_wf (jacobi_iterate atan cos sin w).
Proof.
  unfold jacobi_iterate. apply pair_wf_jacobi_sweeps.
  split; [apply cmatrix_clone_wf | apply cmatrix_identity_wf].
Qed.

(** X24: on a matrix with at least one row and one column [jacobi_svd] does
    not raise.  For an [m x n] input it returns well-formed [U], [V] and [S]
    where, with [k] the smaller and [l] the larger of [m] and [n], [U] is
    [l x k], [V] is [k x k] and [S] has [k] elements.  (With no row or no
    column the Gram matrix is [0 x 0] and the bound [size - 1] of the sweep
    wraps around to [2^64 - 1].) *)
Theorem jacobi_svd_shapes (a : CMatrix) :
  0 < m_rows a -> 0 < m_cols a ->
  exists u v s,
    jacobi_svd atan cos sin a = Ok (u, v, s) /\
    mat_wf u /\ mat_wf v /\ vec_wf s /\
    m_rows u = Nat.max (m_rows a) (m_cols a) /\
    m_cols u = Nat.min (m_rows a) (m_cols a) /\
    dims v = (Nat.min (m_rows a) (m_cols a), Nat.min (m_rows a) (m_cols a)) /\
    v_size s = Nat.min (m_rows a) (m_cols a).
Proof.
  intros _ _.
  destruct (jacobi_svd_ok atan cos sin a)
    as (w & q & u & v & temp & Hw & Hqv & Ht & Hu & Hsvd & Hdu & Hdv).
  assert (Hk : gram_size a = Nat.min (m_rows a) (m_cols a)).
  { unfold gram_size. destruct (m_cols a <=? m_rows a) eqn:Hle.
    - apply Nat.leb_le in Hle. lia.
    - apply Nat.leb_gt in Hle. lia. }
  assert (Hl : (if gram_transposed a then m_cols a else m_rows a)
               = Nat.max (m_rows a) (m_cols a)).
  { unfold gram_transposed. destruct (m_cols a <=? m_rows a) eqn:Hle; simpl.
    - apply Nat.leb_le in Hle. lia.
    - apply Nat.leb_gt in Hle. lia. }
  rewrite Hl, Hk in Hdu. rewrite Hk in Hdv.
  destruct (dims_inv _ _ _ Hdu) as [Hu1 Hu2].
  exists u, v, (singular_values q (gram_size a)).
  split; [exact Hsvd|]. split.
  { destruct (dims_inv _ _ _ Hdv) as [Hv1 _].
    destruct (cmatrix_multiply_entries temp
                (inverse_diagonal (singular_values q (gram_size a)) (gram_size a)))
      as (u' & Hu' & _ & Hwf & _).
    - unfold cmatrix_multiply in Hu.
      destruct (m_cols temp =? m_rows (inverse_diagonal _ _)) eqn:He;
        [apply Nat.eqb_eq, He | discriminate Hu].
    - rewrite Hu in Hu'. injection Hu' as <-. exact Hwf. }
  split.
  { pose proof (pair_wf_jacobi_iterate w) as Hp. rewrite Hqv in Hp. apply Hp. }
  split; [apply singular_values_wf|].
  split; [exact Hu1|]. split; [exact Hu2|]. split; [exact Hdv|].
  rewrite singular_values_size. exact Hk.
Qed.

End JacobiWellFormed.

Lemma jacobi_svd_shapes_witness :
  exists u v s,
    jacobi_svd no_libm no_libm no_libm matrix_1234 = Ok (u, v, s) /\
    mat_wf u /\ mat_wf v /\ vec_wf s /\
    m_rows u = Nat.max (m_rows matrix_1234) (m_cols matrix_1234) /\
    m_cols u = Nat.min (m_rows matrix_1234) (m_cols matrix_1234) /\
    dims v = (Nat.min (m_rows matrix_1234) (m_cols matrix_1234),
              Nat.min (m_rows matrix_1234) (m_cols matrix_1234)) /\
    v_size s = Nat.min (m_rows matrix_1234) (m_cols matrix_1234).
Proof.
  apply (jacobi_svd_shapes no_libm no_libm no_libm matrix_1234);
    vm_compute; lia.
Defined.

(** ** [build_k_matrix_with_growth] *)


(** ** [incremental_update]: truncation keeps the leading columns *)

(** The first [n] columns of a matrix, row by row. *)
Lemma truncate_columns_entries (u_new : CMatrix) (n : nat) :
  dims (truncate_columns u_new n) = (m_rows u_new, n) /\
  mat_wf (truncate_columns u_new n) /\
  (forall i j, i < m_rows u_new -> j < n ->
     MAT_AT (truncate_columns u_new n) i j
     = rd (m_data u_new) (i * m_cols u_new + j)).
Proof.
  unfold truncate_columns, for_range. rewrite Nat.sub_0_r.
  rewrite (mat_loop_lift (m_rows u_new) 0 _
    (fun i d => memcpy d (i * n + 0) (m_data u_new) (i * m_cols u_new + 0) n)).
  2:{ intros i t Ht. apply dims_inv in Ht. destruct Ht as [Hr Hc].
      simpl in Hr, Hc. unfold mat_memcpy. rewrite Hr, Hc. reflexivity. }
  simpl m_rows. simpl m_cols. simpl m_data.
  set (R := m_rows u_new). set (C := m_cols u_new).
  pose (P := fun (r : nat) (d : list float) =>
    length d = R * n /\
    forall i j, i < r -> j < n -> rd d (i * n + j) = rd (m_data u_new) (i * C + j)).
  assert (HP : P (0 + R) (for_count R 0
    (fun i d => memcpy d (i * n + 0) (m_data u_new) (i * C + 0) n)
    (replicate (R * n) 0%float))).
  { apply (for_count_ind P).
    - split; [apply length_replicate|]. intros; lia.
    - intros r d Hr (Hlen & Hval).
      assert (Hb : r * n + 0 + n <= length d) by (rewrite Hlen; nia).
      destruct (memcpy_rd d (r * n + 0) (m_data u_new) (r * C + 0) n Hb)
        as [Hcopy Hkeep].
      split; [rewrite memcpy_length; exact Hlen|].
      intros i j Hi Hj. destruct (decide (i = r)) as [->|Hne].
      + replace (r * n + j) with (r * n + 0 + j) by lia.
        rewrite Hcopy by exact Hj. f_equal. lia.
      + rewrite Hkeep by nia. apply Hval; lia. }
  destruct HP as (Hlen & Hval).
  split; [reflexivity|]. split; [exact Hlen|].
  intros i j Hi Hj. unfold MAT_AT. simpl. apply Hval; assumption.
Qed.

Lemma truncate_values_entries (s_prime : CVector) (n : nat) :
  v_size (truncate_values s_prime n) = n /\
  vec_wf (truncate_values s_prime n) /\
  (forall j, j < n ->
     rd (v_data (truncate_values s_prime n)) j = rd (v_data s_prime) j).
Proof.
  unfold truncate_values, vec_memcpy, cvector_alloc, vec_wf. simpl.
  split; [reflexivity|].
  split; [rewrite memcpy_length; apply length_replicate|].
  intros j Hj.
  destruct (memcpy_rd (replicate n 0%float) 0 (v_data s_prime) 0 n) as [Hcopy _];
    [rewrite length_replicate; lia|].
  apply (Hcopy j Hj).
Qed.

Section Truncation.

Variables atan cos sin : float -> float.

(** Case A with matching sizes: the rank bound only decides whether the
    untruncated factorization is cut. *)
Lemma incremental_update_case_A_cut u s c epsilon p :
  residual_step u c (project_step u c) = Ok p ->
  v_size p = m_rows u ->
  (epsilon <? cvector_magnitude p)%float = true ->
  v_size s = m_cols u ->
  exists u_new s_prime,
    dims u_new = (m_rows u, m_cols u + 1) /\
    v_size s_prime = m_cols u + 1 /\
    mat_wf u_new /\ vec_wf s_prime /\
    forall max_rank,
      incremental_update atan cos sin u s c max_rank epsilon
      = if (Z.of_nat (m_cols u + 1) >? to_size_t max_rank)%Z
        then Ok (truncate_columns u_new (Z.to_nat (to_size_t max_rank)),
                 truncate_values s_prime (Z.to_nat (to_size_t max_rank)))
        else Ok (u_new, s_prime).
Proof.
  intros Hp Hsz Hlt Heq. unfold incremental_update.
  rewrite (reading_c_ok u c (residual_step_inv u c p Hp)). cbn [bind].
  rewrite Hp. cbn [bind]. rewrite Hlt, reading_m_vec.
  rewrite (proj2 (Nat.leb_le _ _)) by lia. cbn [bind].
  set (m_vec := project_step u c).
  set (p_hat := for_range 0 (m_rows u) _ (cvector_alloc (m_rows u))).
  set (k_mat := build_k_matrix_with_growth s m_vec (cvector_magnitude p)).
  assert (Hk : dims k_mat = (v_size s + 1, v_size s + 1))
    by apply dims_build_k_matrix_with_growth.
  destruct (jacobi_svd_ok atan cos sin k_mat)
    as (w & q & u_prime & v_prime & temp & _ & _ & _ & _ & Hsvd & Hdu & _).
  rewrite (gram_size_square _ _ Hk), (gram_transposed_square _ _ Hk) in Hdu.
  rewrite (gram_size_square _ _ Hk) in Hsvd.
  destruct (dims_inv _ _ _ Hk) as [Hk1 _]. rewrite Hk1 in Hdu.
  destruct (dims_inv _ _ _ Hdu) as [Hu1 Hu2].
  rewrite Hsvd. cbn [bind].
  assert (Hph : v_size p_hat = m_rows u)
    by (unfold p_hat, for_range; rewrite vec_loop_size; reflexivity).
  destruct (cmatrix_extend_column_ok u p_hat) as [u_ext [Hext Hde]];
    [symmetry; exact Hph|].
  destruct (dims_inv _ _ _ Hde) as [He1 He2].
  rewrite Hext. cbn [bind].
  destruct (cmatrix_multiply_entries u_ext u_prime)
    as (u_new & Hnew & Hdn & Hwf & _); [lia|].
  rewrite Hnew. cbn [bind].
  exists u_new, (singular_values q (v_size s + 1)).
  split; [rewrite Hdn, He1, Hu2, Heq; reflexivity|].
  split; [rewrite singular_values_size, Heq; reflexivity|].
  split; [exact Hwf|]. split; [apply singular_values_wf|].
  intros max_rank. rewrite singular_values_size, Heq. reflexivity.
Qed.

(** X26: when a new direction is found and [0 <= max_rank <= k], the update
    returns exactly [max_rank] columns and singular values, and they are the
    first [max_rank] columns and singular values of the untruncated update
    (the one with [max_rank = k + 1]), in the same order. *)
Theorem truncation_keeps_leading_columns (u : CMatrix) (s c : CVector)
    (max_rank : Z) (epsilon : float) :
  v_size c = m_rows u -> v_size s = m_cols u ->
  (epsilon <? residual_norm u c)%float = true ->
  (0 <= max_rank <= Z.of_nat (m_cols u))%Z ->
  (Z.of_nat (m_cols u) + 1 < 2 ^ 31)%Z ->
  exists u_full s_full u_cut s_cut,
    incremental_update atan cos sin u s c (Z.of_nat (m_cols u + 1)) epsilon
    = Ok (u_full, s_full) /\
    incremental_update atan cos sin u s c max_rank epsilon = Ok (u_cut, s_cut) /\
    m_cols u_full = m_cols u + 1 /\
    m_rows u_cut = m_rows u /\ m_cols u_cut = Z.to_nat max_rank /\
    v_size s_cut = Z.to_nat max_rank /\
    (forall i j, i < m_rows u -> j < Z.to_nat max_rank ->
       MAT_AT u_cut i j = MAT_AT u_full i j) /\
    (forall j, j < Z.to_nat max_rank ->
       rd (v_data s_cut) j = rd (v_data s_full) j).
Proof.
  intros Hc Hs Hlt Hmr Hk.
  destruct (residual_step_ok u c Hc) as [p [Hp Hsz]].
  rewrite (residual_norm_ok u c p Hp) in Hlt.
  destruct (incremental_update_case_A_cut u s c epsilon p Hp Hsz Hlt Hs)
    as (u_new & s_prime & Hd & Hsp & _ & _ & Hupd).
  destruct (dims_inv _ _ _ Hd) as [Hr Hcn].
  exists u_new, s_prime,
    (truncate_columns u_new (Z.to_nat max_rank)),
    (truncate_values s_prime (Z.to_nat max_rank)).
  assert (Hfull : to_size_t (Z.of_nat (m_cols u + 1)) = Z.of_nat (m_cols u + 1))
    by (unfold to_size_t; apply Z.mod_small; lia).
  assert (Hcut : to_size_t max_rank = max_rank)
    by (unfold to_size_t; apply Z.mod_small; lia).
  split.
  { rewrite Hupd, Hfull, Z.gtb_ltb, Z.ltb_irrefl. reflexivity. }
  split.
  { rewrite Hupd, Hcut. rewrite (proj2 (Z.gtb_lt _ _)) by lia. reflexivity. }
  destruct (truncate_columns_entries u_new (Z.to_nat max_rank)) as (Td & _ & Te).
  destruct (truncate_values_entries s_prime (Z.to_nat max_rank)) as (Ts & _ & Tv).
  destruct (dims_inv _ _ _ Td) as [Tr Tc].
  split; [exact Hcn|]. split; [rewrite Tr; exact Hr|]. split; [exact Tc|].
  split; [exact Ts|]. split.
  - intros i j Hi Hj. rewrite Te by (rewrite ?Hr; assumption). reflexivity.
  - exact Tv.
Qed.

(** X27: whenever [incremental_update] returns, the factorization it returns
    is well formed: the storage of [U'] and [S'] has the declared sizes,
    [U'] has the rows of [U], and [S'] has one element per column of [U']. *)
Theorem incremental_update_well_formed (u : CMatrix) (s c : CVector)
    (max_rank : Z) (epsilon : float) (u' : CMatrix) (s' : CVector) :
  incremental_update atan cos sin u s c max_rank epsilon = Ok (u', s') ->
  mat_wf u' /\ vec_wf s' /\ m_rows u' = m_rows u /\
  (v_size s = m_cols u -> v_size s' = m_cols u').
Proof.
  intros Hok.
  destruct (decide (v_size c = m_rows u)) as [Hc|Hc].
  2:{ unfold incremental_update in Hok. rewrite reading_c_spec in Hok.
      destruct (decide _); [discriminate Hok|]. cbn [bind] in Hok.
      rewrite (residual_step_raise u c Hc) in Hok. discriminate Hok. }
  destruct (residual_step_ok u c Hc) as [p [Hp Hsz]].
  destruct (epsilon <? cvector_magnitude p)%float eqn:Hlt.
  - destruct (decide (v_size s = m_cols u)) as [Hs|Hs].
    2:{ destruct (incremental_update_case_A atan cos sin u s c max_rank epsilon p
                    Hp Hsz Hlt) as (Hlong & Hshort & _).
        destruct (Nat.lt_total (v_size s) (m_cols u)) as [H|[H|H]];
          [rewrite (Hshort H) in Hok | contradiction | rewrite (Hlong H) in Hok];
          discriminate Hok. }
    destruct (incremental_update_case_A_cut u s c epsilon p Hp Hsz Hlt Hs)
      as (u_new & s_prime & Hd & Hsp & Hwu & Hws & Hupd).
    destruct (dims_inv _ _ _ Hd) as [Hr Hcn].
    rewrite Hupd in Hok.
    destruct (Z.of_nat (m_cols u + 1) >? to_size_t max_rank)%Z.
    + injection Hok as <- <-.
      destruct (truncate_columns_entries u_new (Z.to_nat (to_size_t max_rank)))
        as (Td & Tw & _).
      destruct (truncate_values_entries s_prime (Z.to_nat (to_size_t max_rank)))
        as (Ts & Tws & _).
      destruct (dims_inv _ _ _ Td) as [Tr Tc].
      split; [exact Tw|]. split; [exact Tws|]. split; [congruence|].
      intros _. congruence.
    + injection Hok as <- <-.
      split; [exact Hwu|]. split; [exact Hws|]. split; [exact Hr|].
      intros _. congruence.
  - rewrite (incremental_update_case_B atan cos sin u s c max_rank epsilon p Hp Hlt)
      in Hok.
    injection Hok as <- <-.
    split; [apply mat_wf_mat_memcpy, mat_wf_alloc|].
    split.
    + unfold vec_wf, vec_memcpy. simpl. rewrite memcpy_length.
      apply length_replicate.
    + split; [reflexivity|]. intros Hs. simpl. exact Hs.
Qed.

End Truncation.

Lemma truncation_keeps_leading_columns_witness :
  exists u_full s_full u_cut s_cut,
    incremental_update no_libm no_libm no_libm U0 S0 c_orthogonal
      (Z.of_nat (m_cols U0 + 1)) 1e-6 = Ok (u_full, s_full) /\
    incremental_update no_libm no_libm no_libm U0 S0 c_orthogonal 1 1e-6
    = Ok (u_cut, s_cut) /\
    m_cols u_full = m_cols U0 + 1 /\
    m_rows u_cut = m_rows U0 /\ m_cols u_cut = Z.to_nat 1 /\
    v_size s_cut = Z.to_nat 1 /\
    (forall i j, i < m_rows U0 -> j < Z.to_nat 1 ->
       MAT_AT u_cut i j = MAT_AT u_full i j) /\
    (forall j, j < Z.to_nat 1 -> rd (v_data s_cut) j = rd (v_data s_full) j).
Proof.
  apply (truncation_keeps_leading_columns no_libm no_libm no_libm
           U0 S0 c_orthogonal 1 1e-6).
  - reflexivity.
  - reflexivity.
  - vm_compute. reflexivity.
  - vm_compute. split; discriminate.
  - vm_compute. reflexivity.
Defined.

Lemma incremental_update_well_formed_witness :
  mat_wf (mkCMatrix 3 1 [0%float; 1%float; 0%float]) /\
  vec_wf (mkCVector 1 [1%float] 0) /\
  m_rows (mkCMatrix 3 1 [0%float; 1%float; 0%float]) = m_rows U_empty /\
  (v_size S_empty = m_cols U_empty ->
   v_size (mkCVector 1 [1%float] 0)
   = m_cols (mkCMatrix 3 1 [0%float; 1%float; 0%float])).
Proof.
  apply (incremental_update_well_formed no_libm no_libm no_libm
           U_empty S_empty c_orthogonal 5 1e-6).
  vm_compute. reflexivity.
Defined.
